(** * wordpirate: WordPress to static-site migration script

    A shallow embedding of [wordpirate.py] and the properties of its
    fetch / normalize / write pipeline.

    Conventions of the embedding:
    - a Python [str] is a list of Unicode code points ([N]);
    - a parsed JSON value (what [Response.json()] returns) is the inductive
      [JSON]; JSON numbers are integers (the program reads only IDs);
    - a Python [dict] with hashable keys is a [gmap];
    - the network and the filesystem are explicit state: the list of HTTP
      requests sent so far and a finite map from paths to nodes;
    - an operation that may raise returns a [Result]; loops that Python
      runs until the server stops answering take a [fuel] bound and
      report [Timeout] when it runs out. *)

From Stdlib Require Import ZArith NArith Ascii String List Lia.
From Stdlib Require Import DecimalN DecimalFacts HexadecimalN.
From stdpp Require Import base option list gmap strings fin_maps.

Local Open Scope Z_scope.

(** ** Python strings *)

Abbreviation str := (list N) (only parsing).

(** A string literal of the source: its ASCII characters as code points. *)
Definition py (s : string) : str :=
  List.map N_of_ascii (list_ascii_of_string s).

(** ** Parsed JSON values *)

#[warnings="-register-all"]
Inductive JSON :=
| JNull
| JBool (b : bool)
| JNum (n : Z)
| JStr (s : str)
| JList (l : list JSON)
| JObj (kvs : list (str * JSON)).

(** ** Paths ([pathlib.PurePosixPath]) *)

(** [p_root] is the number of slashes of the root: 0 for a relative path,
    1 for [/], 2 for the POSIX double-slash root. *)
Record Path := mkPath { p_root : nat; p_parts : list str }.

Global Instance Path_eq_dec : EqDecision Path.
Proof. solve_decision. Defined.

Global Instance Path_countable : Countable Path.
Proof.
  refine (inj_countable' (fun p => (p_root p, p_parts p))
                         (fun t => mkPath t.1 t.2) _).
  by intros [].
Defined.

(** ** Exceptions and results *)

Inductive exn :=
| KeyError (key : JSON)
| TypeError
| ValueError
| RequestException
| FileExistsError (p : Path)
| FileNotFoundError (p : Path)
| NotADirectoryError (p : Path)
| IsADirectoryError (p : Path)
| UnicodeEncodeError.

Inductive Result (A : Type) :=
| Ok (a : A)
| Raise (e : exn)
| Timeout.
Arguments Ok {A} a.
Arguments Raise {A} e.
Arguments Timeout {A}.

(** ** HTTP *)

Inductive ParamValue := PInt (n : Z) | PStr (s : str).

Global Instance ParamValue_eq_dec : EqDecision ParamValue.
Proof. solve_decision. Defined.

Record Request := mkRequest {
  req_url : str;
  req_params : gmap str ParamValue;
  req_headers : gmap str str;
}.

(** A [requests.Response]: only its body matters to the program, parsed
    ([Some j]) or not parseable as JSON ([None]). *)
Record Response := mkResponse { body : option JSON }.

(** [Response.json()] *)
Definition json (r : Response) : Result JSON :=
  match body r with
  | Some j => Ok j
  | None => Raise ValueError
  end.

(** ** The filesystem *)

Inductive Node := Dir | File (content : str).

(** ** Dictionary keys *)

(** Reference cache: [{x["id"]: x for x in ...}].  Python dictionary keys
    compare by value across [bool] and [int] ([True == 1]). *)
Inductive Key := KNone | KInt (n : Z) | KStr (s : str).

Global Instance Key_eq_dec : EqDecision Key.
Proof. solve_decision. Defined.

Global Instance Key_countable : Countable Key.
Proof.
  refine (inj_countable'
    (fun k => match k with
              | KNone => inl ()
              | KInt n => inr (inl n)
              | KStr s => inr (inr s)
              end)
    (fun t => match t with
              | inl _ => KNone
              | inr (inl n) => KInt n
              | inr (inr s) => KStr s
              end) _).
  by intros [].
Defined.

Definition key_of (j : JSON) : Result Key :=
  match j with
  | JNull => Ok KNone
  | JBool b => Ok (KInt (if b then 1 else 0))
  | JNum n => Ok (KInt n)
  | JStr s => Ok (KStr s)
  | JList _ | JObj _ => Raise TypeError
  end.

(** ** Timestamps ([datetime.datetime]) *)

(** [tzinfo] is the UTC offset of an aware timestamp in microseconds,
    [None] for a naive one. *)
Record datetime := mkDatetime {
  year : N; month : N; day : N;
  hour : N; minute : N; second : N; microsecond : N;
  tzinfo : option Z;
}.

Definition UTC : option Z := Some 0.

(** [pytz.UTC.localize(dt)] *)
Definition localize (dt : datetime) : Result datetime :=
  match tzinfo dt with
  | Some _ => Raise ValueError
  | None =>
      Ok (mkDatetime (year dt) (month dt) (day dt)
                     (hour dt) (minute dt) (second dt) (microsecond dt) UTC)
  end.

(** *** Decimal and hexadecimal digits *)

Fixpoint uint_chars (u : Decimal.uint) : str :=
  match u with
  | Decimal.Nil => []
  | Decimal.D0 u => 48%N :: uint_chars u
  | Decimal.D1 u => 49%N :: uint_chars u
  | Decimal.D2 u => 50%N :: uint_chars u
  | Decimal.D3 u => 51%N :: uint_chars u
  | Decimal.D4 u => 52%N :: uint_chars u
  | Decimal.D5 u => 53%N :: uint_chars u
  | Decimal.D6 u => 54%N :: uint_chars u
  | Decimal.D7 u => 55%N :: uint_chars u
  | Decimal.D8 u => 56%N :: uint_chars u
  | Decimal.D9 u => 57%N :: uint_chars u
  end.

Fixpoint hex_chars (u : Hexadecimal.uint) : str :=
  match u with
  | Hexadecimal.Nil => []
  | Hexadecimal.D0 u => 48%N :: hex_chars u
  | Hexadecimal.D1 u => 49%N :: hex_chars u
  | Hexadecimal.D2 u => 50%N :: hex_chars u
  | Hexadecimal.D3 u => 51%N :: hex_chars u
  | Hexadecimal.D4 u => 52%N :: hex_chars u
  | Hexadecimal.D5 u => 53%N :: hex_chars u
  | Hexadecimal.D6 u => 54%N :: hex_chars u
  | Hexadecimal.D7 u => 55%N :: hex_chars u
  | Hexadecimal.D8 u => 56%N :: hex_chars u
  | Hexadecimal.D9 u => 57%N :: hex_chars u
  | Hexadecimal.Da u => 97%N :: hex_chars u
  | Hexadecimal.Db u => 98%N :: hex_chars u
  | Hexadecimal.Dc u => 99%N :: hex_chars u
  | Hexadecimal.Dd u => 100%N :: hex_chars u
  | Hexadecimal.De u => 101%N :: hex_chars u
  | Hexadecimal.Df u => 102%N :: hex_chars u
  end.

(** Left padding with the digit zero up to width [w]. *)
Definition zfill (w : nat) (s : str) : str :=
  repeat 48%N (w - length s) ++ s.

(** ["%0wd" % n] for a natural number *)
Definition fmt_d (w : nat) (n : N) : str := zfill w (uint_chars (N.to_uint n)).

(** ["{0:04x}".format(n)] *)
Definition fmt_04x (n : N) : str := zfill 4 (hex_chars (N.to_hex_uint n)).

(** [str(n)] for an integer *)
Definition int_str (n : Z) : str :=
  if n <? 0 then 45%N :: uint_chars (N.to_uint (Z.to_N (- n)))
  else uint_chars (N.to_uint (Z.to_N n)).

(** *** [datetime.isoformat()] *)

Definition usec_per_hour : Z := 3600000000.
Definition usec_per_minute : Z := 60000000.
Definition usec_per_second : Z := 1000000.

Definition format_offset (off : option Z) : str :=
  match off with
  | None => []
  | Some o =>
      let sign := if o <? 0 then 45%N else 43%N in
      let a := Z.abs o in
      let hh := a / usec_per_hour in
      let r := a mod usec_per_hour in
      let mm := r / usec_per_minute in
      let ss := r mod usec_per_minute in
      let sec := ss / usec_per_second in
      let us := ss mod usec_per_second in
      sign :: fmt_d 2 (Z.to_N hh) ++ 58%N :: fmt_d 2 (Z.to_N mm)
        ++ (if ss =? 0 then []
            else 58%N :: fmt_d 2 (Z.to_N sec)
                   ++ (if us =? 0 then [] else 46%N :: fmt_d 6 (Z.to_N us)))
  end.

Definition format_time (hh mm ss us : N) : str :=
  fmt_d 2 hh ++ 58%N :: fmt_d 2 mm ++ 58%N :: fmt_d 2 ss
    ++ (if (us =? 0)%N then [] else 46%N :: fmt_d 6 us).

Definition isoformat (d : datetime) : str :=
  fmt_d 4 (year d) ++ 45%N :: fmt_d 2 (month d) ++ 45%N :: fmt_d 2 (day d)
    ++ 84%N :: format_time (hour d) (minute d) (second d) (microsecond d)
    ++ format_offset (tzinfo d).

(** *** [datetime.fromisoformat(s)]

    The format is the one Python 3.8 documents:
    [YYYY-MM-DD[*HH[:MM[:SS[.fff[fff]]]][+HH:MM[:SS[.ffffff]]]]], where [*]
    is any single character. *)

Definition digit (c : N) : option N :=
  if ((48 <=? c) && (c <=? 57))%N then Some (c - 48)%N else None.

(** Exactly [n] ASCII digits, as a number, and the rest of the string. *)
Fixpoint parse_digits_from (acc : N) (n : nat) (s : str) : option (N * str) :=
  match n with
  | O => Some (acc, s)
  | S n' =>
      match s with
      | [] => None
      | c :: s' =>
          match digit c with
          | Some d => parse_digits_from (10 * acc + d)%N n' s'
          | None => None
          end
      end
  end.

Definition parse_digits : nat -> str -> option (N * str) := parse_digits_from 0%N.

Definition parse_isoformat_date (s : str) : option (N * N * N * str) :=
  match parse_digits 4 s with
  | Some (y, 45%N :: s1) =>
      match parse_digits 2 s1 with
      | Some (m, 45%N :: s2) =>
          match parse_digits 2 s2 with
          | Some (d, s3) => Some (y, m, d, s3)
          | None => None
          end
      | _ => None
      end
  | _ => None
  end.

Definition parse_fraction (s : str) : option N :=
  if (length s =? 3)%nat then
    match parse_digits 3 s with Some (f, _) => Some (f * 1000)%N | None => None end
  else if (length s =? 6)%nat then
    match parse_digits 6 s with Some (f, _) => Some f | None => None end
  else None.

(** The whole of [s] as [HH[:MM[:SS[.fff[fff]]]]]. *)
Definition parse_hh_mm_ss_ff (s : str) : option (N * N * N * N) :=
  match parse_digits 2 s with
  | Some (hh, []) => Some (hh, 0, 0, 0)%N
  | Some (hh, 58%N :: s1) =>
      match parse_digits 2 s1 with
      | Some (mm, []) => Some (hh, mm, 0, 0)%N
      | Some (mm, 58%N :: s2) =>
          match parse_digits 2 s2 with
          | Some (ss, []) => Some (hh, mm, ss, 0)%N
          | Some (ss, 46%N :: s3) =>
              match parse_fraction s3 with
              | Some us => Some (hh, mm, ss, us)
              | None => None
              end
          | _ => None
          end
      | _ => None
      end
  | _ => None
  end.

(** Splits a time string at its offset sign: the first [-] if there is
    one, otherwise the first [+]. *)
Fixpoint split_at (c : N) (s : str) : option (str * str) :=
  match s with
  | [] => None
  | x :: s' =>
      if (x =? c)%N then Some ([], s')
      else match split_at c s' with
           | Some (a, b) => Some (x :: a, b)
           | None => None
           end
  end.

Definition parse_offset (negative : bool) (s : str) : option (option Z) :=
  if negb (bool_decide (length s ∈ [5; 8; 15]%nat)) then None
  else
    match parse_hh_mm_ss_ff s with
    | Some (hh, mm, ss, us) =>
        let td := Z.of_N hh * usec_per_hour + Z.of_N mm * usec_per_minute
                  + Z.of_N ss * usec_per_second + Z.of_N us in
        if td =? 0 then Some UTC
        else if td <? 24 * usec_per_hour
             then Some (Some (if negative then - td else td))
             else None
    | None => None
    end.

Definition parse_isoformat_time (s : str) : option (N * N * N * N * option Z) :=
  let with_offset negative timestr tzstr :=
    match parse_hh_mm_ss_ff timestr, parse_offset negative tzstr with
    | Some t, Some tz => Some (t, tz)
    | _, _ => None
    end in
  match split_at 45%N s with
  | Some (timestr, tzstr) => with_offset true timestr tzstr
  | None =>
      match split_at 43%N s with
      | Some (timestr, tzstr) => with_offset false timestr tzstr
      | None =>
          match parse_hh_mm_ss_ff s with
          | Some t => Some (t, None)
          | None => None
          end
      end
  end.

Definition is_leap (y : N) : bool :=
  ((y mod 4 =? 0) && (negb (y mod 100 =? 0) || (y mod 400 =? 0)))%N.

Definition days_in_month (y m : N) : N :=
  (if m =? 2 then (if is_leap y then 29 else 28)
   else if bool_decide (m ∈ [4; 6; 9; 11]) then 30 else 31)%N.

(** The range checks of the [datetime] constructor. *)
Definition valid_datetime (d : datetime) : bool :=
  ((1 <=? year d) && (year d <=? 9999)
   && (1 <=? month d) && (month d <=? 12)
   && (1 <=? day d) && (day d <=? days_in_month (year d) (month d))
   && (hour d <? 24) && (minute d <? 60) && (second d <? 60)
   && (microsecond d <? 1000000))%N.

Definition fromisoformat (s : str) : Result datetime :=
  match parse_isoformat_date s with
  | None => Raise ValueError
  | Some (y, m, d, rest) =>
      let build hh mm ss us tz :=
        let dt := mkDatetime y m d hh mm ss us tz in
        if valid_datetime dt then Ok dt else Raise ValueError in
      match rest with
      | [] => build 0%N 0%N 0%N 0%N None
      | _ :: tstr =>
          match parse_isoformat_time tstr with
          | Some (hh, mm, ss, us, tz) => build hh mm ss us tz
          | None => Raise ValueError
          end
      end
  end.

(** ** [json.dumps] with its default options

    [ensure_ascii=True], separators [", "] and [": "], no indentation. *)

Definition u_escape (n : N) : str := 92%N :: 117%N :: fmt_04x n.

(** The replacement of one character inside a string literal: the short
    escapes of [ESCAPE_DCT], printable ASCII unchanged, everything else as
    [\uXXXX], above the basic plane as a surrogate pair. *)
Definition encode_char (c : N) : str :=
  (if c =? 34 then [92; 34]
   else if c =? 92 then [92; 92]
   else if (32 <=? c) && (c <=? 126) then [c]
   else if c =? 8 then [92; 98]
   else if c =? 12 then [92; 102]
   else if c =? 10 then [92; 110]
   else if c =? 13 then [92; 114]
   else if c =? 9 then [92; 116]
   else if c <? 0x10000 then u_escape c
   else
     let n := c - 0x10000 in
     let s1 := N.lor 0xd800 (N.land (N.shiftr n 10) 0x3ff) in
     let s2 := N.lor 0xdc00 (N.land n 0x3ff) in
     u_escape s1 ++ u_escape s2)%N.

Definition encode_basestring_ascii (s : str) : str :=
  34%N :: flat_map encode_char s ++ [34%N].

(** [sep.join(l)] *)
Fixpoint join (sep : str) (l : list str) : str :=
  match l with
  | [] => []
  | [x] => x
  | x :: l' => x ++ sep ++ join sep l'
  end.

Fixpoint dumps (j : JSON) : str :=
  match j with
  | JNull => py "null"
  | JBool true => py "true"
  | JBool false => py "false"
  | JNum n => int_str n
  | JStr s => encode_basestring_ascii s
  | JList l => 91%N :: join (py ", ") (List.map dumps l) ++ [93%N]
  | JObj kvs =>
      123%N :: join (py ", ")
                 (List.map (fun kv => encode_basestring_ascii (fst kv)
                                        ++ py ": " ++ dumps (snd kv)) kvs)
        ++ [125%N]
  end.

(** ** [html.unescape]

    The tables of the standard library ([html.entities.html5], keyed by
    the reference without its ampersand, and the two tables of invalid
    numeric references of the [html] module) are parameters. *)

Class HtmlEntities := {
  html5 : str -> option str;
  invalid_charrefs : N -> option str;
  invalid_codepoints : N -> bool;
}.

Definition is_digit (c : N) : bool := ((48 <=? c) && (c <=? 57))%N.

Definition is_hexdigit (c : N) : bool :=
  (is_digit c || ((97 <=? c) && (c <=? 102)) || ((65 <=? c) && (c <=? 70)))%N.

(** The class [[^\t\n\f <&#;]] *)
Definition is_name_char (c : N) : bool :=
  negb (bool_decide (c ∈ [9; 10; 12; 32; 60; 38; 35; 59]%N)).

(** The longest prefix of at most [n] characters that satisfy [f]. *)
Fixpoint span_upto (f : N -> bool) (n : nat) (s : str) : str * str :=
  match n, s with
  | S n', c :: s' =>
      if f c then let '(a, b) := span_upto f n' s' in (c :: a, b)
      else ([], s)
  | _, _ => ([], s)
  end.

(** An optional semicolon at the head of [rest] joins the match [g]. *)
Definition with_semicolon (g rest : str) : str :=
  match rest with
  | 59%N :: _ => g ++ [59%N]
  | _ => g
  end.

(** Group 1 of the pattern
    [&(#[0-9]+;?|#[xX][0-9a-fA-F]+;?|[^\t\n\f <&#;]{1,32};?)] matched at
    an ampersand whose following text is [s]. *)
Definition match_charref (s : str) : option str :=
  match s with
  | 35%N :: s1 =>
      match span_upto is_digit (length s1) s1 with
      | ((_ :: _) as ds, rest) => Some (with_semicolon (35%N :: ds) rest)
      | ([], _) =>
          match s1 with
          | x :: s2 =>
              if bool_decide (x ∈ [120; 88]%N) then
                match span_upto is_hexdigit (length s2) s2 with
                | ((_ :: _) as hs, rest) =>
                    Some (with_semicolon (35%N :: x :: hs) rest)
                | ([], _) => None
                end
              else None
          | [] => None
          end
      end
  | _ =>
      match span_upto is_name_char 32 s with
      | ((_ :: _) as ns, rest) => Some (with_semicolon ns rest)
      | ([], _) => None
      end
  end.

Fixpoint drop_semicolons (l : str) : str :=
  match l with
  | 59%N :: l' => drop_semicolons l'
  | _ => l
  end.

(** [s.rstrip(';')] *)
Definition rstrip_semicolon (s : str) : str := rev (drop_semicolons (rev s)).

Definition hex_value (c : N) : N :=
  (if is_digit c then c - 48
   else if (97 <=? c) && (c <=? 102) then c - 87
   else c - 55)%N.

(** [int(s)] and [int(s, 16)] on a string of digits *)
Definition int_of_digits (base : N) (s : str) : N :=
  fold_left (fun acc c => (base * acc + hex_value c)%N) s 0%N.

Section Unescape.
Context `{!HtmlEntities}.

(** The loop [for x in range(len(s)-1, 1, -1)] of [_replace_charref]:
    the longest proper prefix of [s] that names an entity. *)
Fixpoint longest_entity_prefix (x : nat) (s : str) : str :=
  match x with
  | S x' =>
      if (2 <=? x)%nat then
        match html5 (take x s) with
        | Some r => r ++ drop x s
        | None => longest_entity_prefix x' s
        end
      else 38%N :: s
  | O => 38%N :: s
  end.

(** [_replace_charref] applied to group 1 of a match *)
Definition replace_charref (s : str) : str :=
  match s with
  | 35%N :: x :: ds =>
      let num :=
        if bool_decide (x ∈ [120; 88]%N)
        then int_of_digits 16 (rstrip_semicolon ds)
        else int_of_digits 10 (rstrip_semicolon (x :: ds)) in
      match invalid_charrefs num with
      | Some r => r
      | None =>
          if ((0xD800 <=? num) && (num <=? 0xDFFF) || (0x10FFFF <? num))%N
          then [0xFFFD%N]
          else if invalid_codepoints num then []
          else [num]
      end
  | _ =>
      match html5 s with
      | Some r => r
      | None => longest_entity_prefix (length s - 1) s
      end
  end.

(** [_charref.sub(_replace_charref, s)]: the matches are found from left
    to right and do not overlap; [skip] counts the characters of the
    current match that are still to be passed over. *)
Fixpoint charref_sub (skip : nat) (s : str) : str :=
  match s with
  | [] => []
  | c :: s' =>
      match skip with
      | S k => charref_sub k s'
      | O =>
          if (c =? 38)%N then
            match match_charref s' with
            | Some g => replace_charref g ++ charref_sub (length g) s'
            | None => c :: charref_sub 0 s'
            end
          else c :: charref_sub 0 s'
      end
  end.

Definition unescape (s : str) : str :=
  if bool_decide (38%N ∈ s) then charref_sub 0 s else s.
End Unescape.

(** ** The document model *)

Module Post.

Record t := mk {
  published : datetime;
  modified : datetime;
  title : str;
  slug : str;
  content : str;
  summary : str;
  aliases : list str;
  categories : list str;
  tags : list str;
  author : str;
}.

(** The dictionary literal that [front_matter] serializes; a Python
    [dict] keeps its keys in insertion order. *)
Definition metadata (self : t) : JSON :=
  JObj [ (py "title", JStr (title self));
         (py "categories", JList (List.map JStr (categories self)));
         (py "tags", JList (List.map JStr (tags self)));
         (py "aliases", JList (List.map JStr (aliases self)));
         (py "author", JStr (author self));
         (py "date", JStr (isoformat (published self)));
         (py "lastmod", JStr (isoformat (modified self)));
         (py "slug", JStr (slug self));
         (py "summary", JStr (summary self)) ].

Definition front_matter (self : t) : str := dumps (metadata self).

Definition md (self : t) : str :=
  front_matter self ++ 10%N :: 10%N :: content self.

End Post.

(** ** Program state *)

(** The attributes of the two objects the script creates: the constructor
    argument and one slot per [functools.cached_property], empty until the
    property has been computed. *)
Record ExtractorAttrs := mkExtractor {
  base_url : str;
  cached_categories : option (gmap Key JSON);
  cached_tags : option (gmap Key JSON);
  cached_posts : option (list Post.t);
}.

Record ConstructorAttrs := mkConstructor {
  base_path : Path;
  cached_posts_directory : option Path;
}.

(** [http] is the remote side: the answer to a request given the requests
    received before it, [None] when [requests.get] raises.  [sent] lists
    the requests issued so far, oldest first. *)
Record State := mkState {
  http : list Request -> Request -> option Response;
  sent : list Request;
  fs : gmap Path Node;
  ext : ExtractorAttrs;
  con : ConstructorAttrs;
}.

Definition set_sent (l : list Request) (s : State) : State :=
  mkState (http s) l (fs s) (ext s) (con s).
Definition set_fs (m : gmap Path Node) (s : State) : State :=
  mkState (http s) (sent s) m (ext s) (con s).
Definition set_ext (x : ExtractorAttrs) (s : State) : State :=
  mkState (http s) (sent s) (fs s) x (con s).
Definition set_con (x : ConstructorAttrs) (s : State) : State :=
  mkState (http s) (sent s) (fs s) (ext s) x.

(** ** The monad of the script: state and exceptions *)

Definition M (A : Type) : Type := State -> Result A * State.

Global Instance M_ret : MRet M := fun A a s => (Ok a, s).

Global Instance M_bind : MBind M := fun A B f m s =>
  match m s with
  | (Ok a, s') => f a s'
  | (Raise e, s') => (Raise e, s')
  | (Timeout, s') => (Timeout, s')
  end.

Definition raise {A} (e : exn) : M A := fun s => (Raise e, s).
Definition timeout {A} : M A := fun s => (Timeout, s).
Definition lift {A} (r : Result A) : M A := fun s => (r, s).

(** ** Subscripting and iterating parsed JSON *)

Fixpoint assoc (k : str) (kvs : list (str * JSON)) : option JSON :=
  match kvs with
  | [] => None
  | (k', v) :: kvs' => if decide (k' = k) then Some v else assoc k kvs'
  end.

(** [j[k]] for a string [k]: only a [dict] can be subscripted by a string. *)
Definition getitem (j : JSON) (k : str) : Result JSON :=
  match j with
  | JObj kvs =>
      match assoc k kvs with
      | Some v => Ok v
      | None => Raise (KeyError (JStr k))
      end
  | _ => Raise TypeError
  end.

(** [iter(j)]: a list gives its elements, a string its characters, a
    dictionary its keys. *)
Definition iter (j : JSON) : Result (list JSON) :=
  match j with
  | JList l => Ok l
  | JStr s => Ok (List.map (fun c => JStr [c]) s)
  | JObj kvs => Ok (List.map (fun kv => JStr (fst kv)) kvs)
  | _ => Raise TypeError
  end.

(** The record of the model holds strings where [Post] declares [str].
    Python does not check the declaration, so a value of another type
    would enter the record there; such records are outside the model,
    which stops with [TypeError] at this point. *)
Definition as_str (j : JSON) : Result str :=
  match j with
  | JStr s => Ok s
  | _ => Raise TypeError
  end.

(** [cache[i]] on a reference cache *)
Definition cache_lookup (cache : gmap Key JSON) (i : JSON) : Result JSON :=
  match key_of i with
  | Ok k =>
      match cache !! k with
      | Some x => Ok x
      | None => Raise (KeyError i)
      end
  | Raise e => Raise e
  | Timeout => Timeout
  end.

(** ** The extractor *)

Module Extractor.

Definition BASE_HEADERS : gmap str str :=
  {[ py "User-Agent" :=
       py "Mozilla/5.0 (X11; Linux x86_64; rv:83.0) Gecko/20100101 Firefox/83.0" ]}.

(** [requests.get(url=url, params=params, headers=full_headers)]: the
    caller's headers override the base ones. *)
Definition get (url : str) (params : gmap str ParamValue)
    (headers : gmap str str) : M Response := fun s =>
  let full_headers := headers ∪ BASE_HEADERS in
  let req := mkRequest url params full_headers in
  let s' := set_sent (sent s ++ [req]) s in
  match http s (sent s) req with
  | Some r => (Ok r, s')
  | None => (Raise RequestException, s')
  end.

Definition default_base_params : gmap str ParamValue :=
  {[ py "per_page" := PInt 100;
     py "order" := PStr (py "asc");
     py "orderby" := PStr (py "id") ]}.

(** The generator object that [pageWhileList] returns.  It is suspended
    either before its first statement ([Fresh]), or at the [yield from]
    of page [page] with [rest] still to deliver, or it has returned. *)
Inductive frame :=
| Fresh
| InPage (page : Z) (rest : list JSON)
| Finished.

Record generator := mkGenerator {
  g_url : str;
  g_base_params : gmap str ParamValue;
  g_frame : frame;
}.

Definition pageWhileList (url : str) (base_params : gmap str ParamValue)
  : generator := mkGenerator url base_params Fresh.

Definition resume (g : generator) (f : frame) : generator :=
  mkGenerator (g_url g) (g_base_params g) f.

(** The loop test at page number [page], and the first [yield] of the
    body when it holds. *)
Definition while_test (g : generator) (page : Z)
  : M (option JSON * generator) :=
  r ← get (g_url g) {[ py "page" := PInt page ]} ∅;
  items ← lift (json r);
  match items with
  | JList (x :: rest) => mret (Some x, resume g (InPage page rest))
  | _ => mret (None, resume g Finished)
  end.

(** [next(g)]: [None] stands for [StopIteration]. *)
Definition next (g : generator) : M (option JSON * generator) :=
  match g_frame g with
  | Fresh => while_test g 1
  | InPage page (x :: rest) => mret (Some x, resume g (InPage page rest))
  | InPage page [] => while_test g (page + 1)
  | Finished => mret (None, g)
  end.

(** [list(g)] *)
Fixpoint to_list (fuel : nat) (g : generator) : M (list JSON) :=
  match fuel with
  | O => timeout
  | S fuel' =>
      '(o, g') ← next g;
      match o with
      | None => mret []
      | Some x => xs ← to_list fuel' g'; mret (x :: xs)
      end
  end.

(** [{x["id"]: x for x in g}] *)
Fixpoint dict_by_id (fuel : nat) (g : generator) (acc : gmap Key JSON)
  : M (gmap Key JSON) :=
  match fuel with
  | O => timeout
  | S fuel' =>
      '(o, g') ← next g;
      match o with
      | None => mret acc
      | Some x =>
          i ← lift (getitem x (py "id"));
          k ← lift (key_of i);
          dict_by_id fuel' g' (<[k := x]> acc)
      end
  end.

Definition categories_url (base : str) : str :=
  base ++ py "/wp-json/wp/v2/categories".
Definition tags_url (base : str) : str := base ++ py "/wp-json/wp/v2/tags".
Definition posts_url (base : str) : str := base ++ py "/wp-json/wp/v2/posts".

Definition store_categories (val : gmap Key JSON) : M unit := fun s =>
  (Ok (), set_ext (mkExtractor (base_url (ext s)) (Some val)
                     (cached_tags (ext s)) (cached_posts (ext s))) s).

Definition store_tags (val : gmap Key JSON) : M unit := fun s =>
  (Ok (), set_ext (mkExtractor (base_url (ext s)) (cached_categories (ext s))
                     (Some val) (cached_posts (ext s))) s).

Definition store_posts (val : list Post.t) : M unit := fun s =>
  (Ok (), set_ext (mkExtractor (base_url (ext s)) (cached_categories (ext s))
                     (cached_tags (ext s)) (Some val)) s).

(** The cached property [categories]: the stored value if there is one,
    otherwise the paginated fetch, whose result is stored. *)
Definition categories (fuel : nat) : M (gmap Key JSON) := fun s =>
  match cached_categories (ext s) with
  | Some val => (Ok val, s)
  | None =>
      (val ← dict_by_id fuel
               (pageWhileList (categories_url (base_url (ext s)))
                              default_base_params) ∅;
       store_categories val;; mret val) s
  end.

Definition tags (fuel : nat) : M (gmap Key JSON) := fun s =>
  match cached_tags (ext s) with
  | Some val => (Ok val, s)
  | None =>
      (val ← dict_by_id fuel
               (pageWhileList (tags_url (base_url (ext s)))
                              default_base_params) ∅;
       store_tags val;; mret val) s
  end.

(** [list(map(lambda i: cache[i]["name"], ids))], where [cache] is the
    property access evaluated by every call of the lambda. *)
Fixpoint resolve_names (cache : M (gmap Key JSON)) (ids : list JSON)
  : M (list str) :=
  match ids with
  | [] => mret []
  | i :: ids' =>
      c ← cache;
      x ← lift (cache_lookup c i);
      n ← lift (getitem x (py "name"));
      name ← lift (as_str n);
      names ← resolve_names cache ids';
      mret (name :: names)
  end.

Section Normalize.
Context `{!HtmlEntities}.

(** [pytz.UTC.localize(datetime.fromisoformat(data[field]))] *)
Definition utc_field (data : JSON) (field : str) : Result datetime :=
  match getitem data field with
  | Ok v =>
      match as_str v with
      | Ok text =>
          match fromisoformat text with
          | Ok dt => localize dt
          | Raise e => Raise e
          | Timeout => Timeout
          end
      | Raise e => Raise e
      | Timeout => Timeout
      end
  | Raise e => Raise e
  | Timeout => Timeout
  end.

(** [unescape(data[field]["rendered"])] *)
Definition rendered_field (data : JSON) (field : str) : Result str :=
  match getitem data field with
  | Ok v =>
      match getitem v (py "rendered") with
      | Ok r =>
          match as_str r with
          | Ok text => Ok (unescape text)
          | Raise e => Raise e
          | Timeout => Timeout
          end
      | Raise e => Raise e
      | Timeout => Timeout
      end
  | Raise e => Raise e
  | Timeout => Timeout
  end.

(** [data[field]] as the iterable that [map] walks *)
Definition id_list (data : JSON) (field : str) : Result (list JSON) :=
  match getitem data field with
  | Ok v => iter v
  | Raise e => Raise e
  | Timeout => Timeout
  end.

(** The keyword arguments of [Post(...)] are evaluated in the order
    in which the source writes them. *)
Definition enhance_post (fuel : nat) (data : JSON) : M Post.t :=
  published ← lift (utc_field data (py "date_gmt"));
  modified ← lift (utc_field data (py "modified_gmt"));
  title ← lift (rendered_field data (py "title"));
  slug ← lift (match getitem data (py "slug") with
               | Ok v => as_str v
               | Raise e => Raise e
               | Timeout => Timeout
               end);
  let aliases := [] in
  category_ids ← lift (id_list data (py "categories"));
  categories ← resolve_names (categories fuel) category_ids;
  tag_ids ← lift (id_list data (py "tags"));
  tags ← resolve_names (tags fuel) tag_ids;
  content ← lift (rendered_field data (py "content"));
  summary ← lift (rendered_field data (py "excerpt"));
  mret (Post.mk published modified title slug content summary
                aliases categories tags []).

(** [get_posts] returns [map(self.enhance_post, g)] for the generator
    [g] of the posts endpoint. *)
Definition get_posts : M generator := fun s =>
  (Ok (pageWhileList (posts_url (base_url (ext s))) default_base_params), s).

(** [next] on that [map] object *)
Definition next_post (fuel : nat) (g : generator)
  : M (option Post.t * generator) :=
  '(o, g') ← next g;
  match o with
  | None => mret (None, g')
  | Some data => post ← enhance_post fuel data; mret (Some post, g')
  end.

(** [list(it)] for such a [map] object *)
Fixpoint posts_to_list (fuel : nat) (g : generator) : M (list Post.t) :=
  match fuel with
  | O => timeout
  | S fuel' =>
      '(o, g') ← next_post fuel' g;
      match o with
      | None => mret []
      | Some post => rest ← posts_to_list fuel' g'; mret (post :: rest)
      end
  end.

(** The cached property [posts] *)
Definition posts (fuel : nat) : M (list Post.t) := fun s =>
  match cached_posts (ext s) with
  | Some val => (Ok val, s)
  | None =>
      (g ← get_posts;
       val ← posts_to_list fuel g;
       store_posts val;; mret val) s
  end.
End Normalize.

End Extractor.

(** ** Paths and the filesystem *)

(** [s.split(c)] *)
Fixpoint split_on (c : N) (s : str) : list str :=
  match s with
  | [] => [[]]
  | x :: s' =>
      if (x =? c)%N then [] :: split_on c s'
      else match split_on c s' with
           | w :: ws => (x :: w) :: ws
           | [] => [[x]]
           end
  end.

Fixpoint leading_slashes (s : str) : nat :=
  match s with
  | x :: s' => if (x =? 47)%N then S (leading_slashes s') else O
  | [] => O
  end.

(** [PurePosixPath(s)]: the root is kept apart, empty components and
    single dots are dropped. *)
Definition parse_path (s : str) : Path :=
  let root := match leading_slashes s with
              | O => O
              | 2%nat => 2%nat
              | _ => 1%nat
              end in
  mkPath root
    (List.filter (fun x => negb (bool_decide (x = []) || bool_decide (x = [46%N])))
                 (split_on 47%N s)).

(** [p / s]: a rooted operand replaces the path. *)
Definition truediv (p : Path) (s : str) : Path :=
  let q := parse_path s in
  match p_root q with
  | O => mkPath (p_root p) (p_parts p ++ p_parts q)
  | _ => q
  end.

Definition parent (p : Path) : Path :=
  mkPath (p_root p) (removelast (p_parts p)).

(** The node that a path names.  The root and the current directory
    (a path without components) are directories.  The model has no
    links, and it reads a path by its components alone: the component
    [..] is a name like any other here, so that what is said about the
    file that a path names is said for paths without it. *)
Definition node_at (m : gmap Path Node) (p : Path) : option Node :=
  match p_parts p with
  | [] => Some Dir
  | _ => m !! p
  end.

Definition is_dir (m : gmap Path Node) (p : Path) : bool :=
  match node_at m p with
  | Some Dir => true
  | _ => false
  end.

(** [os.mkdir(p)].  The filesystem of the model has no permissions and
    no limits, and it takes every name as it is written: what is said
    about directories that get made is said for the names that a system
    call accepts as written ([plain_name] below). *)
Definition os_mkdir (p : Path) : M unit := fun s =>
  match node_at (fs s) (parent p), node_at (fs s) p with
  | None, _ => (Raise (FileNotFoundError p), s)
  | Some (File _), _ => (Raise (NotADirectoryError p), s)
  | Some Dir, Some _ => (Raise (FileExistsError p), s)
  | Some Dir, None => (Ok (), set_fs (<[p := Dir]> (fs s)) s)
  end.

(** [p.mkdir(parents=False, exist_ok=True)] *)
Definition mkdir_exist_ok (p : Path) : M unit := fun s =>
  match os_mkdir p s with
  | (Raise (FileNotFoundError q), s') => (Raise (FileNotFoundError q), s')
  | (Raise e, s') => if is_dir (fs s') p then (Ok (), s') else (Raise e, s')
  | r => r
  end.

(** [p.mkdir(parents=True, exist_ok=True)], by recursion on the components
    of [p], last one first: when a parent is missing it is created by the
    same call on [p.parent]. *)
Fixpoint mkdir_parents (root : nat) (rparts : list str) : M unit := fun s =>
  let p := mkPath root (rev rparts) in
  match os_mkdir p s with
  | (Raise (FileNotFoundError q), s') =>
      match rparts with
      | [] => (Raise (FileNotFoundError q), s')
      | _ :: rparts' =>
          (mkdir_parents root rparts';; mkdir_exist_ok p) s'
      end
  | (Raise e, s') => if is_dir (fs s') p then (Ok (), s') else (Raise e, s')
  | r => r
  end.

Definition mkdir (p : Path) : M unit :=
  mkdir_parents (p_root p) (rev (p_parts p)).

(** A surrogate: a code point that has no encoding in UTF-8. *)
Definition surrogate (c : N) : bool := ((0xD800 <=? c) && (c <=? 0xDFFF))%N.

(** [p.write_text(data)]: the file is opened for writing, which creates
    or truncates it; the text is then encoded and written.  The encoding
    is the one of the locale, taken to be UTF-8: a text that holds a
    surrogate cannot be encoded, and the failure leaves the file that has
    just been opened empty. *)
Definition write_text (p : Path) (data : str) : M unit := fun s =>
  match node_at (fs s) (parent p), node_at (fs s) p with
  | None, _ => (Raise (FileNotFoundError p), s)
  | Some (File _), _ => (Raise (NotADirectoryError p), s)
  | Some Dir, Some Dir => (Raise (IsADirectoryError p), s)
  | Some Dir, _ =>
      if existsb surrogate data
      then (Raise UnicodeEncodeError, set_fs (<[p := File []]> (fs s)) s)
      else (Ok (), set_fs (<[p := File data]> (fs s)) s)
  end.

(** ** The file writer *)

Module Constructor.

Definition store_posts_directory (val : Path) : M unit := fun s =>
  (Ok (), set_con (mkConstructor (base_path (con s)) (Some val)) s).

(** The cached property [posts_directory] *)
Definition posts_directory : M Path := fun s =>
  match cached_posts_directory (con s) with
  | Some path => (Ok path, s)
  | None =>
      let path := truediv (truediv (base_path (con s)) (py "content"))
                          (py "posts") in
      (mkdir path;; store_posts_directory path;; mret path) s
  end.

Definition add_post (post : Post.t) : M unit :=
  dir ← posts_directory;
  let path := truediv dir (Post.slug post) in
  mkdir path;;
  write_text (truediv path (py "index.md")) (Post.md post).

End Constructor.

(** ** The entry point *)

Section Main.
Context `{!HtmlEntities}.

(** [for post in e.get_posts(): c.add_post(post)] *)
Fixpoint main_loop (fuel : nat) (g : Extractor.generator) : M unit :=
  match fuel with
  | O => timeout
  | S fuel' =>
      '(o, g') ← Extractor.next_post fuel' g;
      match o with
      | None => mret ()
      | Some post => Constructor.add_post post;; main_loop fuel' g'
      end
  end.

Definition main (fuel : nat) : M unit :=
  g ← Extractor.get_posts;
  main_loop fuel g.

(** The state in which [main] starts: [e = Extractor(base_url=...)] and
    [c = Constructor(base_path=...)], nothing sent, nothing cached. *)
Definition initial (server : list Request -> Request -> option Response)
    (disk : gmap Path Node) (url : str) (target_dir : str) : State :=
  mkState server [] disk
          (mkExtractor url None None None)
          (mkConstructor (parse_path target_dir) None).
End Main.


(** ** Vocabulary of the properties *)

(** The number that a string of decimal digits denotes when the digits
    read so far denote [acc]. *)
Fixpoint uint_value (acc : N) (u : Decimal.uint) : N :=
  match u with
  | Decimal.Nil => acc
  | Decimal.D0 u => uint_value (10 * acc) u
  | Decimal.D1 u => uint_value (10 * acc + 1) u
  | Decimal.D2 u => uint_value (10 * acc + 2) u
  | Decimal.D3 u => uint_value (10 * acc + 3) u
  | Decimal.D4 u => uint_value (10 * acc + 4) u
  | Decimal.D5 u => uint_value (10 * acc + 5) u
  | Decimal.D6 u => uint_value (10 * acc + 6) u
  | Decimal.D7 u => uint_value (10 * acc + 7) u
  | Decimal.D8 u => uint_value (10 * acc + 8) u
  | Decimal.D9 u => uint_value (10 * acc + 9) u
  end%N.


(** The request that the paginated fetcher sends for page [page]. *)
Definition page_request (url : str) (page : Z) : Request :=
  mkRequest url {[ py "page" := PInt page ]} Extractor.BASE_HEADERS.

(** The requests for [count] successive pages, the first numbered [first]. *)
Definition page_requests (url : str) (first : Z) (count : nat) : list Request :=
  List.map (fun i => page_request url (first + Z.of_nat i)) (seq 0 count).

(** The requests of a log that went to [url]. *)
Definition requests_to (url : str) (log : list Request) : list Request :=
  List.filter (fun r => bool_decide (req_url r = url)) log.

(** A body that ends the pagination: an empty list, or no list at all. *)
Definition end_of_data (j : JSON) : Prop :=
  j = JList [] ∨ ∀ l, j ≠ JList l.

(** Printable ASCII: the characters from the space to the tilde. *)
Definition printable (c : N) : Prop := (32 <= c <= 126)%N.

(** One entry ["key": value] of a serialized object. *)
Definition entry (key : string) (value : str) : str :=
  34%N :: py key ++ 34%N :: py ": " ++ value.

(** *** JSON texts

    The text of a string, an array and an object in the JSON format
    (RFC 8259), for a writer that keeps to ASCII. *)

(** The lower-case hexadecimal digit of value [d]. *)
Definition hex_digit (d : N) : N := (if d <? 10 then 48 + d else 87 + d)%N.

(** The values of the hexadecimal digits. *)
Definition hex_range : list N := [0; 1; 2; 3; 4; 5; 6; 7; 8; 9; 10; 11; 12; 13; 14; 15]%N.

(** [\uXXXX] for the 16-bit code unit [u] *)
Definition json_unit (u : N) : str :=
  [92; 117; hex_digit (u / 4096 mod 16); hex_digit (u / 256 mod 16);
   hex_digit (u / 16 mod 16); hex_digit (u mod 16)]%N.

(** A character inside a string: quotation mark and reverse solidus are
    escaped by a reverse solidus; backspace, form feed, line feed,
    carriage return and tab have their two-character escape; any other
    printable ASCII character stands for itself; any other code point of
    the basic plane is written [\uXXXX]; a code point above it is written
    as its UTF-16 surrogate pair, the upper and the lower ten bits of
    its offset from [0x10000]. *)
Definition json_char (c : N) : str :=
  (if c =? 34 then [92; 34]
   else if c =? 92 then [92; 92]
   else if c =? 8 then [92; 98]
   else if c =? 12 then [92; 102]
   else if c =? 10 then [92; 110]
   else if c =? 13 then [92; 114]
   else if c =? 9 then [92; 116]
   else if (32 <=? c) && (c <=? 126) then [c]
   else if c <? 0x10000 then json_unit c
   else json_unit (0xD800 + (c - 0x10000) / 0x400 mod 0x400)
        ++ json_unit (0xDC00 + (c - 0x10000) mod 0x400))%N.

Definition json_string (s : str) : str :=
  [34%N] ++ flat_map json_char s ++ [34%N].

Definition json_array (items : list str) : str :=
  [91%N] ++ join (py ", ") items ++ [93%N].

Definition json_object (members : list str) : str :=
  [123%N] ++ join (py ", ") members ++ [125%N].

(** A literal in which the apostrophe stands for the quotation mark and
    the vertical bar for the line feed. *)
Definition lit (s : string) : str :=
  List.map (fun c => if (c =? 39)%N then 34%N
                     else if (c =? 124)%N then 10%N else c) (py s).

(** A path with at least one component, and the paths of its leading
    components, longest first; [rparts] lists the components last one
    first. *)
Fixpoint ancestry (root : nat) (rparts : list str) : list Path :=
  match rparts with
  | [] => []
  | _ :: rparts' => mkPath root (rev rparts) :: ancestry root rparts'
  end.

(** The directories that [p.mkdir(parents=True)] is about: [p] and every
    directory above it, up to the root or the current directory. *)
Definition dirs_of (p : Path) : list Path :=
  ancestry (p_root p) (rev (p_parts p)).

(** A filesystem state is well formed when every entry lies in a
    directory. *)
Definition wf_fs (m : gmap Path Node) : Prop :=
  ∀ p n, m !! p = Some n → node_at m (parent p) = Some Dir.

(** No regular file stands where [p] or a directory above it should be. *)
Definition unobstructed (m : gmap Path Node) (p : Path) : Prop :=
  ∀ q, q ∈ dirs_of p → ∀ c, m !! q ≠ Some (File c).

(** A path without the component [..]: its components are the names of
    the directories that lead to its file, and two such paths from the
    same root name the same file only when they are equal. *)
Definition direct (p : Path) : Prop := py ".." ∉ p_parts p.

(** A single path component: not empty, not a dot, without a slash. *)
Definition valid_segment (s : str) : Prop :=
  s ≠ [] ∧ s ≠ [46%N] ∧ 47%N ∉ s.

(** An operation respects a pair of relations on states when a normal
    return relates the states before and after it by [Rok] and returns a
    value that satisfies [Q], and any other outcome relates them by
    [Rerr]. *)
Definition respects (Rok Rerr : State → State → Prop) {A : Type}
    (Q : A → Prop) (m : M A) : Prop :=
  ∀ s, match m s with
       | (Ok a, s') => Rok s s' ∧ Q a
       | (_, s') => Rerr s s'
       end.

Definition any {A : Type} : A → Prop := fun _ => True.

(** The values that the normalizer reads from a raw post record. *)
Record RawPost := mkRawPost {
  raw_date_gmt : str;
  raw_modified_gmt : str;
  raw_title : str;
  raw_slug : str;
  raw_categories : list JSON;
  raw_tags : list JSON;
  raw_content : str;
  raw_excerpt : str;
}.

(** [data[field]["rendered"]] is the string [text]. *)
Definition has_rendered (data : JSON) (field : str) (text : str) : Prop :=
  ∃ v, getitem data field = Ok v ∧ getitem v (py "rendered") = Ok (JStr text).

(** The record [data] carries the fields of [r]. *)
Definition has_fields (data : JSON) (r : RawPost) : Prop :=
  getitem data (py "date_gmt") = Ok (JStr (raw_date_gmt r))
  ∧ getitem data (py "modified_gmt") = Ok (JStr (raw_modified_gmt r))
  ∧ has_rendered data (py "title") (raw_title r)
  ∧ getitem data (py "slug") = Ok (JStr (raw_slug r))
  ∧ getitem data (py "categories") = Ok (JList (raw_categories r))
  ∧ getitem data (py "tags") = Ok (JList (raw_tags r))
  ∧ has_rendered data (py "content") (raw_content r)
  ∧ has_rendered data (py "excerpt") (raw_excerpt r).

(** The ID [i] is a key of [cache] and its record is named [name]. *)
Definition name_in (cache : gmap Key JSON) (i : JSON) (name : str) : Prop :=
  ∃ k x, key_of i = Ok k ∧ cache !! k = Some x
         ∧ getitem x (py "name") = Ok (JStr name).

(** The ID [i] is hashable and no key of [cache]. *)
Definition absent_from (cache : gmap Key JSON) (i : JSON) : Prop :=
  ∃ k, key_of i = Ok k ∧ cache !! k = None.

(** The IDs [ids] resolve to [names] through the cached property [acc],
    which takes the state from [s] to [s']: a record without IDs does not
    touch the property; otherwise the property yields a cache, fetching
    it if this is its first use, and every ID has its name there. *)
Definition resolves_through (acc : M (gmap Key JSON)) (ids : list JSON)
    (names : list str) (s s' : State) : Prop :=
  match ids with
  | [] => names = [] ∧ s' = s
  | _ => ∃ cache, acc s = (Ok cache, s') ∧ Forall2 (name_in cache) ids names
  end.

(** [text] is an ISO timestamp without offset, read as [dt]. *)
Definition naive_iso (text : str) (dt : datetime) : Prop :=
  fromisoformat text = Ok dt ∧ tzinfo dt = None.

(** [dt] tagged with UTC. *)
Definition as_utc (dt : datetime) : datetime :=
  mkDatetime (year dt) (month dt) (day dt)
             (hour dt) (minute dt) (second dt) (microsecond dt) UTC.

(** Nothing is lost between two filesystem states: a directory is still
    a directory, a regular file is still a regular file. *)
Definition fs_extends (m m' : gmap Path Node) : Prop :=
  ∀ q n, m !! q = Some n →
         match n with
         | Dir => m' !! q = Some Dir
         | File _ => ∃ c, m' !! q = Some (File c)
         end.

Definition keeps_files (s s' : State) : Prop := fs_extends (fs s) (fs s').

(** Every entry of the filesystem of [s] is the same in [s']. *)
Definition keeps_entries (s s' : State) : Prop :=
  ∀ q n, fs s !! q = Some n → fs s' !! q = Some n.

(** Only the filesystem differs between [s] and [s'], and every entry of
    [s] is an entry of [s']. *)
Definition fs_grows (s s' : State) : Prop :=
  s' = set_fs (fs s') s ∧ ∀ q n, fs s !! q = Some n → fs s' !! q = Some n.

(** The directory of the posts as the file writer sees it in state [s]. *)
Definition posts_dir (s : State) : Path :=
  match cached_posts_directory (con s) with
  | Some d => d
  | None => truediv (truediv (base_path (con s)) (py "content")) (py "posts")
  end.

(** The file that [add_post] writes for [post] in state [s]. *)
Definition index_path (s : State) (post : Post.t) : Path :=
  truediv (truediv (posts_dir s) (Post.slug post)) (py "index.md").

(** The slot of the cached property [posts_directory] is empty or holds
    the path that the property computes. *)
Definition con_consistent (s : State) : Prop :=
  ∀ d, cached_posts_directory (con s) = Some d →
       d = truediv (truediv (base_path (con s)) (py "content")) (py "posts").

(** [<base>/content/posts/<slug>] and the file [index.md] in it. *)
Definition post_dir (base : Path) (slug : str) : Path :=
  mkPath (p_root base) (p_parts base ++ [py "content"; py "posts"; slug]).

Definition post_index (base : Path) (slug : str) : Path :=
  mkPath (p_root base)
         (p_parts base ++ [py "content"; py "posts"; slug; py "index.md"]).

(** The record [r] references an ID [i] that its cache lacks: either a
    category ID, met when the category cache has been obtained and the IDs
    before [i] have been resolved, or a tag ID, met after all categories
    have been resolved.  [s] is the state before the normalization and
    [s'] the state in which the lookup fails. *)
Definition missing_reference (fuel : nat) (r : RawPost) (i : JSON)
    (s s' : State) : Prop :=
  (∃ cache before after names,
     raw_categories r = before ++ i :: after
     ∧ Extractor.categories fuel s = (Ok cache, s')
     ∧ Forall2 (name_in cache) before names
     ∧ absent_from cache i)
  ∨ (∃ cnames mid cache before after names,
       resolves_through (Extractor.categories fuel) (raw_categories r) cnames s mid
       ∧ raw_tags r = before ++ i :: after
       ∧ Extractor.tags fuel mid = (Ok cache, s')
       ∧ Forall2 (name_in cache) before names
       ∧ absent_from cache i).

(** The operations in between leave the output side alone. *)
Definition same_files (s s' : State) : Prop :=
  fs s' = fs s ∧ con s' = con s.

(** A cache that has been built stays what it is. *)
Definition keeps_caches (s s' : State) : Prop :=
  (∀ c, cached_categories (ext s) = Some c → cached_categories (ext s') = Some c)
  ∧ (∀ c, cached_tags (ext s) = Some c → cached_tags (ext s') = Some c).

(** The requests that a log holds for [url] are those of one paginated
    fetch: pages 1, 2, ... in order, each once (none at all if the fetch
    never started). *)
Definition fetched_once (url : str) (log : list Request) : Prop :=
  ∃ k, requests_to url log = page_requests url 1 k.

(** The invariant behind [fetched_once] for the cache kept in [slot] and
    fetched from [endpoint]: as long as the slot is empty nothing has been
    requested from the endpoint, and once it is filled one fetch has. *)
Definition fetch_inv (slot : ExtractorAttrs → option (gmap Key JSON))
    (endpoint : str → str) (b : str) (s : State) : Prop :=
  base_url (ext s) = b
  ∧ match slot (ext s) with
    | None => requests_to (endpoint b) (sent s) = []
    | Some _ => fetched_once (endpoint b) (sent s)
    end.

(** The page that a generator requests when it is resumed and has
    nothing left to deliver. *)
Definition next_page (f : Extractor.frame) : Z :=
  match f with
  | Extractor.Fresh => 1
  | Extractor.InPage page _ => page + 1
  | Extractor.Finished => 0
  end.

Definition fetch_ok (slot : ExtractorAttrs → option (gmap Key JSON))
    (endpoint : str → str) (b : str) (s s' : State) : Prop :=
  fetch_inv slot endpoint b s → fetch_inv slot endpoint b s'.

Definition fetch_err (slot : ExtractorAttrs → option (gmap Key JSON))
    (endpoint : str → str) (b : str) (s s' : State) : Prop :=
  fetch_inv slot endpoint b s → fetched_once (endpoint b) (sent s').

(** *** Further vocabulary *)

(** [for post in ps: c.add_post(post)]: the file writer applied to the
    posts of a list, in order. *)
Fixpoint add_posts (ps : list Post.t) : M unit :=
  match ps with
  | [] => mret ()
  | post :: ps' => Constructor.add_post post;; add_posts ps'
  end.

(** The state that has the output side (filesystem and file writer) of
    [t] and the input side (remote side, request log, extractor) of [s]. *)
Definition with_files (t s : State) : State :=
  mkState (http s) (sent s) (fs t) (ext s) (con t).

(** An operation of the input side: it neither reads nor changes the
    output side. *)
Definition net_op {A : Type} (m : M A) : Prop :=
  ∀ s t, m (with_files t s) = (fst (m s), with_files t (snd (m s))).

(** An operation of the output side. *)
Definition file_op {A : Type} (m : M A) : Prop :=
  ∀ s t, m (with_files s t) = (fst (m s), with_files (snd (m s)) t).

(** How a loop over the stream of posts ends when the stream ends as [r]. *)
Definition loop_outcome {A : Type} (r : Result A) : Result unit :=
  match r with
  | Ok _ => Ok ()
  | Raise e => Raise e
  | Timeout => Timeout
  end.

Section Stream.
Context `{!HtmlEntities}.

(** The posts that the stream [map(self.enhance_post, g)] delivers from
    state [s] on before it ends or fails. *)
Fixpoint yielded (fuel : nat) (g : Extractor.generator) (s : State)
  : list Post.t :=
  match fuel with
  | O => []
  | S fuel' =>
      match Extractor.next_post fuel' g s with
      | (Ok (Some post, g'), s') => post :: yielded fuel' g' s'
      | _ => []
      end
  end.
End Stream.

(** The exception that a failed page request ends in: [requests.get]
    raises, or the body of the answer is no JSON document. *)
Definition failure_of (answer : option Response) : exn :=
  match answer with
  | None => RequestException
  | Some _ => ValueError
  end.

(** The key under which the dictionary comprehension of the reference
    caches files a record: its [id], when it has one that can be a key. *)
Definition id_key (x : JSON) : option Key :=
  match getitem x (py "id") with
  | Ok i =>
      match key_of i with
      | Ok k => Some k
      | _ => None
      end
  | _ => None
  end.

(** The exception of [x["id"]] as a dictionary key when [x] has no such
    key: [KeyError] or [TypeError] from the subscript, [TypeError] for an
    [id] that cannot be hashed. *)
Definition id_error (x : JSON) : exn :=
  match getitem x (py "id") with
  | Raise e => e
  | _ => TypeError
  end.

(** The dictionary with the records [xs] filed under their keys one
    after the other, a later record replacing an earlier one that has
    the same key. *)
Definition index_by_id (xs : list JSON) (acc : gmap Key JSON) : gmap Key JSON :=
  fold_left (fun acc x => match id_key x with
                          | Some k => <[k := x]> acc
                          | None => acc
                          end) xs acc.

(** A request of the script to the site [b]: for a page, from 1 on, of
    the posts, the categories or the tags. *)
Definition script_request (b : str) (r : Request) : Prop :=
  ∃ page, 1 <= page
          ∧ (r = page_request (Extractor.posts_url b) page
             ∨ r = page_request (Extractor.categories_url b) page
             ∨ r = page_request (Extractor.tags_url b) page).

(** From [s] to [s'] the extractor of the site [b] has sent requests of
    the script only. *)
Definition sends_for (b : str) (s s' : State) : Prop :=
  base_url (ext s) = b →
  base_url (ext s') = b
  ∧ ∃ l, sent s' = sent s ++ l ∧ Forall (script_request b) l.

(** From [s] to [s'] nothing has been sent to the posts endpoint. *)
Definition posts_untouched (b : str) (s s' : State) : Prop :=
  base_url (ext s) = b →
  base_url (ext s') = b
  ∧ requests_to (Extractor.posts_url b) (sent s')
    = requests_to (Extractor.posts_url b) (sent s).

(** The generator [g] of the posts has requested the pages that the log
    of [s] holds for the posts endpoint: the pages before the one it
    asks for next. *)
Definition posts_fetch_inv (b : str) (g : Extractor.generator) (s : State)
  : Prop :=
  base_url (ext s) = b
  ∧ Extractor.g_url g = Extractor.posts_url b
  ∧ ∃ k : nat,
      requests_to (Extractor.posts_url b) (sent s)
      = page_requests (Extractor.posts_url b) 1 k
      ∧ (Extractor.g_frame g = Extractor.Finished
         ∨ next_page (Extractor.g_frame g) = 1 + Z.of_nat k).

(** The number that a string of hexadecimal digits denotes when the
    digits read so far denote [acc]. *)
Fixpoint hex_uint_value (acc : N) (u : Hexadecimal.uint) : N :=
  match u with
  | Hexadecimal.Nil => acc
  | Hexadecimal.D0 u => hex_uint_value (16 * acc) u
  | Hexadecimal.D1 u => hex_uint_value (16 * acc + 1) u
  | Hexadecimal.D2 u => hex_uint_value (16 * acc + 2) u
  | Hexadecimal.D3 u => hex_uint_value (16 * acc + 3) u
  | Hexadecimal.D4 u => hex_uint_value (16 * acc + 4) u
  | Hexadecimal.D5 u => hex_uint_value (16 * acc + 5) u
  | Hexadecimal.D6 u => hex_uint_value (16 * acc + 6) u
  | Hexadecimal.D7 u => hex_uint_value (16 * acc + 7) u
  | Hexadecimal.D8 u => hex_uint_value (16 * acc + 8) u
  | Hexadecimal.D9 u => hex_uint_value (16 * acc + 9) u
  | Hexadecimal.Da u => hex_uint_value (16 * acc + 10) u
  | Hexadecimal.Db u => hex_uint_value (16 * acc + 11) u
  | Hexadecimal.Dc u => hex_uint_value (16 * acc + 12) u
  | Hexadecimal.Dd u => hex_uint_value (16 * acc + 13) u
  | Hexadecimal.De u => hex_uint_value (16 * acc + 14) u
  | Hexadecimal.Df u => hex_uint_value (16 * acc + 15) u
  end%N.

(** A Unicode scalar value: a code point that is no surrogate.  A
    Python string can hold surrogates on their own; [json.dumps] writes
    a pair of them like the character above the basic plane that the
    pair encodes. *)
Definition scalar (c : N) : Prop :=
  ((c < 0xD800 ∨ 0xDFFF < c) ∧ c < 0x110000)%N.

Definition text (s : str) : Prop := Forall scalar s.

(** A name that the system takes as it is written: it is not [..],
    which names the directory above; it holds no NUL character, which no
    system call accepts in a name; and it consists of scalar values, so
    that the encoding of file names can write it. *)
Definition plain_name (x : str) : Prop :=
  x ≠ py ".." ∧ (0%N ∉ x) ∧ text x.

(** A path whose components are such names: it names its file by its
    components alone. *)
Definition plain_path (p : Path) : Prop := Forall plain_name (p_parts p).

(** Every string of the post consists of scalar values. *)
Definition post_text (p : Post.t) : Prop :=
  text (Post.title p) ∧ Forall text (Post.categories p)
  ∧ Forall text (Post.tags p) ∧ Forall text (Post.aliases p)
  ∧ text (Post.author p) ∧ text (Post.slug p) ∧ text (Post.summary p).

(** The character behind the second character of a two-character
    escape. *)
Definition short_escape (y : N) : N :=
  (if y =? 98 then 8
   else if y =? 102 then 12
   else if y =? 110 then 10
   else if y =? 114 then 13
   else if y =? 116 then 9
   else y)%N.

(** Reads one character of a string literal back: the character and
    what follows it; there is none at the closing quote. *)
Definition decode_char (s : str) : option (N * str) :=
  match s with
  | [] => None
  | x :: s1 =>
      if (x =? 34)%N then None
      else if (x =? 92)%N then
        match s1 with
        | [] => None
        | y :: s2 =>
            if (y =? 117)%N then
              let v := int_of_digits 16 (take 4 s2) in
              let s3 := drop 4 s2 in
              if ((0xD800 <=? v) && (v <=? 0xDBFF))%N then
                let w := int_of_digits 16 (take 4 (drop 2 s3)) in
                Some ((0x10000 + (v - 0xD800) * 0x400 + (w - 0xDC00))%N,
                      drop 6 s3)
              else Some (v, s3)
            else Some (short_escape y, s2)
        end
      else Some (x, s1)
  end.

(** The server answers the pages [1..N] of [url] with the lists [pages],
    whatever it has been asked before, and the page [N+1] with [last]. *)
Definition serves (server : list Request → Request → option Response)
    (url : str) (pages : list (list JSON)) (last : JSON) : Prop :=
  (∀ pg, pg ∈ pages → pg ≠ [])
  ∧ (∀ h (i : nat) pg,
       pages !! i = Some pg →
       server h (page_request url (Z.of_nat (S i)))
       = Some (mkResponse (Some (JList pg))))
  ∧ (∀ h, server h (page_request url (Z.of_nat (S (length pages))))
          = Some (mkResponse (Some last))).

(** The extractor for the site [b] talks to [server], and a reference
    cache that it has built is the one that the listing gives. *)
Definition serving (server : list Request → Request → option Response)
    (b : str) (ccache tcache : gmap Key JSON) (s : State) : Prop :=
  http s = server ∧ base_url (ext s) = b
  ∧ (cached_categories (ext s) = None ∨ cached_categories (ext s) = Some ccache)
  ∧ (cached_tags (ext s) = None ∨ cached_tags (ext s) = Some tcache).

Section Normalized.
Context `{!HtmlEntities}.

(** [post] is what the normalizer makes of the record [data] when the
    reference caches are [ccache] and [tcache]. *)
Definition normalizes (ccache tcache : gmap Key JSON) (data : JSON)
    (post : Post.t) : Prop :=
  ∃ r d1 d2 cnames tnames,
    has_fields data r
    ∧ naive_iso (raw_date_gmt r) d1 ∧ naive_iso (raw_modified_gmt r) d2
    ∧ Forall2 (name_in ccache) (raw_categories r) cnames
    ∧ Forall2 (name_in tcache) (raw_tags r) tnames
    ∧ post = Post.mk (as_utc d1) (as_utc d2) (unescape (raw_title r))
                     (raw_slug r) (unescape (raw_content r))
                     (unescape (raw_excerpt r)) [] cnames tnames [].
End Normalized.

(** ** A worked example

    A blog with two categories, no tag and two posts, the second of which
    references a category that does not exist. *)

(** An excerpt of the entity table. *)
Definition entities_excerpt : HtmlEntities := {|
  html5 := fun s =>
    if decide (s = py "amp;") then Some (py "&")
    else if decide (s = py "lt;") then Some (py "<")
    else if decide (s = py "gt;") then Some (py ">")
    else None;
  invalid_charrefs := fun _ => None;
  invalid_codepoints := fun _ => false;
|}.

Definition obj (l : list (string * JSON)) : JSON :=
  JObj (List.map (fun kv => (py (fst kv), snd kv)) l).

Definition rendered (text : string) : JSON := obj [("rendered", JStr (py text))].

Definition blog_url : str := py "https://blog.example".

Definition category_news : JSON := obj [("id", JNum 3); ("name", JStr (py "News"))].
Definition category_events : JSON :=
  obj [("id", JNum 7); ("name", JStr (py "Events"))].

Definition raw_hello : JSON :=
  obj [("id", JNum 1);
       ("date_gmt", JStr (py "2020-01-02T03:04:05"));
       ("modified_gmt", JStr (py "2020-02-03T04:05:06"));
       ("slug", JStr (py "hello-world"));
       ("title", rendered "A &amp; B");
       ("content", rendered "<p>Fish &amp; chips</p>");
       ("excerpt", rendered "Fish");
       ("categories", JList [JNum 3; JNum 7]);
       ("tags", JList [])].

Definition raw_broken : JSON :=
  obj [("id", JNum 2);
       ("date_gmt", JStr (py "2020-03-04T05:06:07"));
       ("modified_gmt", JStr (py "2020-03-04T05:06:07"));
       ("slug", JStr (py "second"));
       ("title", rendered "Second");
       ("content", rendered "<p>Later</p>");
       ("excerpt", rendered "Later");
       ("categories", JList [JNum 3; JNum 9]);
       ("tags", JList [])].

Definition fields_hello : RawPost :=
  mkRawPost (py "2020-01-02T03:04:05") (py "2020-02-03T04:05:06")
            (py "A &amp; B") (py "hello-world") [JNum 3; JNum 7] []
            (py "<p>Fish &amp; chips</p>") (py "Fish").

Definition fields_broken : RawPost :=
  mkRawPost (py "2020-03-04T05:06:07") (py "2020-03-04T05:06:07")
            (py "Second") (py "second") [JNum 3; JNum 9] []
            (py "<p>Later</p>") (py "Later").

Definition error_body : JSON :=
  obj [("code", JStr (py "rest_post_invalid_page_number"))].

(** A server that holds a list of pages per URL and answers a page number
    beyond the last one with [last]; it knows no other URL. *)
Fixpoint route (url : str) (routes : list (str * list (list JSON)))
  : option (list (list JSON)) :=
  match routes with
  | [] => None
  | (u, pages) :: routes' => if decide (u = url) then Some pages else route url routes'
  end.

Definition paged_server (routes : list (str * list (list JSON))) (last : JSON)
    (history : list Request) (req : Request) : option Response :=
  match route (req_url req) routes with
  | None => None
  | Some pages =>
      match req_params req !! py "page" with
      | Some (PInt n) =>
          if (1 <=? n) && (n <=? Z.of_nat (length pages))
          then Some (mkResponse (Some (JList (nth (Z.to_nat (n - 1)) pages []))))
          else Some (mkResponse (Some last))
      | _ => Some (mkResponse None)
      end
  end.

Definition blog_pages : list (list JSON) := [[raw_hello; raw_broken]].

Definition blog_server : list Request → Request → option Response :=
  paged_server [(Extractor.posts_url blog_url, blog_pages);
                (Extractor.categories_url blog_url,
                 [[category_news; category_events]]);
                (Extractor.tags_url blog_url, [])]
               error_body.

Definition blog_start : State := initial blog_server ∅ blog_url (py "out").

(** The state once the category cache has been built. *)
Definition blog_with_categories : State :=
  snd (Extractor.categories 5 blog_start).

Definition post_hello : Post.t :=
  Post.mk (mkDatetime 2020 1 2 3 4 5 0 UTC) (mkDatetime 2020 2 3 4 5 6 0 UTC)
          (py "A & B") (py "hello-world") (py "<p>Fish & chips</p>") (py "Fish")
          [] [py "News"; py "Events"] [] [].

(** A post whose title needs every kind of escape (quotation marks, a
    line feed, a letter outside ASCII, a character above the basic plane
    and a reverse solidus) and whose content holds a blank line, a brace
    and quotation marks. *)
Definition post_escapes : Post.t :=
  Post.mk (mkDatetime 2020 1 2 3 4 5 0 UTC) (mkDatetime 2020 2 3 4 5 6 0 UTC)
          (lit "Say 'hi'|" ++ [233; 128512; 92]%N) (py "escapes")
          (lit "first||{'x': 1}") (py "") [] [lit "Q&A"] [] [].

(** The generator of the posts endpoint, fresh and after its first and its
    second element. *)
Definition blog_posts : Extractor.generator :=
  Extractor.pageWhileList (Extractor.posts_url blog_url)
                          Extractor.default_base_params.

Definition blog_posts_1 : Extractor.generator :=
  Extractor.resume blog_posts (Extractor.InPage 1 [raw_broken]).

Definition blog_posts_2 : Extractor.generator :=
  Extractor.resume blog_posts (Extractor.InPage 1 []).

(** The state after the first iteration of the loop: the first post has
    been fetched, normalized and written. *)
Definition blog_after_first : State :=
  snd (Constructor.add_post post_hello
         (snd (@Extractor.next_post entities_excerpt 5 blog_posts blog_start))).

Definition blog_categories : gmap Key JSON :=
  <[KInt 7 := category_events]> (<[KInt 3 := category_news]> ∅).

(** The state after [add_post] of the first post on the empty disk. *)
Definition blog_hello_written : State :=
  snd (Constructor.add_post post_hello blog_start).

(** *** Further states and posts of the example *)

(** The same blog without the second post: every reference resolves. *)
Definition blog_ok_server : list Request → Request → option Response :=
  paged_server [(Extractor.posts_url blog_url, [[raw_hello]]);
                (Extractor.categories_url blog_url,
                 [[category_news; category_events]]);
                (Extractor.tags_url blog_url, [])]
               error_body.

Definition blog_ok_start : State := initial blog_ok_server ∅ blog_url (py "out").

(** A server that answers the first page of the posts and then fails. *)
Definition flaky_server (history : list Request) (req : Request)
  : option Response :=
  match req_params req !! py "page" with
  | Some (PInt 1) => Some (mkResponse (Some (JList [raw_hello])))
  | _ => None
  end.

Definition flaky_start : State := initial flaky_server ∅ blog_url (py "out").

(** A category listing with a record that has no [id]. *)
Definition category_anonymous : JSON := obj [("name", JStr (py "Misc"))].

Definition anonymous_server : list Request → Request → option Response :=
  paged_server [(Extractor.categories_url blog_url,
                 [[category_news; category_anonymous]])]
               error_body.

Definition anonymous_start : State :=
  initial anonymous_server ∅ blog_url (py "out").

(** The first post under a dated slug, under a rooted slug, and a later
    version of it. *)
Definition post_dated : Post.t :=
  Post.mk (mkDatetime 2020 1 2 3 4 5 0 UTC) (mkDatetime 2020 2 3 4 5 6 0 UTC)
          (py "A & B") (py "2020/hello-world") (py "<p>Fish & chips</p>")
          (py "Fish") [] [py "News"; py "Events"] [] [].

Definition post_rooted : Post.t :=
  Post.mk (mkDatetime 2020 1 2 3 4 5 0 UTC) (mkDatetime 2020 2 3 4 5 6 0 UTC)
          (py "A & B") (py "/srv/www") (py "<p>Fish & chips</p>")
          (py "Fish") [] [py "News"; py "Events"] [] [].

Definition post_hello_revised : Post.t :=
  Post.mk (mkDatetime 2020 1 2 3 4 5 0 UTC) (mkDatetime 2020 5 6 7 8 9 0 UTC)
          (py "A & B") (py "hello-world") (py "<p>Fish, chips & peas</p>")
          (py "Fish") [] [py "News"; py "Events"] [] [].

(** The first post with a content that ends in half a surrogate pair. *)
Definition post_surrogate : Post.t :=
  Post.mk (mkDatetime 2020 1 2 3 4 5 0 UTC) (mkDatetime 2020 2 3 4 5 6 0 UTC)
          (py "A & B") (py "hello-world") (py "<p>Fish " ++ [0xD83D%N])
          (py "Fish") [] [py "News"; py "Events"] [] [].

(** The output tree with a regular file in place of the directory of the
    first post, and with a directory in place of its [index.md]. *)
Definition out_tree : gmap Path Node :=
  {[ mkPath 0 [py "out"] := Dir;
     mkPath 0 [py "out"; py "content"] := Dir;
     mkPath 0 [py "out"; py "content"; py "posts"] := Dir ]}.

Definition blog_blocked : State :=
  initial blog_server
    (<[mkPath 0 [py "out"; py "content"; py "posts"; py "hello-world"]
       := File (py "kept")]> out_tree)
    blog_url (py "out").

Definition blog_index_taken : State :=
  initial blog_server
    (<[mkPath 0 [py "out"; py "content"; py "posts"; py "hello-world";
                 py "index.md"] := Dir]>
       (<[mkPath 0 [py "out"; py "content"; py "posts"; py "hello-world"]
          := Dir]> out_tree))
    blog_url (py "out").
(** * Properties *)

Example fromisoformat_example :
  fromisoformat (py "2020-01-02T03:04:05")
  = Ok (mkDatetime 2020 1 2 3 4 5 0 None).
Proof. reflexivity. Qed.

Example isoformat_example :
  isoformat (mkDatetime 2020 1 2 3 4 5 0 UTC) = py "2020-01-02T03:04:05+00:00".
Proof. reflexivity. Qed.

Ltac monad := unfold mbind, M_bind, mret, M_ret, lift, raise, timeout in *.

(** ** The HTTP wrapper and the paginated fetcher *)

Lemma get_spec url params headers s :
  Extractor.get url params headers s
  = (match http s (sent s)
             (mkRequest url params (headers ∪ Extractor.BASE_HEADERS)) with
     | Some r => Ok r
     | None => Raise RequestException
     end,
     set_sent (sent s ++ [mkRequest url params (headers ∪ Extractor.BASE_HEADERS)]) s).
Proof. unfold Extractor.get. by destruct (http s _ _). Qed.

Lemma while_test_sent g page s :
  sent (snd (Extractor.while_test g page s))
  = sent s ++ [page_request (Extractor.g_url g) page].
Proof.
  unfold Extractor.while_test. monad. rewrite get_spec.
  rewrite (left_id_L ∅ (∪)).
  destruct (http s _ _) as [[[j|]]|]; simpl; try done.
  destruct j as [| | | |[|x l]|]; done.
Qed.

(** C1 (the code departs from the claim): whatever [base_params] holds,
    the request for a page carries the single query parameter [page];
    [per_page], [order] and [orderby] are absent from it.  This is so for
    the first request of a fresh generator and for the request that
    follows an exhausted page. *)
Theorem pageWhileList_sends_only_page (url : str)
    (base_params : gmap str ParamValue) (s : State) :
  let g := Extractor.pageWhileList url base_params in
  sent (snd (Extractor.next g s)) = sent s ++ [page_request url 1]
  ∧ (∀ page,
       sent (snd (Extractor.next (Extractor.resume g (Extractor.InPage page [])) s))
       = sent s ++ [page_request url (page + 1)])
  ∧ (∀ page,
       req_params (page_request url page) = {[ py "page" := PInt page ]}
       ∧ req_params (page_request url page) !! py "per_page" = None
       ∧ req_params (page_request url page) !! py "order" = None
       ∧ req_params (page_request url page) !! py "orderby" = None).
Proof.
  intros g. split; [apply while_test_sent|].
  split; [intros page; apply while_test_sent|].
  intros page. repeat split; by vm_compute.
Qed.

Lemma while_test_page g page s x rest :
  http s (sent s) (page_request (Extractor.g_url g) page)
    = Some (mkResponse (Some (JList (x :: rest)))) →
  Extractor.while_test g page s
  = (Ok (Some x, Extractor.resume g (Extractor.InPage page rest)),
     set_sent (sent s ++ [page_request (Extractor.g_url g) page]) s).
Proof.
  intros H. unfold Extractor.while_test. monad. rewrite get_spec.
  rewrite (left_id_L ∅ (∪)). fold (page_request (Extractor.g_url g) page).
  by rewrite H.
Qed.

Lemma while_test_end g page s j :
  http s (sent s) (page_request (Extractor.g_url g) page)
    = Some (mkResponse (Some j)) →
  end_of_data j →
  Extractor.while_test g page s
  = (Ok (None, Extractor.resume g Extractor.Finished),
     set_sent (sent s ++ [page_request (Extractor.g_url g) page]) s).
Proof.
  intros H E. unfold Extractor.while_test. monad. rewrite get_spec.
  rewrite (left_id_L ∅ (∪)). fold (page_request (Extractor.g_url g) page).
  rewrite H. simpl.
  destruct E as [->|E]; [done|].
  destruct j as [| | | |[|x l]|]; try done. by destruct (E (x :: l)).
Qed.

Lemma page_requests_S url first count :
  page_requests url first (S count)
  = page_request url first :: page_requests url (first + 1) count.
Proof.
  unfold page_requests. simpl. rewrite Z.add_0_r. f_equal.
  rewrite <- seq_shift, List.map_map. apply List.map_ext. intros i.
  f_equal. lia.
Qed.

Section Pagination.
Variable url : str.
Variable base_params : gmap str ParamValue.
Variable server : list Request → Request → option Response.
Variable pages : list (list JSON).
Variable last : JSON.
Hypothesis pages_nonempty : ∀ pg, pg ∈ pages → pg ≠ [].
Hypothesis server_pages : ∀ h (i : nat) pg,
  pages !! i = Some pg →
  server h (page_request url (Z.of_nat (S i)))
  = Some (mkResponse (Some (JList pg))).
Hypothesis server_last : ∀ h,
  server h (page_request url (Z.of_nat (S (length pages))))
  = Some (mkResponse (Some last)).
Hypothesis last_ends : end_of_data last.

(** The generator suspended in page [k] with [rest] still to deliver,
    [n] pages after it. *)
Lemma to_list_in_page (n : nat) : ∀ (k : nat) rest s fuel,
  (k + n = length pages)%nat →
  http s = server →
  (length rest + length (concat (drop k pages)) < fuel)%nat →
  Extractor.to_list fuel
    (Extractor.mkGenerator url base_params (Extractor.InPage (Z.of_nat k) rest)) s
  = (Ok (rest ++ concat (drop k pages)),
     set_sent (sent s ++ page_requests url (Z.of_nat k + 1) (S n)) s).
Proof.
  induction n as [|n IHn]; intros k rest; induction rest as [|x rest IHrest];
    intros s fuel Hk Hs Hfuel.
  - (* the last page is exhausted: the next request ends the data *)
    destruct fuel as [|fuel]; [lia|]. simpl. monad.
    unfold Extractor.next. simpl.
    replace (Z.of_nat k + 1) with (Z.of_nat (S k)) by lia.
    erewrite while_test_end; [| simpl; rewrite Hs;
      replace k with (length pages) by lia; apply server_last | apply last_ends].
    rewrite drop_ge by lia. unfold page_requests. simpl.
    replace (Z.of_nat k + 1 + 0) with (Z.of_nat (S k)) by lia. done.
  - destruct fuel as [|fuel]; [simpl in Hfuel; lia|]. simpl. monad.
    unfold Extractor.next. simpl.
    unfold Extractor.resume; simpl.
    rewrite (IHrest s fuel Hk Hs); [done|]. simpl in Hfuel. lia.
  - (* a further page follows *)
    destruct fuel as [|fuel]; [lia|].
    destruct (lookup_lt_is_Some_2 pages k) as [pg Hpg]; [lia|].
    destruct pg as [|x pg];
      [by destruct (pages_nonempty [] (list_elem_of_lookup_2 _ _ _ Hpg))|].
    simpl. monad. unfold Extractor.next. simpl.
    replace (Z.of_nat k + 1) with (Z.of_nat (S k)) by lia.
    erewrite while_test_page; [| simpl; rewrite Hs; by apply server_pages].
    unfold Extractor.resume; simpl.
    rewrite (drop_S _ _ _ Hpg) in *. simpl in Hfuel. rewrite length_app in Hfuel.
    rewrite (IHn (S k) pg _ fuel); [| lia | done | lia].
    rewrite (page_requests_S url (Z.of_nat (S k)) (S n)).
    unfold set_sent; simpl. rewrite <- app_assoc. done.
  - destruct fuel as [|fuel]; [simpl in Hfuel; lia|]. simpl. monad.
    unfold Extractor.next. simpl.
    unfold Extractor.resume; simpl.
    rewrite (IHrest s fuel Hk Hs); [done|]. simpl in Hfuel. lia.
Qed.

(** C2: against a server that answers pages [1..N] with the non-empty
    lists [pages] and page [N+1] with an empty list or a body that is no
    list, draining the generator returns the concatenation of the pages
    in order, and the requests it has sent are exactly those for pages
    [1], ..., [N+1], one each, in this order. *)
Theorem pageWhileList_yields_all_pages s fuel :
  http s = server →
  (length (concat pages) < fuel)%nat →
  Extractor.to_list fuel (Extractor.pageWhileList url base_params) s
  = (Ok (concat pages),
     set_sent (sent s ++ page_requests url 1 (S (length pages))) s).
Proof.
  intros Hs Hfuel.
  pose proof (to_list_in_page (length pages) 0 [] s fuel eq_refl Hs) as H.
  rewrite drop_0 in H. specialize (H Hfuel). change (Z.of_nat 0 + 1) with 1 in H.
  destruct fuel as [|fuel]; [lia|].
  simpl in *. exact H.
Qed.
End Pagination.

(** ** Serialization: the characters that [json.dumps] emits *)

Lemma uint_chars_printable u : Forall printable (uint_chars u).
Proof. induction u; simpl; constructor; auto; unfold printable; lia. Qed.

Lemma hex_chars_printable u : Forall printable (hex_chars u).
Proof. induction u; simpl; constructor; auto; unfold printable; lia. Qed.

Lemma zfill_printable w s : Forall printable s → Forall printable (zfill w s).
Proof.
  intros H. unfold zfill. apply Forall_app. split; [|done].
  apply Forall_forall. intros c Hc%list_elem_of_In%repeat_spec. subst.
  unfold printable; lia.
Qed.

Lemma fmt_d_printable w n : Forall printable (fmt_d w n).
Proof. apply zfill_printable, uint_chars_printable. Qed.

Lemma u_escape_printable n : Forall printable (u_escape n).
Proof.
  unfold u_escape, fmt_04x.
  repeat (constructor; [unfold printable; lia|]).
  apply zfill_printable, hex_chars_printable.
Qed.

Lemma encode_char_printable c : Forall printable (encode_char c).
Proof.
  assert (lit : ∀ a b : N, printable a → printable b → Forall printable [a; b])
    by (intros; repeat (constructor; [done|]); constructor).
  unfold encode_char.
  destruct (c =? 34)%N; [apply lit; unfold printable; lia|].
  destruct (c =? 92)%N; [apply lit; unfold printable; lia|].
  destruct ((32 <=? c) && (c <=? 126))%N eqn:E.
  { apply andb_prop in E as [?%N.leb_le ?%N.leb_le].
    constructor; [done | constructor]. }
  destruct (c =? 8)%N; [apply lit; unfold printable; lia|].
  destruct (c =? 12)%N; [apply lit; unfold printable; lia|].
  destruct (c =? 10)%N; [apply lit; unfold printable; lia|].
  destruct (c =? 13)%N; [apply lit; unfold printable; lia|].
  destruct (c =? 9)%N; [apply lit; unfold printable; lia|].
  destruct (c <? 65536)%N; [apply u_escape_printable|].
  apply Forall_app. split; apply u_escape_printable.
Qed.

Lemma encode_basestring_ascii_printable s :
  Forall printable (encode_basestring_ascii s).
Proof.
  unfold encode_basestring_ascii. constructor; [unfold printable; lia|].
  apply Forall_app. split; [|repeat constructor; unfold printable; lia].
  induction s as [|c s IH]; simpl; [constructor|].
  apply Forall_app. split; [apply encode_char_printable | exact IH].
Qed.

Lemma join_printable sep l :
  Forall printable sep → Forall (Forall printable) l →
  Forall printable (join sep l).
Proof.
  intros Hsep. induction 1 as [|x l Hx Hl IH]; simpl; [constructor|].
  destruct l as [|y l]; [done|].
  apply Forall_app. split; [done|]. apply Forall_app. split; [done|]. exact IH.
Qed.

Lemma py_printable_dec (lit : string) :
  forallb (fun c => (32 <=? c) && (c <=? 126))%N (py lit) = true →
  Forall printable (py lit).
Proof.
  intros H. apply Forall_forall. intros c Hc%list_elem_of_In.
  rewrite forallb_forall in H. apply H in Hc.
  apply andb_prop in Hc as [?%N.leb_le ?%N.leb_le]. done.
Qed.

Lemma dumps_str_list_printable (l : list str) :
  Forall printable (dumps (JList (List.map JStr l))).
Proof.
  simpl. constructor; [unfold printable; lia|].
  apply Forall_app. split; [|repeat constructor; unfold printable; lia].
  apply join_printable; [by apply py_printable_dec|].
  rewrite List.map_map. apply Forall_forall.
  intros x (s & <- & _)%list_elem_of_In%in_map_iff.
  apply encode_basestring_ascii_printable.
Qed.

Lemma format_offset_printable off : Forall printable (format_offset off).
Proof.
  destruct off as [o|]; simpl; [|constructor].
  constructor; [destruct (o <? 0); unfold printable; lia|].
  apply Forall_app. split; [apply fmt_d_printable|].
  constructor; [unfold printable; lia|].
  apply Forall_app. split; [apply fmt_d_printable|].
  destruct (_ =? 0); [constructor|].
  constructor; [unfold printable; lia|].
  apply Forall_app. split; [apply fmt_d_printable|].
  destruct (_ =? 0); [constructor|].
  constructor; [unfold printable; lia|]. apply fmt_d_printable.
Qed.

Lemma isoformat_printable d : Forall printable (isoformat d).
Proof.
  unfold isoformat, format_time.
  repeat match goal with
         | |- Forall printable (_ ++ _) => apply Forall_app; split
         | |- Forall printable (_ :: _) => constructor; [unfold printable; lia|]
         | |- Forall printable [] => constructor
         | |- Forall printable (fmt_d _ _) => apply fmt_d_printable
         | |- Forall printable (format_offset _) => apply format_offset_printable
         | |- Forall printable (if ?b then _ else _) => destruct b
         end.
Qed.

Lemma entry_printable key value :
  forallb (fun c => (32 <=? c) && (c <=? 126))%N (py key) = true →
  Forall printable value → Forall printable (entry key value).
Proof.
  intros Hk Hv. unfold entry. constructor; [unfold printable; lia|].
  apply Forall_app. split; [by apply py_printable_dec|].
  constructor; [unfold printable; lia|].
  apply Forall_app. split; [by apply py_printable_dec | done].
Qed.

(** The serialized front matter, entry by entry. *)
Lemma front_matter_entries (p : Post.t) :
  Post.front_matter p
  = 123%N ::
      entry "title" (dumps (JStr (Post.title p))) ++ py ", "
      ++ entry "categories" (dumps (JList (List.map JStr (Post.categories p)))) ++ py ", "
      ++ entry "tags" (dumps (JList (List.map JStr (Post.tags p)))) ++ py ", "
      ++ entry "aliases" (dumps (JList (List.map JStr (Post.aliases p)))) ++ py ", "
      ++ entry "author" (dumps (JStr (Post.author p))) ++ py ", "
      ++ entry "date" (dumps (JStr (isoformat (Post.published p)))) ++ py ", "
      ++ entry "lastmod" (dumps (JStr (isoformat (Post.modified p)))) ++ py ", "
      ++ entry "slug" (dumps (JStr (Post.slug p))) ++ py ", "
      ++ entry "summary" (dumps (JStr (Post.summary p)))
      ++ [125%N].
Proof.
  unfold Post.front_matter, Post.metadata, entry.
  cbn [dumps List.map join fst snd].
  rewrite <- !app_assoc. reflexivity.
Qed.

Lemma front_matter_printable (p : Post.t) : Forall printable (Post.front_matter p).
Proof.
  rewrite front_matter_entries.
  constructor; [unfold printable; lia|].
  repeat match goal with
         | |- Forall printable (_ ++ _) => apply Forall_app; split
         | |- Forall printable (entry _ _) => apply entry_printable; [reflexivity|]
         | |- Forall printable (py _) => by apply py_printable_dec
         | |- Forall printable (dumps (JStr _)) =>
             apply encode_basestring_ascii_printable
         | |- Forall printable (dumps (JList _)) => apply dumps_str_list_printable
         | |- Forall printable [_] => constructor; [unfold printable; lia|constructor]
         end.
Qed.

Lemma split_on_line (a b : str) :
  10%N ∉ a → split_on 10 (a ++ 10%N :: b) = a :: split_on 10 b.
Proof.
  induction a as [|x a IH]; intros Ha; simpl; [done|].
  apply not_elem_of_cons in Ha as [Hx Ha].
  destruct (x =? 10)%N eqn:E; [apply N.eqb_eq in E; congruence|].
  by rewrite (IH Ha).
Qed.

(** *** The serializer writes JSON texts *)

Lemma hex_range_elem (d : N) : (d < 16)%N → In d hex_range.
Proof.
  intros Hd. unfold hex_range.
  destruct d as [|p]; [by left|].
  do 4 (try destruct p as [p|p|]); simpl; try lia; auto 20.
Qed.

Lemma fmt_04x_digits_all :
  forallb (fun a => forallb (fun b => forallb (fun c => forallb (fun d =>
    bool_decide (fmt_04x (4096 * a + 256 * b + 16 * c + d)
                 = [hex_digit a; hex_digit b; hex_digit c; hex_digit d]))
    hex_range) hex_range) hex_range) hex_range = true.
Proof. vm_compute. reflexivity. Qed.

Lemma fmt_04x_digits (u : N) :
  (u < 0x10000)%N →
  fmt_04x u = [hex_digit (u / 4096 mod 16); hex_digit (u / 256 mod 16);
               hex_digit (u / 16 mod 16); hex_digit (u mod 16)].
Proof.
  intros Hu.
  pose proof fmt_04x_digits_all as Hall.
  set (a := (u / 4096 mod 16)%N). set (b := (u / 256 mod 16)%N).
  set (c := (u / 16 mod 16)%N). set (d := (u mod 16)%N).
  assert (Ha : (a < 16)%N) by (apply N.mod_lt; lia).
  assert (Hb : (b < 16)%N) by (apply N.mod_lt; lia).
  assert (Hc : (c < 16)%N) by (apply N.mod_lt; lia).
  assert (Hd : (d < 16)%N) by (apply N.mod_lt; lia).
  assert (Eu : u = (4096 * a + 256 * b + 16 * c + d)%N).
  { unfold a, b, c, d.
    pose proof (N.Div0.div_mod u 16) as E1.
    pose proof (N.Div0.div_mod (u / 16) 16) as E2.
    pose proof (N.Div0.div_mod (u / 256) 16) as E3.
    replace (u / 16 / 16)%N with (u / 256)%N in E2
      by (by rewrite N.Div0.div_div).
    replace (u / 256 / 16)%N with (u / 4096)%N in E3
      by (by rewrite N.Div0.div_div).
    assert (E4 : (u / 4096 < 16)%N) by (apply N.Div0.div_lt_upper_bound; lia).
    rewrite (N.mod_small (u / 4096) 16) in * by done.
    generalize dependent (u / 4096)%N. generalize dependent (u / 256)%N.
    generalize dependent (u / 16)%N. intros. lia. }
  rewrite forallb_forall in Hall. specialize (Hall a (hex_range_elem a Ha)).
  rewrite forallb_forall in Hall. specialize (Hall b (hex_range_elem b Hb)).
  rewrite forallb_forall in Hall. specialize (Hall c (hex_range_elem c Hc)).
  rewrite forallb_forall in Hall. specialize (Hall d (hex_range_elem d Hd)).
  apply bool_decide_eq_true_1 in Hall. by rewrite Eu at 1.
Qed.

Lemma u_escape_unit (u : N) : (u < 0x10000)%N → u_escape u = json_unit u.
Proof. intros Hu. unfold u_escape, json_unit. by rewrite (fmt_04x_digits u Hu). Qed.

Lemma lor_low_bits (a x : N) :
  N.land a 0x3ff = 0%N → (x < 0x400)%N → N.lor a x = (a + x)%N.
Proof.
  intros Ha Hx.
  assert (Hd : N.land a x = 0%N).
  { rewrite <- (N.mod_small x 0x400) by done.
    change 0x400%N with (2 ^ 10)%N. rewrite <- N.land_ones.
    change (N.ones 10) with 0x3ff%N.
    rewrite (N.land_comm x), N.land_assoc, Ha. apply N.land_0_l. }
  by rewrite <- (N.lxor_lor _ _ Hd), (N.add_nocarry_lxor _ _ Hd).
Qed.

(** The replacement that the serializer makes for a character is the
    JSON text of the character. *)
Lemma encode_char_json (c : N) : encode_char c = json_char c.
Proof.
  unfold encode_char, json_char.
  destruct (c =? 34)%N eqn:E1; [done|].
  destruct (c =? 92)%N eqn:E2; [done|].
  destruct ((32 <=? c) && (c <=? 126))%N eqn:E3.
  { apply andb_prop in E3 as [H1%N.leb_le H2%N.leb_le].
    repeat match goal with
           | |- context [(c =? ?k)%N] =>
               destruct (N.eqb_spec c k) as [->|_]; [lia|]
           end.
    done. }
  destruct (c =? 8)%N; [done|]. destruct (c =? 12)%N; [done|].
  destruct (c =? 10)%N; [done|]. destruct (c =? 13)%N; [done|].
  destruct (c =? 9)%N; [done|].
  destruct (c <? 0x10000)%N eqn:E4.
  { apply N.ltb_lt in E4. by apply u_escape_unit. }
  cbv zeta. set (n := (c - 0x10000)%N).
  change 0x3ff%N with (N.ones 10). rewrite !N.land_ones, N.shiftr_div_pow2.
  change (2 ^ 10)%N with 0x400%N.
  assert (H1 : (n / 0x400 mod 0x400 < 0x400)%N) by (by apply N.mod_lt).
  assert (H2 : (n mod 0x400 < 0x400)%N) by (by apply N.mod_lt).
  rewrite (lor_low_bits 0xd800) by done.
  rewrite (lor_low_bits 0xdc00) by done.
  rewrite !u_escape_unit by lia. done.
Qed.

Lemma encode_basestring_ascii_json (s : str) :
  encode_basestring_ascii s = json_string s.
Proof.
  unfold encode_basestring_ascii, json_string. simpl. do 2 f_equal.
  induction s as [|c s IH]; simpl; [done|]. by rewrite encode_char_json, IH.
Qed.

Lemma dumps_str_list_json (l : list str) :
  dumps (JList (List.map JStr l)) = json_array (List.map json_string l).
Proof.
  unfold json_array. cbn [dumps]. rewrite List.map_map. simpl. do 3 f_equal.
  apply List.map_ext. intros s. apply encode_basestring_ascii_json.
Qed.

(** Printable ASCII other than the quotation mark and the reverse solidus
    is written as it is. *)
Lemma json_string_plain (s : str) :
  Forall (fun c => printable c ∧ c ≠ 34%N ∧ c ≠ 92%N) s →
  json_string s = [34%N] ++ s ++ [34%N].
Proof.
  intros Hs. unfold json_string. do 2 f_equal.
  induction Hs as [|c s (Hc & H1 & H2) _ IH]; simpl; [done|].
  rewrite IH. unfold json_char, printable in *.
  repeat match goal with
         | |- context [(c =? ?k)%N] =>
             destruct (N.eqb_spec c k) as [->|_]; [lia || done|]
         end.
  destruct (N.leb_spec 32 c); [|lia]. destruct (N.leb_spec c 126); [|lia]. done.
Qed.

(** C5: the front matter is the serialization of one object: the
    dictionary with the keys title, categories, tags, aliases, author,
    date, lastmod, slug and summary, in this order, and the fields of
    the post as their values.  Written out, it is the JSON text of this
    object: the members in this order, separated by a comma and a space
    between braces, each a quoted key, a colon, a space and the JSON
    text of the value, a string or an array of strings.  The document
    is the front matter, two line feeds (a blank line) and then the
    content, character for character.  A string of printable ASCII
    without quotation mark and reverse solidus is written between
    quotation marks as it is.  The two documents at the end are those of
    a plain post and of a post whose title needs escapes and whose
    content holds a blank line, a brace and quotation marks: the content
    follows unchanged. *)
Theorem md_is_front_matter_then_content :
  (∀ p : Post.t,
     Post.front_matter p
     = dumps (JObj [ (py "title", JStr (Post.title p));
                     (py "categories", JList (List.map JStr (Post.categories p)));
                     (py "tags", JList (List.map JStr (Post.tags p)));
                     (py "aliases", JList (List.map JStr (Post.aliases p)));
                     (py "author", JStr (Post.author p));
                     (py "date", JStr (isoformat (Post.published p)));
                     (py "lastmod", JStr (isoformat (Post.modified p)));
                     (py "slug", JStr (Post.slug p));
                     (py "summary", JStr (Post.summary p)) ])
     ∧ Post.front_matter p
       = json_object
           [ entry "title" (json_string (Post.title p));
             entry "categories"
               (json_array (List.map json_string (Post.categories p)));
             entry "tags" (json_array (List.map json_string (Post.tags p)));
             entry "aliases"
               (json_array (List.map json_string (Post.aliases p)));
             entry "author" (json_string (Post.author p));
             entry "date" (json_string (isoformat (Post.published p)));
             entry "lastmod" (json_string (isoformat (Post.modified p)));
             entry "slug" (json_string (Post.slug p));
             entry "summary" (json_string (Post.summary p)) ]
     ∧ Post.md p = Post.front_matter p ++ [10%N; 10%N] ++ Post.content p)
  ∧ (∀ s : str,
       Forall (fun c => printable c ∧ c ≠ 34%N ∧ c ≠ 92%N) s →
       json_string s = [34%N] ++ s ++ [34%N])
  ∧ Post.md post_hello
    = lit "{'title': 'A & B', 'categories': ['News', 'Events'], 'tags': [], 'aliases': [], 'author': '', 'date': '2020-01-02T03:04:05+00:00', 'lastmod': '2020-02-03T04:05:06+00:00', 'slug': 'hello-world', 'summary': 'Fish'}||<p>Fish & chips</p>"
  ∧ Post.md post_escapes
    = lit "{'title': 'Say \'hi\'\n\u00e9\ud83d\ude00\\', 'categories': ['Q&A'], 'tags': [], 'aliases': [], 'author': '', 'date': '2020-01-02T03:04:05+00:00', 'lastmod': '2020-02-03T04:05:06+00:00', 'slug': 'escapes', 'summary': ''}||first||{'x': 1}".
Proof.
  split; [|split; [exact json_string_plain|split; vm_compute; reflexivity]].
  intros p. split; [reflexivity|]. split; [|reflexivity].
  rewrite front_matter_entries, !dumps_str_list_json.
  cbn [dumps]. rewrite !encode_basestring_ascii_json.
  unfold json_object. cbn [join]. rewrite <- !app_assoc. reflexivity.
Qed.

(** C10: whatever the fields of a post hold, its serialized front matter
    consists of printable ASCII characters only, so it has no line feed;
    split at line feeds, the document has the whole front matter as its
    first line and an empty second line, the lines of the content follow. *)
Theorem front_matter_is_one_line (p : Post.t) :
  Forall printable (Post.front_matter p)
  ∧ (10%N ∉ Post.front_matter p)
  ∧ split_on 10 (Post.md p)
    = Post.front_matter p :: [] :: split_on 10 (Post.content p).
Proof.
  assert (Hnl : 10%N ∉ Post.front_matter p).
  { intros Hin. pose proof (front_matter_printable p) as H.
    rewrite Forall_forall in H. apply H in Hin. unfold printable in Hin. lia. }
  split; [apply front_matter_printable|]. split; [exact Hnl|].
  unfold Post.md. by rewrite (split_on_line _ _ Hnl).
Qed.

(** ** The filesystem *)

Lemma set_fs_id s : set_fs (fs s) s = s.
Proof. by destruct s. Qed.

Lemma parent_snoc root rparts x :
  parent (mkPath root (rev (x :: rparts))) = mkPath root (rev rparts).
Proof. unfold parent. simpl. by rewrite removelast_last. Qed.

Lemma node_at_snoc m root rparts x :
  node_at m (mkPath root (rev (x :: rparts))) = m !! mkPath root (rev (x :: rparts)).
Proof.
  unfold node_at. simpl. destruct (rev rparts ++ [x]) eqn:E; [|done].
  by destruct (rev rparts).
Qed.

Lemma parent_ne p : p_parts p ≠ [] → parent p ≠ p.
Proof.
  intros Hp Heq. destruct p as [root parts]. unfold parent in Heq. simpl in *.
  injection Heq as Heq.
  destruct (exists_last Hp) as (l & x & ->).
  rewrite removelast_last in Heq.
  apply (f_equal length) in Heq. rewrite length_app in Heq. simpl in Heq. lia.
Qed.

Lemma node_at_insert_ne m p q n :
  p ≠ q → node_at (<[p := n]> m) q = node_at m q.
Proof. intros H. unfold node_at. destruct (p_parts q); [done|]. by rewrite lookup_insert_ne. Qed.

Lemma node_at_insert_dir m p q :
  node_at m q = Some Dir → node_at (<[p := Dir]> m) q = Some Dir.
Proof.
  intros H. destruct (decide (p = q)) as [->|Hne].
  - unfold node_at. destruct (p_parts q); [done|]. by rewrite lookup_insert_eq.
  - by rewrite node_at_insert_ne.
Qed.

Lemma wf_insert_dir m p :
  wf_fs m → node_at m (parent p) = Some Dir → wf_fs (<[p := Dir]> m).
Proof.
  intros Hwf Hp e n He. apply node_at_insert_dir.
  destruct (decide (p = e)) as [->|Hne]; [done|].
  rewrite lookup_insert_ne in He by done. by eapply Hwf.
Qed.

Lemma wf_insert_file m p data :
  wf_fs m → p_parts p ≠ [] → node_at m (parent p) = Some Dir →
  m !! p ≠ Some Dir → wf_fs (<[p := File data]> m).
Proof.
  intros Hwf Hparts Hp Hnd e n He.
  assert (Hpar : node_at m (parent e) = Some Dir).
  { destruct (decide (p = e)) as [->|Hne]; [done|].
    rewrite lookup_insert_ne in He by done. by eapply Hwf. }
  destruct (decide (p = parent e)) as [Heq|Hne].
  - rewrite <- Heq in Hpar. unfold node_at in Hpar.
    destruct (p_parts p); [done | by destruct Hnd].
  - by rewrite node_at_insert_ne.
Qed.

Lemma ancestry_parts root rparts q :
  q ∈ ancestry root rparts →
  p_root q = root ∧ (0 < length (p_parts q) <= length rparts)%nat.
Proof.
  induction rparts as [|x rparts IH]; simpl; [by intros ?%elem_of_nil|].
  intros [->|H]%elem_of_cons.
  - simpl. rewrite length_app, length_rev. simpl. split; [done | lia].
  - destruct (IH H) as [? ?]. split; [done | lia].
Qed.

Lemma not_in_own_ancestry root rparts x :
  mkPath root (rev (x :: rparts)) ∉ ancestry root rparts.
Proof.
  intros H%ancestry_parts. simpl in H.
  rewrite length_app, length_rev in H. simpl in H. lia.
Qed.

(** In a well-formed filesystem the directories above a directory exist. *)
Lemma wf_ancestry_dirs m root rparts :
  wf_fs m → node_at m (mkPath root (rev rparts)) = Some Dir →
  ∀ q, q ∈ ancestry root rparts → m !! q = Some Dir.
Proof.
  intros Hwf. induction rparts as [|x rparts IH]; intros Hd q Hq;
    [by apply elem_of_nil in Hq|].
  cbn [ancestry] in Hq. apply elem_of_cons in Hq as [->|Hq].
  - by rewrite <- node_at_snoc.
  - apply IH; [|done]. rewrite node_at_snoc in Hd.
    apply Hwf in Hd. by rewrite parent_snoc in Hd.
Qed.

Lemma mkdir_parents_cons root x rparts s :
  mkdir_parents root (x :: rparts) s
  = let p := mkPath root (rev (x :: rparts)) in
    match os_mkdir p s with
    | (Raise (FileNotFoundError q), s') =>
        (mkdir_parents root rparts;; mkdir_exist_ok p) s'
    | (Raise e, s') => if is_dir (fs s') p then (Ok (), s') else (Raise e, s')
    | r => r
    end.
Proof. reflexivity. Qed.

(** [mkdir(parents=True, exist_ok=True)] in a well-formed filesystem where
    no regular file is in the way: it succeeds, afterwards the path and all
    directories above it exist, and no other entry has changed. *)
Lemma mkdir_parents_spec root rparts : ∀ s,
  wf_fs (fs s) →
  (∀ q, q ∈ ancestry root rparts → ∀ c, fs s !! q ≠ Some (File c)) →
  ∃ m', mkdir_parents root rparts s = (Ok (), set_fs m' s)
      ∧ wf_fs m'
      ∧ (∀ q, q ∈ ancestry root rparts → m' !! q = Some Dir)
      ∧ (∀ q, q ∉ ancestry root rparts → m' !! q = fs s !! q)
      ∧ (∀ q n, fs s !! q = Some n → m' !! q = Some n).
Proof.
  induction rparts as [|x rparts IH]; intros s Hwf Hfree.
  - exists (fs s). rewrite set_fs_id. repeat split; try done.
    by intros q ?%elem_of_nil.
  - rewrite mkdir_parents_cons. cbv zeta.
    set (p := mkPath root (rev (x :: rparts))).
    set (q0 := mkPath root (rev rparts)).
    assert (Hp_in : p ∈ ancestry root (x :: rparts)) by (by left).
    assert (Hpar : parent p = q0) by apply parent_snoc.
    assert (Hnode : ∀ m, node_at m p = m !! p) by (intros; apply node_at_snoc).
    unfold os_mkdir. rewrite Hpar, Hnode.
    destruct (node_at (fs s) q0) as [[|c]|] eqn:Hq0.
    + (* the parent is a directory *)
      pose proof (wf_ancestry_dirs _ _ _ Hwf Hq0) as Habove.
      destruct (fs s !! p) as [[|c]|] eqn:Hp.
      * unfold is_dir. rewrite Hnode, Hp.
        exists (fs s). rewrite set_fs_id. repeat split; try done.
        intros q [->|Hq]%elem_of_cons; [done | by apply Habove].
      * by destruct (Hfree p Hp_in c).
      * exists (<[p := Dir]> (fs s)). repeat split.
        -- apply wf_insert_dir; [done | by rewrite Hpar].
        -- intros q [->|Hq]%elem_of_cons; [by rewrite lookup_insert_eq|].
           destruct (decide (p = q)) as [->|Hne]; [by rewrite lookup_insert_eq|].
           rewrite lookup_insert_ne by done. by apply Habove.
        -- intros q Hq. apply not_elem_of_cons in Hq as [Hne _].
           by rewrite lookup_insert_ne.
        -- intros q n Hq. destruct (decide (p = q)) as [->|Hne]; [congruence|].
           by rewrite lookup_insert_ne.
    + (* a regular file in place of the parent *)
      destruct rparts as [|y rparts]; [done|].
      assert (Hq0_in : q0 ∈ ancestry root (x :: y :: rparts)) by (right; by left).
      unfold q0 in Hq0. rewrite node_at_snoc in Hq0.
      destruct (Hfree q0 Hq0_in c Hq0).
    + (* the parent is missing: it is made first *)
      destruct rparts as [|y rparts]; [done|].
      assert (Hnode0 : ∀ m, node_at m q0 = m !! q0)
        by (intros; apply node_at_snoc).
      destruct (IH s Hwf) as (m1 & Hrun & Hwf1 & Hdirs & Hframe & Hmono).
      { intros q Hq. apply Hfree. by right. }
      monad. rewrite Hrun.
      assert (Hq0_dir : m1 !! q0 = Some Dir) by (apply Hdirs; by left).
      assert (Hp1 : m1 !! p = None).
      { rewrite Hframe by apply not_in_own_ancestry.
        destruct (fs s !! p) as [n|] eqn:Hp; [|done].
        apply Hwf in Hp. rewrite Hpar in Hp. congruence. }
      unfold mkdir_exist_ok, os_mkdir. cbn [fs set_fs].
      rewrite Hpar, Hnode, Hnode0, Hq0_dir, Hp1.
      exists (<[p := Dir]> m1). repeat split.
      * apply wf_insert_dir; [done|]. by rewrite Hpar, Hnode0.
      * intros q [->|Hq]%elem_of_cons; [by rewrite lookup_insert_eq|].
        destruct (decide (p = q)) as [->|Hne]; [by rewrite lookup_insert_eq|].
        rewrite lookup_insert_ne by done. by apply Hdirs.
      * intros q Hq. apply not_elem_of_cons in Hq as [Hne Hq].
        rewrite lookup_insert_ne by done. by apply Hframe.
      * intros q n Hq. destruct (decide (p = q)) as [->|Hne].
        -- apply Hmono in Hq. congruence.
        -- rewrite lookup_insert_ne by done. by apply Hmono.
Qed.

(** ** State relations that every operation of the script respects *)

Lemma os_mkdir_raise p s e s' : os_mkdir p s = (Raise e, s') → s' = s.
Proof.
  unfold os_mkdir.
  destruct (node_at (fs s) (parent p)) as [[|?]|];
    [destruct (node_at (fs s) p)|..]; congruence.
Qed.

Lemma os_mkdir_no_timeout p s s' : os_mkdir p s ≠ (Timeout, s').
Proof.
  unfold os_mkdir.
  destruct (node_at (fs s) (parent p)) as [[|?]|];
    [destruct (node_at (fs s) p)|..]; congruence.
Qed.

Section Respects.
Variables Rok Rerr : State → State → Prop.
Variable good : Extractor.generator → Prop.
Hypothesis Rok_refl : ∀ s, Rok s s.
Hypothesis Rok_trans : ∀ s1 s2 s3, Rok s1 s2 → Rok s2 s3 → Rok s1 s3.
Hypothesis Rok_Rerr : ∀ s1 s2 s3, Rok s1 s2 → Rerr s2 s3 → Rerr s1 s3.
Hypothesis Rerr_refl : ∀ s, Rerr s s.

Local Abbreviation respects := (respects Rok Rerr).

Lemma respects_ret {A} (Q : A → Prop) a : Q a → respects Q (mret a).
Proof. intros H s. by split. Qed.

Lemma respects_lift {A} (Q : A → Prop) (r : Result A) :
  (∀ a, r = Ok a → Q a) → respects Q (lift r).
Proof. intros H s. unfold lift. destruct r; auto. Qed.

Lemma respects_timeout {A} (Q : A → Prop) : respects Q (@timeout A).
Proof. intros s. apply Rerr_refl. Qed.

Lemma respects_bind {A B} (Q1 : A → Prop) (Q2 : B → Prop) (m : M A) (f : A → M B) :
  respects Q1 m → (∀ a, Q1 a → respects Q2 (f a)) → respects Q2 (m ≫= f).
Proof.
  intros Hm Hf s. monad. specialize (Hm s).
  destruct (m s) as [[a| |] s1]; [|done..].
  destruct Hm as [H1 Ha]. specialize (Hf a Ha s1).
  destruct (f a s1) as [[b| |] s2].
  - destruct Hf. split; [by eapply Rok_trans | done].
  - by eapply Rok_Rerr.
  - by eapply Rok_Rerr.
Qed.

Lemma respects_weaken {A} (Q Q' : A → Prop) (m : M A) :
  (∀ a, Q a → Q' a) → respects Q m → respects Q' m.
Proof.
  intros HQ Hm s. specialize (Hm s). destruct (m s) as [[a| |] s1]; try done.
  destruct Hm. auto.
Qed.

(** *** The network side, from the single fact about [get] *)
Section Network.
Hypothesis H_get : ∀ url params headers,
  respects any (Extractor.get url params headers).

Lemma respects_while_test g page :
  respects any (Extractor.while_test g page).
Proof.
  unfold Extractor.while_test.
  eapply respects_bind; [apply H_get|]. intros r _.
  eapply respects_bind; [by apply (respects_lift any)|]. intros j _.
  destruct j as [| | | |[|x l]|]; by apply respects_ret.
Qed.

Lemma respects_next_any g : respects any (Extractor.next g).
Proof.
  unfold Extractor.next. destruct (Extractor.g_frame g) as [|page [|x l]|];
    try apply respects_while_test; by apply respects_ret.
Qed.

Lemma respects_to_list fuel : ∀ g, respects any (Extractor.to_list fuel g).
Proof.
  induction fuel as [|fuel IH]; intros g; simpl; [apply respects_timeout|].
  eapply respects_bind; [apply respects_next_any|]. intros [[x|] g'] _.
  - eapply respects_bind; [apply IH|]. intros; by apply respects_ret.
  - by apply respects_ret.
Qed.

Lemma respects_dict_by_id fuel : ∀ g acc,
  respects any (Extractor.dict_by_id fuel g acc).
Proof.
  induction fuel as [|fuel IH]; intros g acc; simpl; [apply respects_timeout|].
  eapply respects_bind; [apply respects_next_any|]. intros [[x|] g'] _.
  - eapply respects_bind; [by apply (respects_lift any)|]. intros i _.
    eapply respects_bind; [by apply (respects_lift any)|]. intros k _.
    apply IH.
  - by apply respects_ret.
Qed.
End Network.

(** *** The filesystem side, from the facts about [os.mkdir] and
    [write_text] *)
Section Files.
Hypothesis H_os_mkdir : ∀ p, respects any (os_mkdir p).
Hypothesis H_write_text : ∀ p data, respects any (write_text p data).
Hypothesis H_store_dir : ∀ v,
  respects any (Constructor.store_posts_directory v).

Lemma respects_mkdir_exist_ok p : respects any (mkdir_exist_ok p).
Proof.
  intros s. unfold mkdir_exist_ok. pose proof (H_os_mkdir p s) as H.
  destruct (os_mkdir p s) as [[[]|e|] s1] eqn:E; [done| |done].
  apply os_mkdir_raise in E as ->.
  destruct e; try done; by destruct (is_dir (fs s) p).
Qed.

Lemma respects_mkdir_parents root rparts :
  respects any (mkdir_parents root rparts).
Proof.
  induction rparts as [|x rparts IH]; intros s.
  - simpl. pose proof (H_os_mkdir (mkPath root []) s) as H.
    destruct (os_mkdir _ s) as [[[]|e|] s1] eqn:E; [done| |done].
    apply os_mkdir_raise in E as ->.
    destruct e; try done; by destruct (is_dir (fs s) _).
  - rewrite mkdir_parents_cons. cbv zeta.
    pose proof (H_os_mkdir (mkPath root (rev (x :: rparts))) s) as H.
    destruct (os_mkdir _ s) as [[[]|e|] s1] eqn:E; [done| |done].
    apply os_mkdir_raise in E as ->.
    destruct e; try (by destruct (is_dir (fs s) _)).
    apply (respects_bind any any); [apply IH|].
    intros _ _. apply respects_mkdir_exist_ok.
Qed.

Lemma respects_mkdir p : respects any (mkdir p).
Proof. apply respects_mkdir_parents. Qed.

Lemma respects_posts_directory : respects any Constructor.posts_directory.
Proof.
  intros s. unfold Constructor.posts_directory.
  destruct (cached_posts_directory (con s)); [by split|].
  apply (respects_bind any any); [apply respects_mkdir|]. intros _ _.
  apply (respects_bind any any); [apply H_store_dir|]. intros _ _.
  by apply respects_ret.
Qed.

Lemma respects_add_post post : respects any (Constructor.add_post post).
Proof.
  unfold Constructor.add_post.
  apply (respects_bind any any); [apply respects_posts_directory|].
  intros dir _.
  apply (respects_bind any any); [apply respects_mkdir|]. intros _ _.
  apply H_write_text.
Qed.
End Files.

(** *** The normalizer and the loops, from the facts about the cached
    properties, the generator and the file writer *)
Section Pipeline.
Context `{!HtmlEntities}.
Hypothesis H_next : ∀ g, good g →
  respects (fun r => good (snd r)) (Extractor.next g).
Hypothesis H_categories : ∀ fuel, respects any (Extractor.categories fuel).
Hypothesis H_tags : ∀ fuel, respects any (Extractor.tags fuel).

Lemma respects_resolve_names (cache : M (gmap Key JSON)) ids :
  respects any cache → respects any (Extractor.resolve_names cache ids).
Proof.
  intros Hc. induction ids as [|i ids IH]; simpl; [by apply respects_ret|].
  apply (respects_bind any any); [done|]. intros c _.
  apply (respects_bind any any); [by apply respects_lift|]. intros x _.
  apply (respects_bind any any); [by apply respects_lift|]. intros n _.
  apply (respects_bind any any); [by apply respects_lift|]. intros name _.
  apply (respects_bind any any); [done|]. intros names _.
  by apply respects_ret.
Qed.

Lemma respects_enhance_post fuel data :
  respects any (Extractor.enhance_post fuel data).
Proof.
  unfold Extractor.enhance_post.
  repeat (apply (respects_bind any any);
          [first [ by apply respects_lift
                 | apply respects_resolve_names;
                   first [apply H_categories | apply H_tags] ]
          | intros ? _]).
  by apply respects_ret.
Qed.

Lemma respects_next_post fuel g :
  good g → respects (fun r => good (snd r)) (Extractor.next_post fuel g).
Proof.
  intros Hg. unfold Extractor.next_post.
  eapply respects_bind; [by apply H_next|]. intros [[data|] g'] Hg'.
  - apply (respects_bind any _); [apply respects_enhance_post|].
    intros post _. by apply respects_ret.
  - by apply respects_ret.
Qed.

Lemma respects_posts_to_list fuel : ∀ g,
  good g → respects any (Extractor.posts_to_list fuel g).
Proof.
  induction fuel as [|fuel IH]; intros g Hg; simpl; [apply respects_timeout|].
  eapply respects_bind; [by apply respects_next_post|].
  intros [[post|] g'] Hg'.
  - apply (respects_bind any any); [by apply IH|]. intros; by apply respects_ret.
  - by apply respects_ret.
Qed.

Hypothesis H_get_posts : respects good Extractor.get_posts.
Hypothesis H_store_posts : ∀ v, respects any (Extractor.store_posts v).

Lemma respects_posts fuel : respects any (Extractor.posts fuel).
Proof.
  intros s. unfold Extractor.posts.
  destruct (cached_posts (ext s)); [by split|].
  apply (respects_bind good any); [apply H_get_posts|]. intros g Hg.
  apply (respects_bind any any); [by apply respects_posts_to_list|].
  intros val _.
  apply (respects_bind any any); [apply H_store_posts|]. intros _ _.
  by apply respects_ret.
Qed.

Hypothesis H_add_post : ∀ post, respects any (Constructor.add_post post).

Lemma respects_main_loop fuel : ∀ g, good g → respects any (main_loop fuel g).
Proof.
  induction fuel as [|fuel IH]; intros g Hg; simpl; [apply respects_timeout|].
  eapply respects_bind; [by apply respects_next_post|].
  intros [[post|] g'] Hg'.
  - apply (respects_bind any any); [apply H_add_post|]. intros _ _. by apply IH.
  - by apply respects_ret.
Qed.

Lemma respects_main fuel : respects any (main fuel).
Proof.
  unfold main. apply (respects_bind good any); [apply H_get_posts|].
  intros g Hg. by apply respects_main_loop.
Qed.
End Pipeline.
End Respects.

(** ** The reference caches *)

Lemma categories_memoized fuel s val :
  cached_categories (ext s) = Some val →
  Extractor.categories fuel s = (Ok val, s).
Proof. intros H. unfold Extractor.categories. by rewrite H. Qed.

Lemma tags_memoized fuel s val :
  cached_tags (ext s) = Some val → Extractor.tags fuel s = (Ok val, s).
Proof. intros H. unfold Extractor.tags. by rewrite H. Qed.

Lemma categories_stored fuel s val s' :
  Extractor.categories fuel s = (Ok val, s') →
  cached_categories (ext s') = Some val.
Proof.
  unfold Extractor.categories.
  destruct (cached_categories (ext s)) eqn:E; [congruence|].
  monad. destruct (Extractor.dict_by_id _ _ _ _) as [[v| |] s1]; simpl; [|done..].
  by intros [= <- <-].
Qed.

Lemma tags_stored fuel s val s' :
  Extractor.tags fuel s = (Ok val, s') → cached_tags (ext s') = Some val.
Proof.
  unfold Extractor.tags.
  destruct (cached_tags (ext s)) eqn:E; [congruence|].
  monad. destruct (Extractor.dict_by_id _ _ _ _) as [[v| |] s1]; simpl; [|done..].
  by intros [= <- <-].
Qed.

(** ** The normalizer *)

Lemma cache_lookup_name cache i name :
  name_in cache i name →
  ∃ x, cache_lookup cache i = Ok x ∧ getitem x (py "name") = Ok (JStr name).
Proof.
  intros (k & x & Hk & Hx & Hn). exists x. split; [|done].
  unfold cache_lookup. by rewrite Hk, Hx.
Qed.

Lemma resolve_names_ready (acc : M (gmap Key JSON)) cache s ids names :
  acc s = (Ok cache, s) →
  Forall2 (name_in cache) ids names →
  Extractor.resolve_names acc ids s = (Ok names, s).
Proof.
  intros Hacc. induction 1 as [|i name ids names Hi _ IH]; [done|].
  destruct (cache_lookup_name _ _ _ Hi) as (x & Hx & Hn).
  simpl. monad. rewrite Hacc, Hx, Hn. simpl. by rewrite IH.
Qed.

Lemma resolve_names_through (acc : M (gmap Key JSON)) ids names s s' :
  (∀ cache s1 s2, acc s1 = (Ok cache, s2) → acc s2 = (Ok cache, s2)) →
  resolves_through acc ids names s s' →
  Extractor.resolve_names acc ids s = (Ok names, s').
Proof.
  intros Hmemo H. destruct ids as [|i ids]; [by destruct H as [-> ->]|].
  destruct H as (cache & Hacc & Hall).
  inversion Hall as [|? name ? names' Hi Hrest]; subst.
  destruct (cache_lookup_name _ _ _ Hi) as (x & Hx & Hn).
  simpl. monad. rewrite Hacc, Hx, Hn. simpl.
  by rewrite (resolve_names_ready acc cache s' ids names') by eauto.
Qed.

Lemma categories_again fuel cache s1 s2 :
  Extractor.categories fuel s1 = (Ok cache, s2) →
  Extractor.categories fuel s2 = (Ok cache, s2).
Proof. intros H%categories_stored. by apply categories_memoized. Qed.

Lemma tags_again fuel cache s1 s2 :
  Extractor.tags fuel s1 = (Ok cache, s2) →
  Extractor.tags fuel s2 = (Ok cache, s2).
Proof. intros H%tags_stored. by apply tags_memoized. Qed.

Section Normalizer.
Context `{!HtmlEntities}.

Lemma utc_field_naive data field text dt :
  getitem data field = Ok (JStr text) → naive_iso text dt →
  Extractor.utc_field data field = Ok (as_utc dt).
Proof.
  intros Hf [Hp Htz]. unfold Extractor.utc_field. rewrite Hf. simpl.
  rewrite Hp. unfold localize. by rewrite Htz.
Qed.

Lemma rendered_field_text data field text :
  has_rendered data field text →
  Extractor.rendered_field data field = Ok (unescape text).
Proof.
  intros (v & Hv & Hr). unfold Extractor.rendered_field. by rewrite Hv, Hr.
Qed.

(** The normalizer on a well-formed record whose IDs are in the caches. *)
Lemma enhance_post_ok fuel data r d1 d2 cnames tnames s s1 s2 :
  has_fields data r →
  naive_iso (raw_date_gmt r) d1 →
  naive_iso (raw_modified_gmt r) d2 →
  resolves_through (Extractor.categories fuel) (raw_categories r) cnames s s1 →
  resolves_through (Extractor.tags fuel) (raw_tags r) tnames s1 s2 →
  Extractor.enhance_post fuel data s
  = (Ok (Post.mk (as_utc d1) (as_utc d2) (unescape (raw_title r))
                 (raw_slug r) (unescape (raw_content r))
                 (unescape (raw_excerpt r)) [] cnames tnames []),
     s2).
Proof.
  intros (Hd & Hm & Ht & Hs & Hc & Hg & Hct & Hex) Hd1 Hd2 Hcats Htags.
  unfold Extractor.enhance_post. monad.
  rewrite (utc_field_naive _ _ _ _ Hd Hd1), (utc_field_naive _ _ _ _ Hm Hd2).
  rewrite (rendered_field_text _ _ _ Ht), Hs. simpl.
  unfold Extractor.id_list. rewrite Hc. simpl.
  rewrite (resolve_names_through _ _ _ _ _ (categories_again fuel) Hcats).
  rewrite Hg. simpl.
  rewrite (resolve_names_through _ _ _ _ _ (tags_again fuel) Htags).
  by rewrite (rendered_field_text _ _ _ Hct), (rendered_field_text _ _ _ Hex).
Qed.
End Normalizer.

(** ** Timestamps: reading back what [isoformat] writes *)

Lemma of_uint_acc_value u : ∀ p, Npos (Pos.of_uint_acc u p) = uint_value (Npos p) u.
Proof.
  induction u as [|u IH|u IH|u IH|u IH|u IH|u IH|u IH|u IH|u IH|u IH];
    intros p; simpl; [done|..]; rewrite IH; f_equal; lia.
Qed.

Lemma of_uint_value u : N.of_uint u = uint_value 0 u.
Proof.
  unfold N.of_uint.
  induction u as [|u IH|u IH|u IH|u IH|u IH|u IH|u IH|u IH|u IH|u IH];
    simpl; try done; by rewrite of_uint_acc_value.
Qed.

Lemma to_uint_value n : uint_value 0 (N.to_uint n) = n.
Proof. rewrite <- of_uint_value. apply DecimalN.Unsigned.of_to. Qed.

Lemma parse_uint_chars u : ∀ acc rest,
  parse_digits_from acc (length (uint_chars u)) (uint_chars u ++ rest)
  = Some (uint_value acc u, rest).
Proof.
  induction u as [|u IH|u IH|u IH|u IH|u IH|u IH|u IH|u IH|u IH|u IH];
    intros acc rest; simpl; [done|..]; rewrite IH; do 3 f_equal; lia.
Qed.

Lemma parse_zeros k : ∀ m s,
  parse_digits_from 0 (k + m) (repeat 48%N k ++ s) = parse_digits_from 0 m s.
Proof. induction k as [|k IH]; intros m s; simpl; [done | apply IH]. Qed.

Lemma nzhead_no_zero u :
  match Decimal.nzhead u with Decimal.D0 _ => False | _ => True end.
Proof. induction u; simpl; done. Qed.

Lemma uint_value_lower u : ∀ acc,
  (acc * 10 ^ N.of_nat (length (uint_chars u)) <= uint_value acc u)%N.
Proof.
  induction u as [|u IH|u IH|u IH|u IH|u IH|u IH|u IH|u IH|u IH|u IH];
    intros acc; simpl length; simpl uint_value;
    [simpl; lia|..];
    rewrite Nat2N.inj_succ, N.pow_succ_r';
    (etransitivity; [|apply IH]); nia.
Qed.

Lemma to_uint_length n w :
  (n < 10 ^ N.of_nat w)%N → (1 <= w)%nat →
  (length (uint_chars (N.to_uint n)) <= w)%nat.
Proof.
  intros Hn Hw.
  pose proof (to_uint_value n) as Hv.
  assert (Hnorm : Decimal.unorm (N.to_uint n) = N.to_uint n).
  { rewrite <- (DecimalN.Unsigned.to_of (N.to_uint n)).
    by rewrite DecimalN.Unsigned.of_to. }
  assert (Hbig : ∀ (k : N) l, (1 <= k)%N → uint_value k l = n →
            (length (uint_chars l) < w)%nat).
  { intros k l Hk Hl. pose proof (uint_value_lower l k) as Hlow.
    rewrite Hl in Hlow.
    destruct (Nat.lt_ge_cases (length (uint_chars l)) w) as [|Hge]; [done|].
    assert (10 ^ N.of_nat w <= 10 ^ N.of_nat (length (uint_chars l)))%N
      by (apply N.pow_le_mono_r; lia).
    nia. }
  destruct (N.to_uint n) as [|u|u|u|u|u|u|u|u|u|u]; simpl in Hv |- *;
    try (apply (Hbig _ u) in Hv; lia).
  - lia.
  - unfold Decimal.unorm in Hnorm. simpl in Hnorm.
    pose proof (nzhead_no_zero u) as Hz.
    destruct (Decimal.nzhead u); try done. injection Hnorm as <-. simpl. lia.
Qed.

Lemma parse_fmt_d w n rest :
  (n < 10 ^ N.of_nat w)%N → (1 <= w)%nat →
  parse_digits w (fmt_d w n ++ rest) = Some (n, rest)
  ∧ length (fmt_d w n) = w.
Proof.
  intros Hn Hw. pose proof (to_uint_length n w Hn Hw) as Hlen.
  unfold fmt_d, zfill, parse_digits.
  set (ds := uint_chars (N.to_uint n)) in *.
  split.
  - replace w with ((w - length ds) + length ds)%nat at 1 by lia.
    rewrite <- app_assoc, parse_zeros. unfold ds.
    by rewrite parse_uint_chars, to_uint_value.
  - rewrite length_app, repeat_length. lia.
Qed.

Lemma split_at_absent c (s : list N) : c ∉ s → split_at c s = None.
Proof.
  induction s as [|x s IH]; intros H; simpl; [done|].
  apply not_elem_of_cons in H as [Hx Hs].
  destruct (N.eqb_spec x c) as [->|_]; [done|]. by rewrite (IH Hs).
Qed.

Lemma uint_chars_digits u : Forall (fun c => 48 <= c <= 57)%N (uint_chars u).
Proof. induction u; simpl; constructor; auto; lia. Qed.

Lemma fmt_d_digits w n : Forall (fun c => 48 <= c <= 57)%N (fmt_d w n).
Proof.
  unfold fmt_d, zfill. apply Forall_app. split; [|apply uint_chars_digits].
  apply Forall_forall. intros c Hc%list_elem_of_In%repeat_spec. lia.
Qed.

Lemma format_time_chars hh mm ss us :
  Forall (fun c => 48 <= c <= 58 ∨ c = 46)%N (format_time hh mm ss us).
Proof.
  assert (D : ∀ w n, Forall (fun c => 48 <= c <= 58 ∨ c = 46)%N (fmt_d w n)).
  { intros w n. eapply Forall_impl; [apply fmt_d_digits|]. simpl. lia. }
  unfold format_time.
  repeat match goal with
         | |- Forall _ (_ ++ _) => apply Forall_app; split
         | |- Forall _ (_ :: _) => constructor; [lia|]
         | |- Forall _ [] => constructor
         | |- Forall _ (fmt_d _ _) => apply D
         | |- Forall _ (if ?b then _ else _) => destruct b
         end.
Qed.

Lemma days_in_month_le y m : (days_in_month y m <= 31)%N.
Proof.
  unfold days_in_month. destruct (m =? 2)%N; [destruct (is_leap y); lia|].
  destruct (bool_decide _); lia.
Qed.

(** Reading back what [isoformat] writes for a naive timestamp. *)
Lemma fromisoformat_isoformat d :
  valid_datetime d = true → tzinfo d = None → fromisoformat (isoformat d) = Ok d.
Proof.
  destruct d as [y m dd hh mm ss us tz]. intros Hvalid Htz. simpl in Htz. subst tz.
  pose proof Hvalid as Hv. unfold valid_datetime in Hv. simpl in Hv.
  repeat (apply andb_prop in Hv as [Hv ?]).
  repeat match goal with
         | H : (_ <=? _)%N = true |- _ => apply N.leb_le in H
         | H : (_ <? _)%N = true |- _ => apply N.ltb_lt in H
         end.
  pose proof (days_in_month_le y m).
  assert (P2 : ∀ n rest, (n < 100)%N →
            parse_digits 2 (fmt_d 2 n ++ rest) = Some (n, rest)).
  { intros n rest Hn. apply parse_fmt_d; [|lia].
    change (10 ^ N.of_nat 2)%N with 100%N. lia. }
  assert (P4 : ∀ rest, parse_digits 4 (fmt_d 4 y ++ rest) = Some (y, rest)).
  { intros rest. apply parse_fmt_d; [|lia].
    change (10 ^ N.of_nat 4)%N with 10000%N. lia. }
  assert (P6 : parse_digits 6 (fmt_d 6 us) = Some (us, [])
               ∧ length (fmt_d 6 us) = 6%nat).
  { rewrite <- (app_nil_r (fmt_d 6 us)) at 1. apply parse_fmt_d; [|lia].
    change (10 ^ N.of_nat 6)%N with 1000000%N. lia. }
  unfold fromisoformat, isoformat, parse_isoformat_date. simpl tzinfo.
  cbn [year month day hour minute second microsecond format_offset].
  rewrite app_nil_r, P4, P2, P2 by lia.
  assert (Htime : parse_isoformat_time (format_time hh mm ss us)
                  = Some (hh, mm, ss, us, None)).
  { unfold parse_isoformat_time.
    pose proof (format_time_chars hh mm ss us) as Hchars.
    rewrite Forall_forall in Hchars.
    rewrite !split_at_absent by (intros Hin%Hchars; lia).
    unfold format_time, parse_hh_mm_ss_ff.
    rewrite !P2 by lia.
    destruct (N.eqb_spec us 0) as [->|Hus]; [done|].
    unfold parse_fraction. destruct P6 as [P6 L6]. by rewrite L6, P6. }
  rewrite Htime. by rewrite Hvalid.
Qed.

(** Every rendering of a valid naive timestamp is an ISO timestamp without
    offset in the sense of [naive_iso]. *)
Lemma naive_iso_isoformat d :
  valid_datetime d = true → tzinfo d = None → naive_iso (isoformat d) d.
Proof. intros Hv Htz. split; [by apply fromisoformat_isoformat | done]. Qed.

Lemma isoformat_as_utc dt :
  tzinfo dt = None → isoformat (as_utc dt) = isoformat dt ++ py "+00:00".
Proof.
  intros Htz. unfold isoformat. rewrite Htz. simpl.
  rewrite app_nil_r.
  change (43 :: fmt_d 2 (Z.to_N (0 / usec_per_hour))
             ++ 58 :: fmt_d 2 (Z.to_N (0 mod usec_per_hour / usec_per_minute))
             ++ [])%N
    with (py "+00:00").
  repeat (rewrite <- app_assoc; simpl). reflexivity.
Qed.

Lemma metadata_dates (post : Post.t) :
  ∃ kvs, Post.metadata post = JObj kvs
         ∧ assoc (py "date") kvs = Some (JStr (isoformat (Post.published post)))
         ∧ assoc (py "lastmod") kvs = Some (JStr (isoformat (Post.modified post))).
Proof.
  eexists. split; [reflexivity|].
  generalize (isoformat (Post.published post)), (isoformat (Post.modified post)).
  intros a b. split; by vm_compute.
Qed.

Section NormalizerClaims.
Context `{!HtmlEntities}.

Lemma charref_sub_plain c s :
  c ≠ 38%N → charref_sub 0 (c :: s) = c :: charref_sub 0 s.
Proof. intros Hc. simpl. by destruct (N.eqb_spec c 38). Qed.

Lemma charref_sub_match s g :
  match_charref s = Some g →
  charref_sub 0 (38%N :: s) = replace_charref g ++ charref_sub (length g) s.
Proof. intros Hg. simpl. by rewrite Hg. Qed.

Lemma unescape_amp_example :
  html5 (py "amp;") = Some (py "&") → unescape (py "A &amp; B") = py "A & B".
Proof.
  intros Hamp.
  change (py "A &amp; B") with [65; 32; 38; 97; 109; 112; 59; 32; 66]%N.
  change (py "amp;") with [97; 109; 112; 59]%N in Hamp.
  unfold unescape.
  replace (bool_decide (38%N ∈ [65; 32; 38; 97; 109; 112; 59; 32; 66]%N))
    with true by (by vm_compute).
  do 2 rewrite charref_sub_plain by lia.
  rewrite (charref_sub_match _ [97; 109; 112; 59]%N) by (by vm_compute).
  cbn [replace_charref]. rewrite Hamp.
  by vm_compute.
Qed.

(** C3: for a raw record that carries the fields the normalizer reads,
    with parseable timestamps, whose category IDs have the names [cnames]
    in the category cache and whose tag IDs have the names [tnames] in the
    tag cache (element by element, so in the order of the ID lists),
    normalization returns a post with these categories and tags, with the
    title, content and summary that [html.unescape] makes of the rendered
    fields, the slug of the record, no alias and an empty author.  With
    the entity [amp;] in the table, ["A &amp; B"] unescapes to ["A & B"]. *)
Theorem enhance_post_fields fuel data r d1 d2 cnames tnames s s1 s2 :
  has_fields data r →
  naive_iso (raw_date_gmt r) d1 →
  naive_iso (raw_modified_gmt r) d2 →
  resolves_through (Extractor.categories fuel) (raw_categories r) cnames s s1 →
  resolves_through (Extractor.tags fuel) (raw_tags r) tnames s1 s2 →
  (∃ post,
     Extractor.enhance_post fuel data s = (Ok post, s2)
     ∧ Post.categories post = cnames
     ∧ Post.tags post = tnames
     ∧ Post.title post = unescape (raw_title r)
     ∧ Post.content post = unescape (raw_content r)
     ∧ Post.summary post = unescape (raw_excerpt r)
     ∧ Post.slug post = raw_slug r
     ∧ Post.aliases post = []
     ∧ Post.author post = [])
  ∧ (html5 (py "amp;") = Some (py "&") →
     unescape (py "A &amp; B") = py "A & B").
Proof.
  intros Hf Hd1 Hd2 Hc Ht. split.
  - eexists. split; [by eapply enhance_post_ok|]. by repeat split.
  - apply unescape_amp_example.
Qed.

(** C7: for a raw record whose [date_gmt] and [modified_gmt] are ISO
    timestamps without offset, the normalized [published] and [modified]
    are these timestamps tagged UTC, their ISO renderings are the
    offset-free renderings followed by [+00:00], and these renderings are
    the [date] and [lastmod] values of the front matter. *)
Theorem enhance_post_timestamps_utc fuel data r d1 d2 cnames tnames s s1 s2 :
  has_fields data r →
  naive_iso (raw_date_gmt r) d1 →
  naive_iso (raw_modified_gmt r) d2 →
  resolves_through (Extractor.categories fuel) (raw_categories r) cnames s s1 →
  resolves_through (Extractor.tags fuel) (raw_tags r) tnames s1 s2 →
  ∃ post kvs,
    Extractor.enhance_post fuel data s = (Ok post, s2)
    ∧ Post.published post = as_utc d1
    ∧ Post.modified post = as_utc d2
    ∧ tzinfo (Post.published post) = UTC
    ∧ tzinfo (Post.modified post) = UTC
    ∧ isoformat (Post.published post) = isoformat d1 ++ py "+00:00"
    ∧ isoformat (Post.modified post) = isoformat d2 ++ py "+00:00"
    ∧ Post.metadata post = JObj kvs
    ∧ assoc (py "date") kvs = Some (JStr (isoformat d1 ++ py "+00:00"))
    ∧ assoc (py "lastmod") kvs = Some (JStr (isoformat d2 ++ py "+00:00")).
Proof.
  intros Hf Hd1 Hd2 Hc Ht.
  destruct (metadata_dates
              (Post.mk (as_utc d1) (as_utc d2) (unescape (raw_title r))
                       (raw_slug r) (unescape (raw_content r))
                       (unescape (raw_excerpt r)) [] cnames tnames []))
    as (kvs & Hkvs & Hdate & Hlastmod).
  cbn [Post.published Post.modified] in Hdate, Hlastmod.
  rewrite isoformat_as_utc in Hdate by apply Hd1.
  rewrite isoformat_as_utc in Hlastmod by apply Hd2.
  eexists _, kvs. split; [by eapply enhance_post_ok|].
  cbn [Post.published Post.modified].
  rewrite (isoformat_as_utc d1) by apply Hd1.
  rewrite (isoformat_as_utc d2) by apply Hd2.
  by repeat split.
Qed.
End NormalizerClaims.

(** ** The file writer *)

Lemma bind_ok {A B} (m : M A) (f : A → M B) s b s' :
  (m ≫= f) s = (Ok b, s') → ∃ a s1, m s = (Ok a, s1) ∧ f a s1 = (Ok b, s').
Proof.
  monad. destruct (m s) as [[a| |] s1]; [eauto|done..].
Qed.

Lemma fs_grows_refl s : fs_grows s s.
Proof. split; [by rewrite set_fs_id | done]. Qed.

Lemma fs_grows_trans s1 s2 s3 : fs_grows s1 s2 → fs_grows s2 s3 → fs_grows s1 s3.
Proof.
  intros [E1 M1] [E2 M2]. split; [|by auto].
  rewrite E2 at 1. rewrite E1 at 1. by destruct s1.
Qed.

Lemma os_mkdir_grows p : respects fs_grows fs_grows any (os_mkdir p).
Proof.
  intros s. unfold os_mkdir.
  destruct (node_at (fs s) (parent p)) as [[|?]|] eqn:Hpar;
    try apply fs_grows_refl.
  destruct (node_at (fs s) p) as [n|] eqn:Hp; [apply fs_grows_refl|].
  split; [|done]. split; [done|]. simpl.
  intros q n Hq. destruct (decide (p = q)) as [->|Hne].
  - unfold node_at in Hp. destruct (p_parts q); congruence.
  - by rewrite lookup_insert_ne.
Qed.

Lemma store_dir_same_fs v :
  ∀ s, fs (snd (Constructor.store_posts_directory v s)) = fs s.
Proof. done. Qed.

Lemma mkdir_grows p : respects fs_grows fs_grows any (mkdir p).
Proof.
  apply respects_mkdir;
    [apply fs_grows_refl | apply fs_grows_trans | apply fs_grows_trans
    | apply os_mkdir_grows].
Qed.

Lemma mkdir_grows_ok p s s' : mkdir p s = (Ok (), s') → fs_grows s s'.
Proof. intros H. pose proof (mkdir_grows p s) as G. rewrite H in G. apply G. Qed.

Lemma os_mkdir_inv p s r s' :
  os_mkdir p s = (r, s') →
  match r with
  | Ok _ => node_at (fs s) (parent p) = Some Dir
            ∧ s' = set_fs (<[p := Dir]> (fs s)) s
  | Raise (FileNotFoundError _) => s' = s
  | Raise _ => s' = s ∧ node_at (fs s) (parent p) ≠ None
  | Timeout => False
  end.
Proof.
  unfold os_mkdir.
  destruct (node_at (fs s) (parent p)) as [[|?]|] eqn:Hpar;
    [destruct (node_at (fs s) p)|..]; intros [= <- <-]; try done.
Qed.

Lemma is_dir_insert_dir m p q :
  is_dir m q = true → is_dir (<[p := Dir]> m) q = true.
Proof.
  unfold is_dir. destruct (node_at m q) as [[|?]|] eqn:E; try done.
  by rewrite (node_at_insert_dir _ _ _ E).
Qed.

Lemma is_dir_self_insert m p : is_dir (<[p := Dir]> m) p = true.
Proof.
  unfold is_dir, node_at. destruct (p_parts p); [done|]. by rewrite lookup_insert_eq.
Qed.

Lemma mkdir_exist_ok_ok p s s' :
  mkdir_exist_ok p s = (Ok (), s') →
  is_dir (fs s') p = true ∧ node_at (fs s') (parent p) ≠ None.
Proof.
  unfold mkdir_exist_ok. destruct (os_mkdir p s) as [[[]|e|] s1] eqn:E.
  - intros [= <-]. apply os_mkdir_inv in E as [Hpar ->]. simpl. split.
    + apply is_dir_self_insert.
    + by rewrite (node_at_insert_dir _ _ _ Hpar).
  - apply os_mkdir_inv in E.
    destruct e; try done;
      destruct E as [-> Hpar];
      (destruct (is_dir (fs s) p) eqn:D; [|done]); by intros [= <-].
  - done.
Qed.

Lemma mkdir_parents_ok root rparts s s' :
  mkdir_parents root rparts s = (Ok (), s') →
  is_dir (fs s') (mkPath root (rev rparts)) = true
  ∧ node_at (fs s') (parent (mkPath root (rev rparts))) ≠ None.
Proof.
  destruct rparts as [|x rparts]; [done|].
  rewrite mkdir_parents_cons. cbv zeta.
  set (p := mkPath root (rev (x :: rparts))).
  destruct (os_mkdir p s) as [[[]|e|] s1] eqn:E.
  - intros [= <-]. apply os_mkdir_inv in E as [Hpar ->]. simpl. split.
    + apply is_dir_self_insert.
    + by rewrite (node_at_insert_dir _ _ _ Hpar).
  - apply os_mkdir_inv in E.
    assert (Hrec : (∃ q, e = FileNotFoundError q)
                   ∨ (s1 = s ∧ node_at (fs s) (parent p) ≠ None
                      ∧ ∀ q, e ≠ FileNotFoundError q)).
    { destruct e; try (right; by destruct E); left; eauto. }
    destruct Hrec as [[q ->]|(-> & Hpar & Hne)].
    + intros (_ & s2 & _ & H)%bind_ok. by apply mkdir_exist_ok_ok in H.
    + destruct (is_dir (fs s) p) eqn:D;
        destruct e; try done; try (by intros [= <-]); by destruct (Hne p0).
  - done.
Qed.

Lemma path_rev_rev p : mkPath (p_root p) (rev (rev (p_parts p))) = p.
Proof. destruct p. simpl. by rewrite rev_involutive. Qed.

Lemma mkdir_ok p s s' :
  mkdir p s = (Ok (), s') →
  is_dir (fs s') p = true ∧ node_at (fs s') (parent p) ≠ None.
Proof.
  intros H%mkdir_parents_ok. by rewrite path_rev_rev in H.
Qed.

(** [mkdir] on a directory that exists changes nothing. *)
Lemma mkdir_noop p s :
  is_dir (fs s) p = true → node_at (fs s) (parent p) ≠ None →
  mkdir p s = (Ok (), s).
Proof.
  unfold mkdir. rewrite <- (path_rev_rev p) at 1 2.
  generalize (rev (p_parts p)) as rparts, (p_root p) as root.
  intros rparts root Hdir Hpar.
  assert (Hos : ∃ e, os_mkdir (mkPath root (rev rparts)) s = (Raise e, s)
                     ∧ ∀ q, e ≠ FileNotFoundError q).
  { unfold os_mkdir. unfold is_dir in Hdir.
    destruct (node_at (fs s) (parent _)) as [[|c]|]; [| |done].
    - destruct (node_at (fs s) _) as [[|?]|]; [|done..]. eauto.
    - eauto. }
  destruct Hos as (e & Hos & Hne).
  destruct rparts as [|x rparts].
  - change (rev []) with (@nil (list N)) in *.
    cbn [mkdir_parents rev]. rewrite Hos, Hdir.
    destruct e; try done; by destruct (Hne p0).
  - rewrite mkdir_parents_cons. cbv zeta. rewrite Hos, Hdir.
    destruct e; try done; by destruct (Hne p0).
Qed.

Lemma write_text_inv p data s s' :
  write_text p data s = (Ok (), s') →
  s' = set_fs (<[p := File data]> (fs s)) s
  ∧ node_at (fs s) (parent p) = Some Dir
  ∧ node_at (fs s) p ≠ Some Dir
  ∧ existsb surrogate data = false.
Proof.
  unfold write_text.
  destruct (node_at (fs s) (parent p)) as [[|?]|]; [|done..].
  destruct (node_at (fs s) p) as [[|?]|]; [done|..];
    destruct (existsb surrogate data); [done| |done|]; by intros [= <-].
Qed.

(** Writing the same text to the same file again changes nothing. *)
Lemma write_text_again p data s s' :
  write_text p data s = (Ok (), s') → write_text p data s' = (Ok (), s').
Proof.
  intros (-> & Hpar & Hp & Henc)%write_text_inv.
  assert (Hparts : p_parts p ≠ []).
  { intros E. unfold node_at in Hp. by rewrite E in Hp. }
  unfold write_text. simpl.
  rewrite node_at_insert_ne by (apply not_eq_sym, parent_ne, Hparts).
  rewrite Hpar.
  assert (Hnow : node_at (<[p := File data]> (fs s)) p = Some (File data)).
  { unfold node_at. destruct (p_parts p); [done|]. by rewrite lookup_insert_eq. }
  rewrite Hnow, Henc. unfold set_fs. simpl. by rewrite insert_insert_eq.
Qed.

(** *** Every operation, from the facts about the elementary state
    changes *)
Section FromPrimitives.
Variables Rok Rerr : State → State → Prop.
Hypothesis Rok_refl : ∀ s, Rok s s.
Hypothesis Rok_trans : ∀ s1 s2 s3, Rok s1 s2 → Rok s2 s3 → Rok s1 s3.
Hypothesis Rok_Rerr : ∀ s1 s2 s3, Rok s1 s2 → Rerr s2 s3 → Rerr s1 s3.
Hypothesis Rerr_refl : ∀ s, Rerr s s.
Hypothesis P_get : ∀ url params headers,
  respects Rok Rerr any (Extractor.get url params headers).
Hypothesis P_store_categories : ∀ v,
  respects Rok Rerr any (Extractor.store_categories v).
Hypothesis P_store_tags : ∀ v, respects Rok Rerr any (Extractor.store_tags v).
Hypothesis P_store_posts : ∀ v, respects Rok Rerr any (Extractor.store_posts v).
Context `{!HtmlEntities}.

Local Abbreviation respects := (respects Rok Rerr).

Lemma prim_dict_by_id fuel g acc : respects any (Extractor.dict_by_id fuel g acc).
Proof. by apply respects_dict_by_id. Qed.

Lemma prim_categories fuel : respects any (Extractor.categories fuel).
Proof.
  intros s. unfold Extractor.categories.
  destruct (cached_categories (ext s)); [by split|].
  apply (respects_bind Rok Rerr Rok_trans Rok_Rerr any any);
    [apply prim_dict_by_id|]. intros val _.
  apply (respects_bind Rok Rerr Rok_trans Rok_Rerr any any);
    [apply P_store_categories|]. intros _ _.
  by apply respects_ret.
Qed.

Lemma prim_tags fuel : respects any (Extractor.tags fuel).
Proof.
  intros s. unfold Extractor.tags.
  destruct (cached_tags (ext s)); [by split|].
  apply (respects_bind Rok Rerr Rok_trans Rok_Rerr any any);
    [apply prim_dict_by_id|]. intros val _.
  apply (respects_bind Rok Rerr Rok_trans Rok_Rerr any any);
    [apply P_store_tags|]. intros _ _.
  by apply respects_ret.
Qed.

Lemma prim_next g : respects (fun r => any (snd r)) (Extractor.next g).
Proof.
  eapply respects_weaken; [|by apply respects_next_any]. done.
Qed.

Lemma prim_get_posts : respects any Extractor.get_posts.
Proof. intros s. by split. Qed.

Lemma prim_enhance_post fuel data :
  respects any (Extractor.enhance_post fuel data).
Proof.
  apply respects_enhance_post;
    auto using prim_categories, prim_tags.
Qed.

Lemma prim_posts fuel : respects any (Extractor.posts fuel).
Proof.
  apply (respects_posts Rok Rerr any);
    auto using prim_categories, prim_tags, prim_next, prim_get_posts.
Qed.

Hypothesis P_os_mkdir : ∀ p, respects any (os_mkdir p).
Hypothesis P_write_text : ∀ p data, respects any (write_text p data).
Hypothesis P_store_dir : ∀ v,
  respects any (Constructor.store_posts_directory v).

Lemma prim_add_post post : respects any (Constructor.add_post post).
Proof. by apply respects_add_post. Qed.

Lemma prim_main_loop fuel g : respects any (main_loop fuel g).
Proof.
  apply (respects_main_loop Rok Rerr any);
    auto using prim_categories, prim_tags, prim_next, prim_add_post.
  done.
Qed.

Lemma prim_main fuel : respects any (main fuel).
Proof.
  apply (respects_main Rok Rerr any);
    auto using prim_categories, prim_tags, prim_next, prim_get_posts,
               prim_add_post.
Qed.
End FromPrimitives.

Lemma fs_extends_refl m : fs_extends m m.
Proof. intros q [|c] H; eauto. Qed.

Lemma fs_extends_trans m1 m2 m3 :
  fs_extends m1 m2 → fs_extends m2 m3 → fs_extends m1 m3.
Proof.
  intros H12 H23 q n Hq. specialize (H12 q n Hq). destruct n as [|c].
  - apply (H23 q Dir H12).
  - destruct H12 as [c' H12]. apply (H23 q (File c') H12).
Qed.

Lemma keeps_files_same_fs s s' : fs s' = fs s → keeps_files s s'.
Proof. intros E. unfold keeps_files. rewrite E. apply fs_extends_refl. Qed.

Lemma get_same_fs url params headers s :
  fs (snd (Extractor.get url params headers s)) = fs s.
Proof. unfold Extractor.get. by destruct (http s _ _). Qed.

Lemma same_fs_respects {A} (m : M A) :
  (∀ s, fs (snd (m s)) = fs s) → respects keeps_files keeps_files any m.
Proof.
  intros H s. specialize (H s). destruct (m s) as [[a| |] s'];
    [split; [|done]|..]; by apply keeps_files_same_fs.
Qed.

Lemma os_mkdir_keeps_files p : respects keeps_files keeps_files any (os_mkdir p).
Proof.
  intros s. pose proof (os_mkdir_grows p s) as H.
  assert (G : ∀ s', fs_grows s s' → keeps_files s s').
  { intros s' [_ Hm] q [|c] Hq; [|exists c]; by apply Hm. }
  destruct (os_mkdir p s) as [[a| |] s']; [split; [|done]|..]; apply G, H.
Qed.

Lemma write_text_keeps_files p data :
  respects keeps_files keeps_files any (write_text p data).
Proof.
  intros s. unfold write_text.
  destruct (node_at (fs s) (parent p)) as [[|?]|];
    try (by apply keeps_files_same_fs).
  assert (G : ∀ text, node_at (fs s) p ≠ Some Dir →
              keeps_files s (set_fs (<[p := File text]> (fs s)) s)).
  { intros text Hp q n Hq. simpl. destruct (decide (p = q)) as [->|Hne].
    - rewrite lookup_insert_eq. unfold node_at in Hp.
      destruct (p_parts q); [done|]. destruct n; [done | eauto].
    - rewrite lookup_insert_ne by done. destruct n; eauto. }
  destruct (node_at (fs s) p) as [[|c]|];
    [by apply keeps_files_same_fs|..];
    (destruct (existsb surrogate data); [|split; [|done]]); by apply G.
Qed.

Section Reconciliation.
Context `{!HtmlEntities}.

(** Whatever its outcome, a run of the pipeline loses no entry of the
    filesystem. *)
Lemma main_keeps_files fuel : respects keeps_files keeps_files any (main fuel).
Proof.
  apply prim_main;
    try (intros; apply same_fs_respects; intros; reflexivity).
  - intros s. apply fs_extends_refl.
  - intros s1 s2 s3. apply fs_extends_trans.
  - intros s1 s2 s3. apply fs_extends_trans.
  - intros s. apply fs_extends_refl.
  - intros. apply same_fs_respects. intros. apply get_same_fs.
  - apply os_mkdir_keeps_files.
  - apply write_text_keeps_files.
Qed.
End Reconciliation.

Lemma posts_directory_ok s dir s1 :
  Constructor.posts_directory s = (Ok dir, s1) →
  dir = posts_dir s
  ∧ cached_posts_directory (con s1) = Some dir
  ∧ ∀ q n, fs s !! q = Some n → fs s1 !! q = Some n.
Proof.
  unfold Constructor.posts_directory, posts_dir.
  destruct (cached_posts_directory (con s)) eqn:E.
  - by intros [= <- <-].
  - intros ([] & sa & Hmk & H)%bind_ok.
    apply bind_ok in H as ([] & sb & Hst & H).
    unfold Constructor.store_posts_directory in Hst.
    injection Hst as Hsb. injection H as Hr Hs1. subst sb s1 dir.
    apply mkdir_grows_ok in Hmk as [_ Hm]. by repeat split.
Qed.

Lemma posts_directory_cached s dir :
  cached_posts_directory (con s) = Some dir →
  Constructor.posts_directory s = (Ok dir, s).
Proof. intros E. unfold Constructor.posts_directory. by rewrite E. Qed.

Lemma node_at_insert_some m p n q :
  node_at m q ≠ None → node_at (<[p := n]> m) q ≠ None.
Proof.
  unfold node_at. destruct (p_parts q); [done|].
  destruct (decide (p = q)) as [->|Hne];
    [by rewrite lookup_insert_eq | by rewrite lookup_insert_ne].
Qed.

(** A second [add_post] of the same post changes nothing. *)
Lemma add_post_again post s s' :
  Constructor.add_post post s = (Ok (), s') →
  Constructor.add_post post s' = (Ok (), s').
Proof.
  unfold Constructor.add_post.
  intros (dir & s1 & Hdir & H)%bind_ok.
  apply bind_ok in H as ([] & s2 & Hmk & Hwr).
  apply posts_directory_ok in Hdir as (_ & Hcached & _).
  pose proof (mkdir_grows_ok _ _ _ Hmk) as [E2 _].
  pose proof (mkdir_ok _ _ _ Hmk) as [Hisdir Hpar].
  pose proof (write_text_inv _ _ _ _ Hwr) as (E3 & Hidx_par & Hidx & _).
  assert (Hcon : con s' = con s1) by (rewrite E3, E2; reflexivity).
  monad. rewrite (posts_directory_cached s' dir) by (by rewrite Hcon).
  rewrite mkdir_noop.
  - by apply write_text_again in Hwr.
  - rewrite E3. simpl. unfold is_dir in *.
    destruct (node_at (fs s2) (truediv dir (Post.slug post)))
      as [[|?]|] eqn:D; try done.
    rewrite node_at_insert_ne; [by rewrite D|].
    intros Heq. rewrite Heq in Hidx. by rewrite D in Hidx.
  - rewrite E3. simpl. by apply node_at_insert_some.
Qed.

(** [add_post] leaves every entry other than the file it writes as it
    was. *)
Lemma keeps_entries_refl s : keeps_entries s s.
Proof. by intros q n. Qed.

Lemma keeps_entries_trans s1 s2 s3 :
  keeps_entries s1 s2 → keeps_entries s2 s3 → keeps_entries s1 s3.
Proof. intros H12 H23 q n Hq. by apply H23, H12. Qed.

Lemma os_mkdir_keeps_entries p :
  respects keeps_entries keeps_entries any (os_mkdir p).
Proof.
  intros s. pose proof (os_mkdir_grows p s) as H.
  destruct (os_mkdir p s) as [[a| |] s'].
  - destruct H as [[_ H] _]. by split.
  - by destruct H.
  - by destruct H.
Qed.

Lemma posts_directory_keeps_entries :
  respects keeps_entries keeps_entries any Constructor.posts_directory.
Proof.
  apply respects_posts_directory.
  - apply keeps_entries_refl.
  - apply keeps_entries_trans.
  - apply keeps_entries_trans.
  - apply os_mkdir_keeps_entries.
  - intros v s. split; [by intros q n | done].
Qed.

Lemma add_post_frame post s q n :
  q ≠ index_path s post → fs s !! q = Some n →
  fs (snd (Constructor.add_post post s)) !! q = Some n.
Proof.
  intros Hq Hn. unfold Constructor.add_post. monad.
  pose proof (posts_directory_keeps_entries s) as Hpd.
  destruct (Constructor.posts_directory s) as [[dir| |] s1] eqn:Edir;
    [|by apply Hpd..].
  destruct Hpd as [Hm1 _].
  apply posts_directory_ok in Edir as (-> & _ & _).
  pose proof (mkdir_grows (truediv (posts_dir s) (Post.slug post)) s1) as Hmk.
  destruct (mkdir _ s1) as [[[]| |] s2]; [|apply Hmk; by apply Hm1..].
  destruct Hmk as [[_ Hm2] _].
  fold (index_path s post).
  unfold write_text.
  destruct (node_at (fs s2) (parent (index_path s post))) as [[|?]|];
    try (simpl; by auto).
  destruct (node_at (fs s2) (index_path s post)) as [[|?]|];
    try destruct (existsb surrogate (Post.md post)); simpl;
    try rewrite lookup_insert_ne by done; by auto.
Qed.

(** *** Paths of the output tree *)

Lemma split_on_absent c (s : str) : c ∉ s → split_on c s = [s].
Proof.
  induction s as [|x s IH]; intros H; simpl; [done|].
  apply not_elem_of_cons in H as [Hx Hs].
  destruct (N.eqb_spec x c) as [->|_]; [done|]. by rewrite (IH Hs).
Qed.

Lemma parse_path_segment (s : str) : valid_segment s → parse_path s = mkPath 0 [s].
Proof.
  intros (Hne & Hdot & Hslash). unfold parse_path.
  rewrite (split_on_absent _ _ Hslash).
  assert (Hlead : leading_slashes s = 0%nat).
  { destruct s as [|x s]; [done|]. simpl.
    destruct (N.eqb_spec x 47) as [->|_]; [|done]. destruct Hslash. by left. }
  rewrite Hlead. simpl.
  by rewrite !bool_decide_eq_false_2 by done.
Qed.

Lemma truediv_segment p (s : str) :
  valid_segment s → truediv p s = mkPath (p_root p) (p_parts p ++ [s]).
Proof. intros H. unfold truediv. by rewrite (parse_path_segment _ H). Qed.

Lemma valid_segment_dec (s : str) :
  bool_decide (s ≠ [] ∧ s ≠ [46%N] ∧ 47%N ∉ s) = true → valid_segment s.
Proof. apply bool_decide_eq_true_1. Qed.

Lemma dirs_of_snoc root parts x :
  dirs_of (mkPath root (parts ++ [x]))
  = mkPath root (parts ++ [x]) :: dirs_of (mkPath root parts).
Proof.
  unfold dirs_of. simpl. rewrite rev_app_distr. simpl.
  by rewrite rev_involutive.
Qed.

Lemma dirs_of_length p q :
  q ∈ dirs_of p → (length (p_parts q) <= length (p_parts p))%nat.
Proof.
  intros [_ H]%ancestry_parts. rewrite length_rev in H. lia.
Qed.

Lemma mkdir_spec p s :
  wf_fs (fs s) → unobstructed (fs s) p →
  ∃ m', mkdir p s = (Ok (), set_fs m' s)
      ∧ wf_fs m'
      ∧ (∀ q, q ∈ dirs_of p → m' !! q = Some Dir)
      ∧ (∀ q, q ∉ dirs_of p → m' !! q = fs s !! q).
Proof.
  intros Hwf Hfree.
  destruct (mkdir_parents_spec (p_root p) (rev (p_parts p)) s Hwf Hfree)
    as (m' & ? & ? & ? & ? & _).
  by exists m'.
Qed.

Lemma literal_segments :
  valid_segment (py "content") ∧ valid_segment (py "posts")
  ∧ valid_segment (py "index.md").
Proof. repeat split; by apply valid_segment_dec. Qed.

Lemma posts_dir_path base :
  truediv (truediv base (py "content")) (py "posts")
  = mkPath (p_root base) (p_parts base ++ [py "content"; py "posts"]).
Proof.
  destruct literal_segments as (Hc & Hp & _).
  rewrite (truediv_segment _ _ Hc), (truediv_segment _ _ Hp). simpl.
  by rewrite <- app_assoc.
Qed.

Lemma post_index_parent base slug : parent (post_index base slug) = post_dir base slug.
Proof.
  unfold parent, post_index, post_dir. simpl. f_equal.
  change [py "content"; py "posts"; slug; py "index.md"]
    with ([py "content"; py "posts"; slug] ++ [py "index.md"]).
  by rewrite app_assoc, removelast_last.
Qed.

(** *** Documents that can be encoded *)

Lemma surrogate_false (c : N) :
  (c < 0xD800 ∨ 0xDFFF < c)%N → surrogate c = false.
Proof.
  intros Hc. unfold surrogate. apply andb_false_iff. rewrite !N.leb_gt. lia.
Qed.

Lemma existsb_surrogate_false (s : str) :
  Forall (fun c => surrogate c = false) s → existsb surrogate s = false.
Proof. induction 1 as [|c s Hc _ IH]; simpl; [done | by rewrite Hc, IH]. Qed.

Lemma text_encodable (s : str) : text s → existsb surrogate s = false.
Proof.
  intros Hs. apply existsb_surrogate_false. eapply Forall_impl; [exact Hs|].
  intros c [Hc _]. by apply surrogate_false.
Qed.

Lemma printable_encodable (s : str) :
  Forall printable s → existsb surrogate s = false.
Proof.
  intros Hs. apply existsb_surrogate_false. eapply Forall_impl; [exact Hs|].
  intros c Hc. unfold printable in Hc. apply surrogate_false. lia.
Qed.

(** The document of a post can be encoded when its content can: the
    front matter is ASCII whatever the fields hold. *)
Lemma md_encodable (p : Post.t) :
  text (Post.content p) → existsb surrogate (Post.md p) = false.
Proof.
  intros Hc. unfold Post.md. rewrite existsb_app.
  rewrite (printable_encodable _ (front_matter_printable p)). simpl.
  by apply text_encodable.
Qed.



Lemma add_post_file post s s' :
  Constructor.add_post post s = (Ok (), s') →
  fs s' !! index_path s post = Some (File (Post.md post)).
Proof.
  unfold Constructor.add_post.
  intros (dir & s1 & Hdir & H)%bind_ok.
  apply bind_ok in H as ([] & s2 & Hmk & Hwr).
  apply posts_directory_ok in Hdir as (-> & _ & _).
  apply write_text_inv in Hwr as (-> & _ & _ & _). simpl.
  by rewrite lookup_insert_eq.
Qed.

Section Idempotence.
Context `{!HtmlEntities}.

(** C9: when [add_post] has written a post, its file holds the rendered
    document, and writing the same post again returns normally and
    leaves the whole state, the filesystem included, as it was; an
    [add_post] whose [index.md] is named without [..] leaves every
    other entry that is named without [..] from the same root untouched
    (with [..] two different paths can name one file); and a run of the
    pipeline, whatever its outcome, removes nothing: a directory that
    existed before it is still a directory after it, a regular file
    still a regular file. *)
Theorem add_post_idempotent_nothing_removed :
  (∀ post s s',
     Constructor.add_post post s = (Ok (), s') →
     fs s' !! index_path s post = Some (File (Post.md post))
     ∧ Constructor.add_post post s' = (Ok (), s'))
  ∧ (∀ post s q n,
       direct (index_path s post) → direct q →
       p_root q = p_root (index_path s post) →
       q ≠ index_path s post → fs s !! q = Some n →
       fs (snd (Constructor.add_post post s)) !! q = Some n)
  ∧ (∀ fuel s, fs_extends (fs s) (fs (snd (main fuel s)))).
Proof.
  split; [|split].
  - intros post s s' Hrun.
    split; [by apply add_post_file | by apply (add_post_again post s)].
  - intros post s q n _ _ _. apply add_post_frame.
  - intros fuel s. pose proof (main_keeps_files fuel s) as Hkeep.
    destruct (main fuel s) as [[a| |] s']; simpl; [by destruct Hkeep | done..].
Qed.
End Idempotence.

(** ** A reference that the cache lacks *)

Lemma cache_lookup_absent cache i :
  absent_from cache i → cache_lookup cache i = Raise (KeyError i).
Proof. intros (k & Hk & Hnone). unfold cache_lookup. by rewrite Hk, Hnone. Qed.

Lemma resolve_names_missing_ready (acc : M (gmap Key JSON)) cache s
    before i after names :
  acc s = (Ok cache, s) →
  Forall2 (name_in cache) before names → absent_from cache i →
  Extractor.resolve_names acc (before ++ i :: after) s = (Raise (KeyError i), s).
Proof.
  intros Hacc Hbefore Hi.
  induction Hbefore as [|j name before names Hj _ IH]; simpl; monad.
  - by rewrite Hacc, (cache_lookup_absent _ _ Hi).
  - destruct (cache_lookup_name _ _ _ Hj) as (x & Hx & Hn).
    rewrite Hacc, Hx, Hn. simpl. by rewrite IH.
Qed.

Lemma resolve_names_missing (acc : M (gmap Key JSON)) cache s s'
    before i after names :
  acc s = (Ok cache, s') → acc s' = (Ok cache, s') →
  Forall2 (name_in cache) before names → absent_from cache i →
  Extractor.resolve_names acc (before ++ i :: after) s = (Raise (KeyError i), s').
Proof.
  intros Hacc Hmemo Hbefore Hi.
  destruct Hbefore as [|j name before names Hj Hrest]; simpl; monad.
  - by rewrite Hacc, (cache_lookup_absent _ _ Hi).
  - destruct (cache_lookup_name _ _ _ Hj) as (x & Hx & Hn).
    rewrite Hacc, Hx, Hn. simpl.
    by rewrite (resolve_names_missing_ready acc cache s' before i after names).
Qed.

Lemma same_files_refl s : same_files s s.
Proof. done. Qed.

Lemma same_files_trans s1 s2 s3 :
  same_files s1 s2 → same_files s2 s3 → same_files s1 s3.
Proof. intros [? ?] [? ?]. split; congruence. Qed.

Lemma same_files_respects {A} (m : M A) :
  (∀ s, same_files s (snd (m s))) → respects same_files same_files any m.
Proof.
  intros Hm s. specialize (Hm s). by destruct (m s) as [[a| |] s'].
Qed.

Lemma get_same_files url params headers :
  respects same_files same_files any (Extractor.get url params headers).
Proof.
  apply same_files_respects. intros s. unfold Extractor.get.
  by destruct (http s _ _).
Qed.

Section MissingReference.
Context `{!HtmlEntities}.

Lemma categories_same_files fuel :
  respects same_files same_files any (Extractor.categories fuel).
Proof.
  apply prim_categories;
    [ apply same_files_refl | apply same_files_trans | apply same_files_trans
    | apply same_files_refl | apply get_same_files
    | intros v; by apply same_files_respects ].
Qed.

Lemma tags_same_files fuel :
  respects same_files same_files any (Extractor.tags fuel).
Proof.
  apply prim_tags;
    [ apply same_files_refl | apply same_files_trans | apply same_files_trans
    | apply same_files_refl | apply get_same_files
    | intros v; by apply same_files_respects ].
Qed.

Lemma enhance_post_same_files fuel data :
  respects same_files same_files any (Extractor.enhance_post fuel data).
Proof.
  apply respects_enhance_post;
    [ apply same_files_refl | apply same_files_trans | apply same_files_trans
    | apply same_files_refl | apply categories_same_files
    | apply tags_same_files ].
Qed.

Lemma next_same_files g :
  respects same_files same_files any (Extractor.next g).
Proof.
  apply respects_next_any;
    [ apply same_files_refl | apply same_files_trans | apply same_files_trans
    | apply same_files_refl | apply get_same_files ].
Qed.

(** The normalizer on a record with a reference that its cache lacks. *)
Lemma enhance_post_missing fuel data r d1 d2 i s s' :
  has_fields data r →
  naive_iso (raw_date_gmt r) d1 →
  naive_iso (raw_modified_gmt r) d2 →
  missing_reference fuel r i s s' →
  Extractor.enhance_post fuel data s = (Raise (KeyError i), s').
Proof.
  intros (Hd & Hm & Ht & Hs & Hc & Hg & Hct & Hex) Hd1 Hd2 Hmiss.
  unfold Extractor.enhance_post. monad.
  rewrite (utc_field_naive _ _ _ _ Hd Hd1), (utc_field_naive _ _ _ _ Hm Hd2).
  rewrite (rendered_field_text _ _ _ Ht), Hs. simpl.
  unfold Extractor.id_list. rewrite Hc. simpl.
  destruct Hmiss as [(cache & before & after & names & Hids & Hacc & Hbefore & Hi)
                    |(cnames & mid & cache & before & after & names
                      & Hcats & Hids & Hacc & Hbefore & Hi)].
  - rewrite Hids.
    by rewrite (resolve_names_missing _ cache s s' before i after names)
      by eauto using categories_again.
  - rewrite (resolve_names_through _ _ _ _ _ (categories_again fuel) Hcats).
    rewrite Hg. simpl. rewrite Hids.
    by rewrite (resolve_names_missing _ cache mid s' before i after names)
      by eauto using tags_again.
Qed.

(** C4: when the driving loop pulls a raw record that references a
    category or tag ID absent from the corresponding cache, the
    normalization raises [KeyError] for this ID, the loop ends with this
    exception, and the filesystem is what it was when the record was
    pulled: the file of this post is not written, and whatever earlier
    iterations of the loop wrote is still there. *)
Theorem missing_reference_aborts_run fuel g s data g' s1 r d1 d2 i s2 :
  Extractor.next g s = (Ok (Some data, g'), s1) →
  has_fields data r →
  naive_iso (raw_date_gmt r) d1 →
  naive_iso (raw_modified_gmt r) d2 →
  missing_reference fuel r i s1 s2 →
  Extractor.enhance_post fuel data s1 = (Raise (KeyError i), s2)
  ∧ main_loop (S fuel) g s = (Raise (KeyError i), s2)
  ∧ fs s2 = fs s.
Proof.
  intros Hnext Hf Hd1 Hd2 Hmiss.
  pose proof (enhance_post_missing _ _ _ _ _ _ _ _ Hf Hd1 Hd2 Hmiss) as Hraise.
  split; [done|]. split.
  - simpl. unfold Extractor.next_post. monad. by rewrite Hnext, Hraise.
  - pose proof (next_same_files g s) as H1. rewrite Hnext in H1.
    pose proof (enhance_post_same_files fuel data s1) as H2.
    rewrite Hraise in H2. destruct H1 as [[E1 _] _], H2 as [E2 _]. congruence.
Qed.

(** An iteration of the loop that succeeds is followed by the rest of
    the loop. *)
Lemma main_loop_unroll fuel g s post g' s1 s2 :
  Extractor.next_post fuel g s = (Ok (Some post, g'), s1) →
  Constructor.add_post post s1 = (Ok (), s2) →
  main_loop (S fuel) g s = main_loop fuel g' s2.
Proof. intros H1 H2. simpl. monad. by rewrite H1, H2. Qed.
End MissingReference.

(** ** The reference caches: one fetch, then read-only *)

Lemma while_test_run g page s :
  ∃ r, Extractor.while_test g page s
       = (r, set_sent (sent s ++ [page_request (Extractor.g_url g) page]) s)
       ∧ match r with
         | Ok (Some _, g') => ∃ rest, g' = Extractor.resume g (Extractor.InPage page rest)
         | Ok (None, g') => g' = Extractor.resume g Extractor.Finished
         | _ => True
         end.
Proof.
  unfold Extractor.while_test. monad. rewrite get_spec.
  rewrite (left_id_L ∅ (∪)). fold (page_request (Extractor.g_url g) page).
  destruct (http s _ _) as [[[j|]]|]; simpl; [|by eexists..].
  destruct j as [| | | |[|x l]|]; eexists; (split; [reflexivity|]); simpl; eauto.
Qed.

Lemma set_sent_app s l1 l2 :
  set_sent (sent (set_sent (sent s ++ l1) s) ++ l2) (set_sent (sent s ++ l1) s)
  = set_sent (sent s ++ l1 ++ l2) s.
Proof. unfold set_sent. simpl. by rewrite app_assoc. Qed.

Lemma set_sent_nil s : set_sent (sent s ++ []) s = s.
Proof. destruct s. unfold set_sent. simpl. by rewrite app_nil_r. Qed.

(** What one [next] does to the state: it sends at most one request, for
    the page that the frame is due to ask for; a finished generator sends
    none and stays finished. *)
Lemma next_run g s :
  ∃ r (k : nat), Extractor.next g s
    = (r, set_sent (sent s ++ page_requests (Extractor.g_url g)
                                (next_page (Extractor.g_frame g)) k) s)
    ∧ (Extractor.g_frame g = Extractor.Finished → k = 0%nat ∧ r = Ok (None, g))
    ∧ match r with
      | Ok (o, g') =>
          Extractor.g_url g' = Extractor.g_url g
          ∧ (Extractor.g_frame g' = Extractor.Finished
             ∨ next_page (Extractor.g_frame g')
               = next_page (Extractor.g_frame g) + Z.of_nat k)
      | _ => True
      end.
Proof.
  unfold Extractor.next. destruct g as [url bp [|page [|x rest]|]]; simpl.
  - destruct (while_test_run (Extractor.mkGenerator url bp Extractor.Fresh) 1 s)
      as (r & -> & Hr).
    exists r, 1%nat. split; [done|]. split; [done|].
    destruct r as [[[x|] g']| |]; try done.
    + destruct Hr as [rest ->]. simpl. split; [done|]. by right.
    + subst g'. simpl. split; [done|]. by left.
  - destruct (while_test_run
                (Extractor.mkGenerator url bp (Extractor.InPage page [])) (page + 1) s)
      as (r & -> & Hr).
    exists r, 1%nat. split.
    { unfold page_requests. simpl. by rewrite Z.add_0_r. }
    split; [done|].
    destruct r as [[[x|] g']| |]; try done.
    + destruct Hr as [rest ->]. simpl. split; [done|]. right. lia.
    + subst g'. simpl. split; [done|]. by left.
  - eexists _, 0%nat. split; [by rewrite set_sent_nil|]. simpl.
    split; [done|]. split; [done|]. right. lia.
  - eexists _, 0%nat. split; [by rewrite set_sent_nil|]. simpl.
    split; [done|]. split; [done|]. by left.
Qed.

Lemma page_requests_app url first k1 k2 :
  page_requests url first k1 ++ page_requests url (first + Z.of_nat k1) k2
  = page_requests url first (k1 + k2).
Proof.
  revert first. induction k1 as [|k1 IH]; intros first.
  - simpl. by rewrite Z.add_0_r.
  - change (S k1 + k2)%nat with (S (k1 + k2)). rewrite !page_requests_S.
    simpl. f_equal. rewrite <- IH. do 2 f_equal. lia.
Qed.

(** The requests of a whole dictionary comprehension over a generator are
    those for successive pages. *)
Lemma dict_by_id_run fuel : ∀ g acc s,
  ∃ r (k : nat), Extractor.dict_by_id fuel g acc s
    = (r, set_sent (sent s ++ page_requests (Extractor.g_url g)
                                (next_page (Extractor.g_frame g)) k) s)
    ∧ (Extractor.g_frame g = Extractor.Finished → k = 0%nat).
Proof.
  induction fuel as [|fuel IH]; intros g acc s; simpl.
  - exists Timeout, 0%nat. by rewrite set_sent_nil.
  - monad. destruct (next_run g s) as (r & k & -> & Hfin & Hr).
    assert (Hstop : ∀ r0 : Result (gmap Key JSON),
              r ≠ Ok (None, g) →
              ∃ r1 k1,
                (r0, set_sent (sent s ++ page_requests (Extractor.g_url g)
                                 (next_page (Extractor.g_frame g)) k) s)
                = (r1, set_sent (sent s ++ page_requests (Extractor.g_url g)
                                 (next_page (Extractor.g_frame g)) k1) s)
                ∧ (Extractor.g_frame g = Extractor.Finished → k1 = 0%nat)).
    { intros r0 Hne. exists r0, k. split; [done|].
      intros Hf. by destruct (Hfin Hf) as [_ ?]. }
    destruct r as [[[x|] g']| |]; [| |by apply Hstop..].
    + destruct Hr as (Hurl & Hframe).
      destruct (getitem x (py "id")) as [i| |]; [|by apply Hstop..].
      destruct (key_of i) as [key| |]; [|by apply Hstop..].
      destruct (IH g' (<[key := x]> acc)
                  (set_sent (sent s ++ page_requests (Extractor.g_url g)
                                         (next_page (Extractor.g_frame g)) k) s))
        as (r' & k' & Hrun & Hfin').
      rewrite Hrun, Hurl.
      assert (Hk : Extractor.g_frame g = Extractor.Finished → False).
      { intros Hf. by destruct (Hfin Hf) as [_ ?]. }
      destruct Hframe as [Hdone|Hnext].
      * rewrite (Hfin' Hdone), set_sent_app. simpl. rewrite app_nil_r.
        exists r', k. split; [done | by intros ?%Hk].
      * rewrite Hnext, set_sent_app, page_requests_app. exists r', (k + k')%nat.
        split; [done | by intros ?%Hk].
    + exists (Ok acc), k. split; [done|]. intros Hf. by destruct (Hfin Hf).
Qed.

Lemma requests_to_app url l1 l2 :
  requests_to url (l1 ++ l2) = requests_to url l1 ++ requests_to url l2.
Proof. apply List.filter_app. Qed.

Lemma requests_to_same url first k :
  requests_to url (page_requests url first k) = page_requests url first k.
Proof.
  unfold requests_to, page_requests. induction (seq 0 k) as [|i l IH]; [done|].
  simpl. rewrite bool_decide_eq_true_2 by done. by rewrite IH.
Qed.

Lemma requests_to_other url url' first k :
  url' ≠ url → requests_to url (page_requests url' first k) = [].
Proof.
  intros Hne. unfold requests_to, page_requests.
  induction (seq 0 k) as [|i l IH]; [done|].
  simpl. by rewrite bool_decide_eq_false_2.
Qed.

Lemma endpoints_distinct b b' :
  Extractor.categories_url b ≠ Extractor.tags_url b'
  ∧ Extractor.categories_url b ≠ Extractor.posts_url b'
  ∧ Extractor.tags_url b ≠ Extractor.posts_url b'.
Proof.
  unfold Extractor.categories_url, Extractor.tags_url, Extractor.posts_url.
  repeat split; intros E%(f_equal (@rev N));
    rewrite !rev_app_distr in E; vm_compute (rev (py _)) in E; simpl in E;
    congruence.
Qed.

Section FetchOnce.
Variable slot : ExtractorAttrs → option (gmap Key JSON).
Variable endpoint : str → str.
Variable b : str.

Local Abbreviation Inv := (fetch_inv slot endpoint b).
Local Abbreviation Rok := (fetch_ok slot endpoint b).
Local Abbreviation Rerr := (fetch_err slot endpoint b).

Lemma fetch_inv_once s : Inv s → fetched_once (endpoint b) (sent s).
Proof.
  intros [_ Hs]. destruct (slot (ext s)); [done|]. by exists 0%nat.
Qed.

Lemma fetch_ok_refl s : Rok s s.
Proof. by intros ?. Qed.

Lemma fetch_ok_trans s1 s2 s3 : Rok s1 s2 → Rok s2 s3 → Rok s1 s3.
Proof. unfold fetch_ok. auto. Qed.

Lemma fetch_ok_err s1 s2 s3 : Rok s1 s2 → Rerr s2 s3 → Rerr s1 s3.
Proof. unfold fetch_ok, fetch_err. auto. Qed.

Lemma fetch_err_refl s : Rerr s s.
Proof. intros ?. by apply fetch_inv_once. Qed.

(** Requests to another URL do not disturb the invariant. *)
Lemma fetch_inv_other s url first k :
  url ≠ endpoint b → Inv s →
  Inv (set_sent (sent s ++ page_requests url first k) s).
Proof.
  intros Hne [Hb Hs]. split; [done|]. simpl. unfold fetched_once in *.
  by rewrite requests_to_app, (requests_to_other _ _ _ _ Hne), app_nil_r.
Qed.

(** An operation that neither sends nor touches the extractor. *)
Lemma silent_respects {A} (m : M A) :
  (∀ s, sent (snd (m s)) = sent s ∧ ext (snd (m s)) = ext s) →
  respects Rok Rerr any m.
Proof.
  intros Hm s. specialize (Hm s).
  assert (G : ∀ s', sent s' = sent s ∧ ext s' = ext s → Inv s → Inv s').
  { intros s' [Es Ee]. unfold fetch_inv. by rewrite Es, Ee. }
  destruct (m s) as [[a| |] s']; simpl in Hm.
  - split; [intros Hinv; by apply G | done].
  - intros Hinv. by apply fetch_inv_once, G.
  - intros Hinv. by apply fetch_inv_once, G.
Qed.

Lemma next_fetch g :
  Extractor.g_url g ≠ endpoint b →
  respects Rok Rerr (fun r => Extractor.g_url (snd r) ≠ endpoint b)
           (Extractor.next g).
Proof.
  intros Hg s. destruct (next_run g s) as (r & k & -> & _ & Hr).
  destruct r as [[o g']| |].
  - split; [intros Hinv; by apply fetch_inv_other|]. simpl.
    by rewrite (proj1 Hr).
  - intros Hinv. by apply fetch_inv_once, fetch_inv_other.
  - intros Hinv. by apply fetch_inv_once, fetch_inv_other.
Qed.

(** A dictionary comprehension over another endpoint. *)
Lemma dict_by_id_other fuel g acc :
  Extractor.g_url g ≠ endpoint b →
  respects Rok Rerr any (Extractor.dict_by_id fuel g acc).
Proof.
  intros Hg s. destruct (dict_by_id_run fuel g acc s) as (r & k & -> & _).
  destruct r as [a| |].
  - split; [intros Hinv; by apply fetch_inv_other | done].
  - intros Hinv. by apply fetch_inv_once, fetch_inv_other.
  - intros Hinv. by apply fetch_inv_once, fetch_inv_other.
Qed.

(** The first fetch from this endpoint. *)
Lemma fetch_inv_first s k :
  Inv s → slot (ext s) = None →
  requests_to (endpoint b) (sent s ++ page_requests (endpoint b) 1 k)
  = page_requests (endpoint b) 1 k.
Proof.
  intros [_ Hs] Hnone. rewrite Hnone in Hs.
  by rewrite requests_to_app, Hs, requests_to_same.
Qed.
End FetchOnce.

Lemma categories_fetch_this b fuel :
  respects (fetch_ok cached_categories Extractor.categories_url b)
           (fetch_err cached_categories Extractor.categories_url b)
           any (Extractor.categories fuel).
Proof.
  intros s. unfold Extractor.categories.
  destruct (cached_categories (ext s)) eqn:E; [split; [apply fetch_ok_refl | done]|].
  monad.
  destruct (dict_by_id_run fuel
              (Extractor.pageWhileList
                 (Extractor.categories_url (base_url (ext s)))
                 Extractor.default_base_params) ∅ s) as (r & k & -> & _).
  simpl Extractor.g_url. simpl next_page.
  destruct r as [v| |]; simpl.
  - split; [|done]. intros Hinv. pose proof Hinv as [Hb _].
    split; [done|]. simpl. exists k. rewrite Hb.
    by apply (fetch_inv_first cached_categories Extractor.categories_url b s k).
  - intros Hinv. pose proof Hinv as [Hb _]. exists k. simpl. rewrite Hb.
    by apply (fetch_inv_first cached_categories Extractor.categories_url b s k).
  - intros Hinv. pose proof Hinv as [Hb _]. exists k. simpl. rewrite Hb.
    by apply (fetch_inv_first cached_categories Extractor.categories_url b s k).
Qed.

Lemma tags_fetch_this b fuel :
  respects (fetch_ok cached_tags Extractor.tags_url b)
           (fetch_err cached_tags Extractor.tags_url b)
           any (Extractor.tags fuel).
Proof.
  intros s. unfold Extractor.tags.
  destruct (cached_tags (ext s)) eqn:E; [split; [apply fetch_ok_refl | done]|].
  monad.
  destruct (dict_by_id_run fuel
              (Extractor.pageWhileList
                 (Extractor.tags_url (base_url (ext s)))
                 Extractor.default_base_params) ∅ s) as (r & k & -> & _).
  simpl Extractor.g_url. simpl next_page.
  destruct r as [v| |]; simpl.
  - split; [|done]. intros Hinv. pose proof Hinv as [Hb _].
    split; [done|]. simpl. exists k. rewrite Hb.
    by apply (fetch_inv_first cached_tags Extractor.tags_url b s k).
  - intros Hinv. pose proof Hinv as [Hb _]. exists k. simpl. rewrite Hb.
    by apply (fetch_inv_first cached_tags Extractor.tags_url b s k).
  - intros Hinv. pose proof Hinv as [Hb _]. exists k. simpl. rewrite Hb.
    by apply (fetch_inv_first cached_tags Extractor.tags_url b s k).
Qed.

Lemma tags_fetch_other b fuel :
  respects (fetch_ok cached_categories Extractor.categories_url b)
           (fetch_err cached_categories Extractor.categories_url b)
           any (Extractor.tags fuel).
Proof.
  intros s. unfold Extractor.tags.
  destruct (cached_tags (ext s)) eqn:E; [split; [apply fetch_ok_refl | done]|].
  monad.
  pose proof (dict_by_id_other cached_categories Extractor.categories_url b fuel
                (Extractor.pageWhileList (Extractor.tags_url (base_url (ext s)))
                   Extractor.default_base_params) ∅) as Hrun.
  specialize (Hrun (not_eq_sym (proj1 (endpoints_distinct _ _))) s).
  destruct (Extractor.dict_by_id _ _ _ s) as [[v| |] s1]; simpl; [|done..].
  split; [|done]. intros Hinv. by apply Hrun in Hinv.
Qed.

Lemma categories_fetch_other b fuel :
  respects (fetch_ok cached_tags Extractor.tags_url b)
           (fetch_err cached_tags Extractor.tags_url b)
           any (Extractor.categories fuel).
Proof.
  intros s. unfold Extractor.categories.
  destruct (cached_categories (ext s)) eqn:E; [split; [apply fetch_ok_refl | done]|].
  monad.
  pose proof (dict_by_id_other cached_tags Extractor.tags_url b fuel
                (Extractor.pageWhileList
                   (Extractor.categories_url (base_url (ext s)))
                   Extractor.default_base_params) ∅) as Hrun.
  specialize (Hrun (proj1 (endpoints_distinct _ _)) s).
  destruct (Extractor.dict_by_id _ _ _ s) as [[v| |] s1]; simpl; [|done..].
  split; [|done]. intros Hinv. by apply Hrun in Hinv.
Qed.

Lemma add_post_silent slot endpoint b post :
  respects (fetch_ok slot endpoint b) (fetch_err slot endpoint b) any
           (Constructor.add_post post).
Proof.
  apply respects_add_post.
  - apply fetch_ok_refl.
  - apply fetch_ok_trans.
  - apply fetch_ok_err.
  - intros p. apply silent_respects. intros s. unfold os_mkdir.
    destruct (node_at (fs s) (parent p)) as [[|?]|];
      [destruct (node_at (fs s) p)|..]; done.
  - intros p data. apply silent_respects. intros s. unfold write_text.
    destruct (node_at (fs s) (parent p)) as [[|?]|];
      [destruct (node_at (fs s) p) as [[|?]|]|..];
      try destruct (existsb surrogate data); done.
  - intros v. by apply silent_respects.
Qed.

Section SingleFetch.
Context `{!HtmlEntities}.

Lemma main_fetch_categories b fuel :
  respects (fetch_ok cached_categories Extractor.categories_url b)
           (fetch_err cached_categories Extractor.categories_url b)
           any (main fuel).
Proof.
  apply (respects_main _ _
           (fun g => Extractor.g_url g ≠ Extractor.categories_url b)).
  - apply fetch_ok_refl.
  - apply fetch_ok_trans.
  - apply fetch_ok_err.
  - apply fetch_err_refl.
  - apply next_fetch.
  - apply categories_fetch_this.
  - apply tags_fetch_other.
  - intros s. split; [by apply fetch_ok_refl|]. simpl.
    apply not_eq_sym, endpoints_distinct.
  - apply add_post_silent.
Qed.

Lemma main_fetch_tags b fuel :
  respects (fetch_ok cached_tags Extractor.tags_url b)
           (fetch_err cached_tags Extractor.tags_url b)
           any (main fuel).
Proof.
  apply (respects_main _ _
           (fun g => Extractor.g_url g ≠ Extractor.tags_url b)).
  - apply fetch_ok_refl.
  - apply fetch_ok_trans.
  - apply fetch_ok_err.
  - apply fetch_err_refl.
  - apply next_fetch.
  - apply categories_fetch_other.
  - apply tags_fetch_this.
  - intros s. split; [by apply fetch_ok_refl|]. simpl.
    apply not_eq_sym, endpoints_distinct.
  - apply add_post_silent.
Qed.

(** In a run of the script each reference endpoint sees at most one
    paginated fetch. *)
Lemma main_fetches_once fuel server disk url target :
  let s' := snd (main fuel (initial server disk url target)) in
  fetched_once (Extractor.categories_url url) (sent s')
  ∧ fetched_once (Extractor.tags_url url) (sent s').
Proof.
  intros s'. subst s'.
  pose proof (main_fetch_categories url fuel (initial server disk url target)) as Hc.
  pose proof (main_fetch_tags url fuel (initial server disk url target)) as Ht.
  assert (Ic : fetch_inv cached_categories Extractor.categories_url url
                 (initial server disk url target)) by done.
  assert (It : fetch_inv cached_tags Extractor.tags_url url
                 (initial server disk url target)) by done.
  destruct (main fuel (initial server disk url target)) as [[[]| |] s']; simpl.
  - destruct Hc as [Hc _], Ht as [Ht _]. split.
    + by apply (fetch_inv_once cached_categories), Hc.
    + by apply (fetch_inv_once cached_tags), Ht.
  - split; [by apply Hc | by apply Ht].
  - split; [by apply Hc | by apply Ht].
Qed.
End SingleFetch.

Lemma keeps_caches_refl s : keeps_caches s s.
Proof. by split. Qed.

Lemma keeps_caches_trans s1 s2 s3 :
  keeps_caches s1 s2 → keeps_caches s2 s3 → keeps_caches s1 s3.
Proof. intros [? ?] [? ?]. split; auto. Qed.

Lemma same_ext_respects {A} (m : M A) :
  (∀ s, ext (snd (m s)) = ext s) → respects keeps_caches keeps_caches any m.
Proof.
  intros Hm s. specialize (Hm s).
  assert (G : ∀ s', ext s' = ext s → keeps_caches s s').
  { intros s' E. unfold keeps_caches. by rewrite E. }
  destruct (m s) as [[a| |] s']; [split; [|done]|..]; by apply G.
Qed.

Lemma get_keeps_caches url params headers :
  respects keeps_caches keeps_caches any (Extractor.get url params headers).
Proof.
  apply same_ext_respects. intros s. unfold Extractor.get.
  by destruct (http s _ _).
Qed.

Lemma categories_keeps_caches fuel :
  respects keeps_caches keeps_caches any (Extractor.categories fuel).
Proof.
  intros s. unfold Extractor.categories.
  destruct (cached_categories (ext s)) eqn:E;
    [split; [apply keeps_caches_refl | done]|].
  monad. destruct (dict_by_id_run fuel
                     (Extractor.pageWhileList
                        (Extractor.categories_url (base_url (ext s)))
                        Extractor.default_base_params) ∅ s) as (r & k & -> & _).
  destruct r as [v| |]; simpl; [split; [|done]|..]; split; simpl; congruence.
Qed.

Lemma tags_keeps_caches fuel :
  respects keeps_caches keeps_caches any (Extractor.tags fuel).
Proof.
  intros s. unfold Extractor.tags.
  destruct (cached_tags (ext s)) eqn:E;
    [split; [apply keeps_caches_refl | done]|].
  monad. destruct (dict_by_id_run fuel
                     (Extractor.pageWhileList
                        (Extractor.tags_url (base_url (ext s)))
                        Extractor.default_base_params) ∅ s) as (r & k & -> & _).
  destruct r as [v| |]; simpl; [split; [|done]|..]; split; simpl; congruence.
Qed.

(** A comprehension over a fresh generator asks for page 1 first. *)
Lemma dict_by_id_first fuel g acc s :
  Extractor.g_frame g = Extractor.Fresh →
  ∃ r (k : nat), Extractor.dict_by_id (S fuel) g acc s
    = (r, set_sent (sent s ++ page_requests (Extractor.g_url g) 1 (S k)) s).
Proof.
  intros Hfresh. cbn [Extractor.dict_by_id]. monad.
  unfold Extractor.next. rewrite Hfresh.
  destruct (while_test_run g 1 s) as (r & -> & Hr).
  assert (Hone : ∀ r0 : Result (gmap Key JSON),
            ∃ r1 (k : nat),
              (r0, set_sent (sent s ++ [page_request (Extractor.g_url g) 1]) s)
              = (r1, set_sent (sent s ++ page_requests (Extractor.g_url g) 1 (S k)) s)).
  { intros r0. by exists r0, 0%nat. }
  destruct r as [[[x|] g']| |]; simpl; [| apply Hone..].
  destruct Hr as [rest ->].
  destruct (getitem x (py "id")) as [i| |]; simpl; [|apply Hone..].
  destruct (key_of i) as [key| |]; simpl; [|apply Hone..].
  destruct (dict_by_id_run fuel (Extractor.resume g (Extractor.InPage 1 rest))
              (<[key := x]> acc)
              (set_sent (sent s ++ [page_request (Extractor.g_url g) 1]) s))
    as (r' & k' & -> & _).
  exists r', k'. f_equal. simpl.
  rewrite page_requests_S. unfold set_sent. simpl.
  by rewrite <- app_assoc.
Qed.

(** The first access to a cached property sends the request for page 1
    of its endpoint before anything else, and a mapping that it returns
    is the one that it has stored. *)
Lemma categories_first_fetch fuel s :
  cached_categories (ext s) = None →
  ∃ r s' (k : nat),
    Extractor.categories (S fuel) s = (r, s')
    ∧ sent s' = sent s ++ page_requests
                            (Extractor.categories_url (base_url (ext s))) 1 (S k)
    ∧ ∀ cache, r = Ok cache → cached_categories (ext s') = Some cache.
Proof.
  intros E.
  destruct (Extractor.categories (S fuel) s) as [r s'] eqn:Hrun.
  pose proof Hrun as Hsent.
  unfold Extractor.categories in Hsent. rewrite E in Hsent. monad.
  destruct (dict_by_id_first fuel
              (Extractor.pageWhileList
                 (Extractor.categories_url (base_url (ext s)))
                 Extractor.default_base_params) ∅ s eq_refl) as (r1 & k & Hd).
  rewrite Hd in Hsent. simpl in Hsent.
  exists r, s', k. split; [done|]. split.
  - destruct r1; simpl in Hsent; by injection Hsent as <- <-.
  - intros cache ->. by apply categories_stored in Hrun.
Qed.

Lemma tags_first_fetch fuel s :
  cached_tags (ext s) = None →
  ∃ r s' (k : nat),
    Extractor.tags (S fuel) s = (r, s')
    ∧ sent s' = sent s ++ page_requests
                            (Extractor.tags_url (base_url (ext s))) 1 (S k)
    ∧ ∀ cache, r = Ok cache → cached_tags (ext s') = Some cache.
Proof.
  intros E.
  destruct (Extractor.tags (S fuel) s) as [r s'] eqn:Hrun.
  pose proof Hrun as Hsent.
  unfold Extractor.tags in Hsent. rewrite E in Hsent. monad.
  destruct (dict_by_id_first fuel
              (Extractor.pageWhileList
                 (Extractor.tags_url (base_url (ext s)))
                 Extractor.default_base_params) ∅ s eq_refl) as (r1 & k & Hd).
  rewrite Hd in Hsent. simpl in Hsent.
  exists r, s', k. split; [done|]. split.
  - destruct r1; simpl in Hsent; by injection Hsent as <- <-.
  - intros cache ->. by apply tags_stored in Hrun.
Qed.

(** Resolving through a property that has its mapping leaves the state
    as it is. *)
Lemma resolve_names_memoized (acc : M (gmap Key JSON)) cache ids s :
  acc s = (Ok cache, s) → snd (Extractor.resolve_names acc ids s) = s.
Proof.
  intros Hacc. induction ids as [|i ids IH]; simpl; [done|]. monad.
  rewrite Hacc.
  destruct (cache_lookup cache i) as [x| |]; simpl; [|done..].
  destruct (getitem x (py "name")) as [n| |]; simpl; [|done..].
  destruct (as_str n) as [name| |]; simpl; [|done..].
  destruct (Extractor.resolve_names acc ids s) as [[names| |] s1]; simpl in *;
    by subst.
Qed.

(** The first ID that is resolved triggers the fetch: whatever the
    outcome, the requests of the resolution are those of one paginated
    fetch that starts at page 1. *)
Lemma resolve_names_first_fetch fuel i ids s :
  cached_categories (ext s) = None →
  ∃ k : nat,
    sent (snd (Extractor.resolve_names (Extractor.categories (S fuel))
                 (i :: ids) s))
    = sent s ++ page_requests
                  (Extractor.categories_url (base_url (ext s))) 1 (S k).
Proof.
  intros E. destruct (categories_first_fetch fuel s E)
    as (r & s' & k & Hrun & Hsent & Hstore).
  exists k. cbn [Extractor.resolve_names]. monad. rewrite Hrun.
  destruct r as [cache| |]; simpl; [|done..].
  specialize (Hstore cache eq_refl).
  pose proof (categories_memoized (S fuel) s' cache Hstore) as Hmemo.
  destruct (cache_lookup cache i) as [x| |]; simpl; [|done..].
  destruct (getitem x (py "name")) as [n| |]; simpl; [|done..].
  destruct (as_str n) as [name| |]; simpl; [|done..].
  pose proof (resolve_names_memoized _ cache ids s' Hmemo) as Hsame.
  destruct (Extractor.resolve_names _ ids s') as [[names| |] s1]; simpl in *;
    by subst.
Qed.

Lemma resolve_names_first_fetch_tags fuel i ids s :
  cached_tags (ext s) = None →
  ∃ k : nat,
    sent (snd (Extractor.resolve_names (Extractor.tags (S fuel))
                 (i :: ids) s))
    = sent s ++ page_requests
                  (Extractor.tags_url (base_url (ext s))) 1 (S k).
Proof.
  intros E. destruct (tags_first_fetch fuel s E)
    as (r & s' & k & Hrun & Hsent & Hstore).
  exists k. cbn [Extractor.resolve_names]. monad. rewrite Hrun.
  destruct r as [cache| |]; simpl; [|done..].
  specialize (Hstore cache eq_refl).
  pose proof (tags_memoized (S fuel) s' cache Hstore) as Hmemo.
  destruct (cache_lookup cache i) as [x| |]; simpl; [|done..].
  destruct (getitem x (py "name")) as [n| |]; simpl; [|done..].
  destruct (as_str n) as [name| |]; simpl; [|done..].
  pose proof (resolve_names_memoized _ cache ids s' Hmemo) as Hsame.
  destruct (Extractor.resolve_names _ ids s') as [[names| |] s1]; simpl in *;
    by subst.
Qed.

Lemma next_keeps_caches g :
  respects keeps_caches keeps_caches any (Extractor.next g).
Proof.
  apply respects_next_any;
    [ apply keeps_caches_refl | apply keeps_caches_trans
    | apply keeps_caches_trans | apply keeps_caches_refl
    | apply get_keeps_caches ].
Qed.

Lemma add_post_keeps_caches post :
  respects keeps_caches keeps_caches any (Constructor.add_post post).
Proof.
  apply respects_add_post.
  - apply keeps_caches_refl.
  - apply keeps_caches_trans.
  - apply keeps_caches_trans.
  - intros p. apply same_ext_respects. intros s. unfold os_mkdir.
    destruct (node_at (fs s) (parent p)) as [[|?]|];
      [destruct (node_at (fs s) p)|..]; done.
  - intros p data. apply same_ext_respects. intros s. unfold write_text.
    destruct (node_at (fs s) (parent p)) as [[|?]|];
      [destruct (node_at (fs s) p) as [[|?]|]|..];
      try destruct (existsb surrogate data); done.
  - intros v. by apply same_ext_respects.
Qed.

Section Caches.
Context `{!HtmlEntities}.

Lemma enhance_post_keeps_caches fuel data :
  respects keeps_caches keeps_caches any (Extractor.enhance_post fuel data).
Proof.
  apply respects_enhance_post;
    [ apply keeps_caches_refl | apply keeps_caches_trans
    | apply keeps_caches_trans | apply keeps_caches_refl
    | apply categories_keeps_caches | apply tags_keeps_caches ].
Qed.

Lemma posts_keeps_caches fuel :
  respects keeps_caches keeps_caches any (Extractor.posts fuel).
Proof.
  apply (respects_posts _ _ any);
    [ apply keeps_caches_refl | apply keeps_caches_trans
    | apply keeps_caches_trans | apply keeps_caches_refl
    | intros g _; eapply respects_weaken; [|apply next_keeps_caches]; done
    | apply categories_keeps_caches | apply tags_keeps_caches
    | intros s; split; [apply keeps_caches_refl | done]
    | intros v s; split; [by split | done] ].
Qed.

Lemma main_keeps_caches fuel :
  respects keeps_caches keeps_caches any (main fuel).
Proof.
  apply (respects_main _ _ any);
    [ apply keeps_caches_refl | apply keeps_caches_trans
    | apply keeps_caches_trans | apply keeps_caches_refl
    | intros g _; eapply respects_weaken; [|apply next_keeps_caches]; done
    | apply categories_keeps_caches | apply tags_keeps_caches
    | intros s; split; [apply keeps_caches_refl | done]
    | apply add_post_keeps_caches ].
Qed.

(** C8: a cached property that has returned a mapping returns the same
    mapping on every later access and leaves the state as it is, so it
    sends nothing; no operation of the script changes a cache that has
    been built; resolving an empty ID list does not touch the property.
    An access to a property whose slot is empty fetches: it sends the
    request for page 1 of its endpoint, then those for the pages that
    follow and nothing else, and a mapping that it returns is stored in
    the slot; the resolution of the first ID of a record is such an
    access, and resolving the IDs after it sends nothing more.  (The
    access is given fuel for one step at least.)  Over a whole run each
    of the two reference endpoints receives the requests of at most one
    paginated fetch. *)
Theorem caches_fetched_once_then_read_only :
  (∀ fuel fuel' s cache s',
     Extractor.categories fuel s = (Ok cache, s') →
     Extractor.categories fuel' s' = (Ok cache, s'))
  ∧ (∀ fuel fuel' s cache s',
       Extractor.tags fuel s = (Ok cache, s') →
       Extractor.tags fuel' s' = (Ok cache, s'))
  ∧ (∀ fuel, respects keeps_caches keeps_caches any (Extractor.categories fuel))
  ∧ (∀ fuel, respects keeps_caches keeps_caches any (Extractor.tags fuel))
  ∧ (∀ g, respects keeps_caches keeps_caches any (Extractor.next g))
  ∧ (∀ fuel data,
       respects keeps_caches keeps_caches any (Extractor.enhance_post fuel data))
  ∧ (∀ fuel, respects keeps_caches keeps_caches any (Extractor.posts fuel))
  ∧ (∀ post, respects keeps_caches keeps_caches any (Constructor.add_post post))
  ∧ (∀ fuel, respects keeps_caches keeps_caches any (main fuel))
  ∧ (∀ (cache : M (gmap Key JSON)) s,
       Extractor.resolve_names cache [] s = (Ok [], s))
  ∧ (∀ fuel s,
       cached_categories (ext s) = None →
       ∃ r s' (k : nat),
         Extractor.categories (S fuel) s = (r, s')
         ∧ sent s' = sent s ++ page_requests
                                 (Extractor.categories_url (base_url (ext s)))
                                 1 (S k)
         ∧ ∀ cache, r = Ok cache → cached_categories (ext s') = Some cache)
  ∧ (∀ fuel s,
       cached_tags (ext s) = None →
       ∃ r s' (k : nat),
         Extractor.tags (S fuel) s = (r, s')
         ∧ sent s' = sent s ++ page_requests
                                 (Extractor.tags_url (base_url (ext s)))
                                 1 (S k)
         ∧ ∀ cache, r = Ok cache → cached_tags (ext s') = Some cache)
  ∧ (∀ fuel i ids s,
       cached_categories (ext s) = None →
       ∃ k : nat,
         sent (snd (Extractor.resolve_names (Extractor.categories (S fuel))
                      (i :: ids) s))
         = sent s ++ page_requests
                       (Extractor.categories_url (base_url (ext s))) 1 (S k))
  ∧ (∀ fuel i ids s,
       cached_tags (ext s) = None →
       ∃ k : nat,
         sent (snd (Extractor.resolve_names (Extractor.tags (S fuel))
                      (i :: ids) s))
         = sent s ++ page_requests
                       (Extractor.tags_url (base_url (ext s))) 1 (S k))
  ∧ (∀ fuel server disk url target,
       let s' := snd (main fuel (initial server disk url target)) in
       fetched_once (Extractor.categories_url url) (sent s')
       ∧ fetched_once (Extractor.tags_url url) (sent s')).
Proof.
  split; [|split].
  { intros fuel fuel' s cache s' Hrun%categories_stored.
    by apply categories_memoized. }
  { intros fuel fuel' s cache s' Hrun%tags_stored. by apply tags_memoized. }
  repeat split;
    auto using categories_keeps_caches, tags_keeps_caches, next_keeps_caches,
               enhance_post_keeps_caches, posts_keeps_caches,
               add_post_keeps_caches, main_keeps_caches,
               categories_first_fetch, tags_first_fetch,
               resolve_names_first_fetch, resolve_names_first_fetch_tags;
    apply main_fetches_once.
Qed.
End Caches.

(** ** The two sides of the state *)

Lemma with_files_self s : with_files s s = s.
Proof. by destruct s. Qed.

Lemma with_files_with_files t1 t2 s1 s2 :
  with_files (with_files t1 s1) (with_files t2 s2) = with_files t1 s2.
Proof. done. Qed.

Lemma net_op_same_files {A} (m : M A) s :
  net_op m → with_files s (snd (m s)) = snd (m s).
Proof.
  intros Hm. specialize (Hm s s). rewrite with_files_self in Hm.
  by rewrite Hm at 2.
Qed.

Lemma file_op_same_net {A} (m : M A) s :
  file_op m → with_files (snd (m s)) s = snd (m s).
Proof.
  intros Hm. specialize (Hm s s). rewrite with_files_self in Hm.
  by rewrite Hm at 2.
Qed.

Lemma net_op_ret {A} (a : A) : net_op (mret a).
Proof. done. Qed.

Lemma net_op_lift {A} (r : Result A) : net_op (lift r).
Proof. done. Qed.

Lemma net_op_timeout {A} : net_op (@timeout A).
Proof. done. Qed.

Lemma net_op_bind {A B} (m : M A) (f : A → M B) :
  net_op m → (∀ a, net_op (f a)) → net_op (m ≫= f).
Proof.
  intros Hm Hf s t. monad. rewrite Hm.
  destruct (m s) as [[a| |] s1]; simpl; [apply Hf | done..].
Qed.

Lemma file_op_ret {A} (a : A) : file_op (mret a).
Proof. done. Qed.

Lemma file_op_bind {A B} (m : M A) (f : A → M B) :
  file_op m → (∀ a, file_op (f a)) → file_op (m ≫= f).
Proof.
  intros Hm Hf s t. monad. rewrite Hm.
  destruct (m s) as [[a| |] s1]; simpl; [apply Hf | done..].
Qed.

Lemma net_op_get url params headers : net_op (Extractor.get url params headers).
Proof.
  intros s t. unfold Extractor.get. simpl.
  by destruct (http s (sent s) _).
Qed.

Lemma net_op_next g : net_op (Extractor.next g).
Proof.
  assert (Hw : ∀ page, net_op (Extractor.while_test g page)).
  { intros page. unfold Extractor.while_test.
    apply net_op_bind; [apply net_op_get|]. intros r.
    apply net_op_bind; [apply net_op_lift|]. intros j.
    destruct j as [| | | |[|x l]|]; apply net_op_ret. }
  unfold Extractor.next.
  destruct (Extractor.g_frame g) as [|page [|x l]|]; auto using net_op_ret.
Qed.

Lemma net_op_dict_by_id fuel : ∀ g acc, net_op (Extractor.dict_by_id fuel g acc).
Proof.
  induction fuel as [|fuel IH]; intros g acc; simpl; [apply net_op_timeout|].
  apply net_op_bind; [apply net_op_next|]. intros [[x|] g'].
  - apply net_op_bind; [apply net_op_lift|]. intros i.
    apply net_op_bind; [apply net_op_lift|]. intros k. apply IH.
  - apply net_op_ret.
Qed.

Lemma net_op_categories fuel : net_op (Extractor.categories fuel).
Proof.
  intros s t. unfold Extractor.categories. simpl.
  destruct (cached_categories (ext s)); [done|].
  refine (net_op_bind _ _ _ _ s t); [apply net_op_dict_by_id|].
  intros val. apply net_op_bind; [done|]. intros _. apply net_op_ret.
Qed.

Lemma net_op_tags fuel : net_op (Extractor.tags fuel).
Proof.
  intros s t. unfold Extractor.tags. simpl.
  destruct (cached_tags (ext s)); [done|].
  refine (net_op_bind _ _ _ _ s t); [apply net_op_dict_by_id|].
  intros val. apply net_op_bind; [done|]. intros _. apply net_op_ret.
Qed.

Lemma net_op_resolve_names (cache : M (gmap Key JSON)) ids :
  net_op cache → net_op (Extractor.resolve_names cache ids).
Proof.
  intros Hc. induction ids as [|i ids IH]; simpl; [apply net_op_ret|].
  apply net_op_bind; [done|]. intros c.
  apply net_op_bind; [apply net_op_lift|]. intros x.
  apply net_op_bind; [apply net_op_lift|]. intros n.
  apply net_op_bind; [apply net_op_lift|]. intros name.
  apply net_op_bind; [done|]. intros names. apply net_op_ret.
Qed.

Section Streaming.
Context `{!HtmlEntities}.

Lemma net_op_enhance_post fuel data : net_op (Extractor.enhance_post fuel data).
Proof.
  unfold Extractor.enhance_post.
  repeat first
    [ apply net_op_ret
    | apply net_op_bind; [|intros ?]
    | apply net_op_lift
    | apply net_op_resolve_names
    | apply net_op_categories
    | apply net_op_tags ].
Qed.

Lemma net_op_next_post fuel g : net_op (Extractor.next_post fuel g).
Proof.
  unfold Extractor.next_post.
  apply net_op_bind; [apply net_op_next|]. intros [[data|] g'].
  - apply net_op_bind; [apply net_op_enhance_post|]. intros post.
    apply net_op_ret.
  - apply net_op_ret.
Qed.

Lemma net_op_posts_to_list fuel : ∀ g, net_op (Extractor.posts_to_list fuel g).
Proof.
  induction fuel as [|fuel IH]; intros g; simpl; [apply net_op_timeout|].
  apply net_op_bind; [apply net_op_next_post|]. intros [[post|] g'].
  - apply net_op_bind; [apply IH|]. intros rest. apply net_op_ret.
  - apply net_op_ret.
Qed.
End Streaming.

Lemma file_op_os_mkdir p : file_op (os_mkdir p).
Proof.
  intros s t. unfold os_mkdir. simpl.
  destruct (node_at (fs s) (parent p)) as [[|c]|]; [|done..].
  by destruct (node_at (fs s) p).
Qed.

Lemma file_op_mkdir_exist_ok p : file_op (mkdir_exist_ok p).
Proof.
  intros s t. unfold mkdir_exist_ok. rewrite file_op_os_mkdir.
  destruct (os_mkdir p s) as [[[]|e|] s1]; simpl; [done| |done].
  destruct e; try done; by destruct (is_dir (fs s1) p).
Qed.

Lemma file_op_mkdir_parents root : ∀ rparts, file_op (mkdir_parents root rparts).
Proof.
  induction rparts as [|x rparts IH]; intros s t; cbn [mkdir_parents];
    rewrite file_op_os_mkdir;
    destruct (os_mkdir _ s) as [[[]|e|] s1]; simpl; try done.
  - destruct e; try done; by destruct (is_dir (fs s1) _).
  - destruct e; try (by destruct (is_dir (fs s1) _)).
    refine (file_op_bind _ _ _ _ s1 t); [apply IH|].
    intros _. apply file_op_mkdir_exist_ok.
Qed.

Lemma file_op_mkdir p : file_op (mkdir p).
Proof. apply file_op_mkdir_parents. Qed.

Lemma file_op_write_text p data : file_op (write_text p data).
Proof.
  intros s t. unfold write_text. simpl.
  destruct (node_at (fs s) (parent p)) as [[|c]|]; [|done..].
  destruct (node_at (fs s) p) as [[|c]|];
    try destruct (existsb surrogate data); done.
Qed.

Lemma file_op_posts_directory : file_op Constructor.posts_directory.
Proof.
  intros s t. unfold Constructor.posts_directory. simpl.
  destruct (cached_posts_directory (con s)); [done|].
  refine (file_op_bind _ _ _ _ s t); [apply file_op_mkdir|].
  intros _. apply file_op_bind; [done|]. intros _. apply file_op_ret.
Qed.

Lemma file_op_add_post post : file_op (Constructor.add_post post).
Proof.
  unfold Constructor.add_post.
  apply file_op_bind; [apply file_op_posts_directory|]. intros dir.
  apply file_op_bind; [apply file_op_mkdir|]. intros _.
  apply file_op_write_text.
Qed.

Lemma file_op_add_posts ps : file_op (add_posts ps).
Proof.
  induction ps as [|post ps IH]; simpl; [apply file_op_ret|].
  apply file_op_bind; [apply file_op_add_post|]. by intros _.
Qed.

Section StreamingLoop.
Context `{!HtmlEntities}.

Lemma yielded_ok fuel : ∀ g s ps s1,
  Extractor.posts_to_list fuel g s = (Ok ps, s1) → yielded fuel g s = ps.
Proof.
  induction fuel as [|fuel IH]; intros g s ps s1; simpl; [done|]. monad.
  destruct (Extractor.next_post fuel g s) as [[[[post|] g']| |] sa]; try done.
  - destruct (Extractor.posts_to_list fuel g' sa) as [[rest| |] sb] eqn:E;
      simpl; try done.
    intros [= <- <-]. f_equal. by eapply IH.
  - by intros [= <- <-].
Qed.

Lemma yielded_with_files fuel : ∀ g s t,
  yielded fuel g (with_files t s) = yielded fuel g s.
Proof.
  induction fuel as [|fuel IH]; intros g s t; simpl; [done|].
  rewrite net_op_next_post.
  destruct (Extractor.next_post fuel g s) as [[[[post|] g']| |] sa]; simpl;
    try done.
  by rewrite IH.
Qed.

Lemma main_loop_stream fuel : ∀ g s s2,
  add_posts (yielded fuel g s) s = (Ok (), s2) →
  main_loop fuel g s
  = (loop_outcome (fst (Extractor.posts_to_list fuel g s)),
     with_files s2 (snd (Extractor.posts_to_list fuel g s))).
Proof.
  induction fuel as [|fuel IH]; intros g s s2; simpl.
  { intros [= <-]. by rewrite with_files_self. }
  monad.
  pose proof (net_op_same_files (Extractor.next_post fuel g) s
                (net_op_next_post fuel g)) as Hsame.
  destruct (Extractor.next_post fuel g s) as [[[[post|] g']| |] sa]; simpl in *.
  - monad.
    destruct (Constructor.add_post post s) as [[[]| |] sb] eqn:Epost; try done.
    intros Hrest.
    pose proof (file_op_add_post post s sa) as Hpost.
    rewrite Hsame, Epost in Hpost. rewrite Hpost. simpl.
    pose proof (net_op_posts_to_list fuel g' sa sb) as Hnet.
    pose proof (file_op_add_posts (yielded fuel g' sa) sb sa) as Hfile.
    rewrite Hrest in Hfile. simpl in Hfile.
    rewrite <- (yielded_with_files fuel g' sa sb) in Hfile.
    rewrite (IH g' (with_files sb sa) (with_files s2 sa) Hfile).
    rewrite Hnet. simpl.
    by destruct (Extractor.posts_to_list fuel g' sa) as [[rest| |] sc].
  - intros [= <-]. by rewrite Hsame.
  - intros [= <-]. by rewrite Hsame.
  - intros [= <-]. by rewrite Hsame.
Qed.

(** X1: the loop of the script writes the posts one by one as the stream
    delivers them.  When writing the posts that the stream delivers
    succeeds, the loop ends as the stream does: normally if the stream is
    exhausted, with the exception that ends the stream otherwise; the
    output side is then what writing these posts in order makes of it, and
    the input side what draining the stream makes of it.  A stream that
    ends normally delivers the posts that [list] collects from it. *)
Theorem main_loop_streams fuel g s s2 :
  add_posts (yielded fuel g s) s = (Ok (), s2) →
  main_loop fuel g s
  = (loop_outcome (fst (Extractor.posts_to_list fuel g s)),
     with_files s2 (snd (Extractor.posts_to_list fuel g s)))
  ∧ ∀ ps s1, Extractor.posts_to_list fuel g s = (Ok ps, s1) →
             yielded fuel g s = ps.
Proof.
  intros Hadd. split; [by apply main_loop_stream | apply yielded_ok].
Qed.

(** X2: the cached property [posts] and the loop of the script do the
    same work.  When [posts], computed for the first time, returns the
    list [ps] and writing [ps] in order succeeds, the run of [main] from
    the same state returns normally with the files that writing [ps]
    gives and with the requests that [posts] has sent; [posts] itself
    leaves the output side alone and, once computed, returns its list
    without a further request. *)
Theorem main_writes_what_posts_lists fuel s ps s1 s2 :
  cached_posts (ext s) = None →
  Extractor.posts fuel s = (Ok ps, s1) →
  add_posts ps s = (Ok (), s2) →
  (∃ s', main fuel s = (Ok (), s')
         ∧ fs s' = fs s2 ∧ con s' = con s2
         ∧ sent s' = sent s1
         ∧ cached_categories (ext s') = cached_categories (ext s1)
         ∧ cached_tags (ext s') = cached_tags (ext s1))
  ∧ fs s1 = fs s ∧ con s1 = con s
  ∧ ∀ fuel', Extractor.posts fuel' s1 = (Ok ps, s1).
Proof.
  intros Hnone Hposts Hadd.
  unfold Extractor.posts in Hposts. rewrite Hnone in Hposts.
  unfold Extractor.get_posts in Hposts. monad.
  set (g := Extractor.pageWhileList (Extractor.posts_url (base_url (ext s)))
              Extractor.default_base_params) in *.
  pose proof (net_op_same_files (Extractor.posts_to_list fuel g) s
                (net_op_posts_to_list fuel g)) as Hsame.
  pose proof (yielded_ok fuel g s) as Hy.
  pose proof (main_loop_stream fuel g s s2) as Hloop.
  destruct (Extractor.posts_to_list fuel g s) as [[val| |] sa]; simpl in *;
    [|done..].
  injection Hposts as <- <-.
  rewrite (Hy val sa eq_refl) in Hloop. specialize (Hloop Hadd).
  split; [|split; [|split]].
  - exists (with_files s2 sa). split.
    + unfold main, Extractor.get_posts. monad. exact Hloop.
    + done.
  - by rewrite <- Hsame.
  - by rewrite <- Hsame.
  - intros fuel'. by unfold Extractor.posts.
Qed.
End StreamingLoop.

(** ** Where [add_post] writes, for any slug *)

Lemma parent_app_one root parts (x : list N) :
  parent (mkPath root (parts ++ [x])) = mkPath root parts.
Proof. unfold parent. simpl. by rewrite removelast_last. Qed.

Lemma dirs_of_self p : p_parts p ≠ [] → p ∈ dirs_of p.
Proof.
  destruct p as [root parts]. simpl. intros Hp.
  destruct (exists_last Hp) as (l & x & ->).
  rewrite dirs_of_snoc. by left.
Qed.

Lemma ancestry_app root l2 : ∀ rparts q,
  q ∈ ancestry root rparts → q ∈ ancestry root (l2 ++ rparts).
Proof.
  induction l2 as [|x l2 IH]; intros rparts q Hq; [done|].
  simpl. right. by apply IH.
Qed.

Lemma dirs_of_app root parts more q :
  q ∈ dirs_of (mkPath root parts) → q ∈ dirs_of (mkPath root (parts ++ more)).
Proof.
  unfold dirs_of. simpl. rewrite rev_app_distr. apply ancestry_app.
Qed.

Lemma node_at_dirs m p :
  (∀ q, q ∈ dirs_of p → m !! q = Some Dir) → node_at m p = Some Dir.
Proof.
  intros H. unfold node_at. destruct (p_parts p) eqn:E; [done|].
  apply H, dirs_of_self. by rewrite E.
Qed.

(** The directories of [add_post], whatever the slug: [dir] is the
    directory that the slug names from the directory of the posts.  What
    is left of [add_post] is to write [index.md] there. *)
Lemma add_post_prepare post s :
  let pd := posts_dir s in
  let dir := truediv pd (Post.slug post) in
  let index := mkPath (p_root dir) (p_parts dir ++ [py "index.md"]) in
  wf_fs (fs s) →
  unobstructed (fs s) pd → unobstructed (fs s) dir →
  ∃ m2, Constructor.add_post post s
        = write_text index (Post.md post)
            (set_fs m2 (set_con (mkConstructor (base_path (con s)) (Some pd)) s))
        ∧ wf_fs m2
        ∧ node_at m2 dir = Some Dir
        ∧ (∀ q, q ∈ dirs_of dir → m2 !! q = Some Dir)
        ∧ (∀ q, m2 !! q = fs s !! q
                ∨ (m2 !! q = Some Dir ∧ (q ∈ dirs_of dir ∨ q ∈ dirs_of pd))).
Proof.
  intros pd dir index Hwf Hfree_pd Hfree.
  destruct literal_segments as (_ & _ & Hi).
  assert (Hindex : truediv dir (py "index.md") = index).
  { by rewrite (truediv_segment _ _ Hi). }
  (* the cached property *)
  assert (Hstep1 : ∃ m1, Constructor.posts_directory s
              = (Ok pd, set_con (mkConstructor (base_path (con s)) (Some pd))
                          (set_fs m1 s))
            ∧ wf_fs m1
            ∧ (∀ q, m1 !! q = fs s !! q
                    ∨ (m1 !! q = Some Dir ∧ q ∈ dirs_of pd))).
  { unfold Constructor.posts_directory. unfold pd, posts_dir in *.
    destruct (cached_posts_directory (con s)) as [d|] eqn:E.
    - exists (fs s). repeat split; try done; [|by left].
      destruct s as [h l m e [b c]]. simpl in *. by subst c.
    - destruct (mkdir_spec _ s Hwf Hfree_pd) as (m1 & Hrun & Hwf1 & Hd1 & Hf1).
      monad. rewrite Hrun. simpl.
      exists m1. split; [done|]. split; [done|].
      intros q. destruct (decide (q ∈ dirs_of
          (truediv (truediv (base_path (con s)) (py "content")) (py "posts"))));
          [right; split; [by apply Hd1 | done] | left; by apply Hf1]. }
  destruct Hstep1 as (m1 & Hrun1 & Hwf1 & Hm1).
  set (s1 := set_con (mkConstructor (base_path (con s)) (Some pd)) (set_fs m1 s)) in *.
  assert (Hfree1 : unobstructed (fs s1) dir).
  { intros q Hq c Hc. simpl in Hc.
    destruct (Hm1 q) as [E|[E _]]; [|congruence].
    rewrite E in Hc. by apply (Hfree q Hq c). }
  destruct (mkdir_spec dir s1 Hwf1 Hfree1) as (m2 & Hrun2 & Hwf2 & Hd2 & Hf2).
  exists m2. split; [|split; [done|split; [by apply node_at_dirs|split; [done|]]]].
  - unfold Constructor.add_post. monad. rewrite Hrun1. fold dir.
    by rewrite Hrun2, Hindex.
  - intros q. destruct (decide (q ∈ dirs_of dir)) as [Hd|Hd].
    + right. split; [by apply Hd2 | by left].
    + rewrite (Hf2 q Hd). simpl.
      destruct (Hm1 q) as [E|[E Hq]]; [by left | right; split; [done | by right]].
Qed.

(** One [add_post], whatever the slug, with [index] the file [index.md]
    in the directory of the slug. *)
Lemma add_post_at post s :
  let pd := posts_dir s in
  let dir := truediv pd (Post.slug post) in
  let index := mkPath (p_root dir) (p_parts dir ++ [py "index.md"]) in
  wf_fs (fs s) → text (Post.content post) →
  unobstructed (fs s) pd → index ∉ dirs_of pd →
  unobstructed (fs s) dir → fs s !! index ≠ Some Dir →
  ∃ s', Constructor.add_post post s = (Ok (), s')
        ∧ wf_fs (fs s')
        ∧ cached_posts_directory (con s') = Some pd
        ∧ base_path (con s') = base_path (con s)
        ∧ (∀ q, q ∈ dirs_of dir → fs s' !! q = Some Dir)
        ∧ fs s' !! index = Some (File (Post.md post))
        ∧ (∀ q c, fs s' !! q = Some (File c) →
                  q = index ∨ fs s !! q = Some (File c))
        ∧ (∀ q, fs s' !! q = Some Dir →
                q ∈ dirs_of dir ∨ q ∈ dirs_of pd ∨ fs s !! q = Some Dir).
Proof.
  intros pd dir index Hwf Htext%md_encodable Hfree_pd Hidx_pd Hfree Hidx.
  destruct (add_post_prepare post s Hwf Hfree_pd Hfree)
    as (m2 & Hrun & Hwf2 & Hnode_dir & Hd2 & Hm2).
  fold pd dir index in Hrun, Hnode_dir, Hd2, Hm2.
  assert (Hparent : parent index = dir).
  { unfold index. rewrite parent_app_one. by destruct dir. }
  assert (Hindex_out : index ∉ dirs_of dir).
  { intros H%dirs_of_length. unfold index in H. simpl in H.
    rewrite length_app in H. simpl in H. lia. }
  assert (Hparts : p_parts index ≠ []).
  { unfold index. simpl. by destruct (p_parts dir). }
  assert (Hnode_index : node_at m2 index = m2 !! index).
  { unfold node_at. by destruct (p_parts index). }
  assert (Hidx2 : m2 !! index = fs s !! index).
  { destruct (Hm2 index) as [E|[_ [?|?]]]; done. }
  rewrite Hrun. unfold write_text. rewrite Htext. simpl.
  rewrite Hparent, Hnode_dir, Hnode_index, Hidx2.
  assert (Hfinal : wf_fs (<[index := File (Post.md post)]> m2)).
  { apply wf_insert_file; try done.
    - by rewrite Hparent.
    - by rewrite Hidx2. }
  assert (Hres : ∀ s', fs s' = <[index := File (Post.md post)]> m2 →
            con s' = mkConstructor (base_path (con s)) (Some pd) →
            wf_fs (fs s')
            ∧ cached_posts_directory (con s') = Some pd
            ∧ base_path (con s') = base_path (con s)
            ∧ (∀ q, q ∈ dirs_of dir → fs s' !! q = Some Dir)
            ∧ fs s' !! index = Some (File (Post.md post))
            ∧ (∀ q c, fs s' !! q = Some (File c) →
                      q = index ∨ fs s !! q = Some (File c))
            ∧ (∀ q, fs s' !! q = Some Dir →
                    q ∈ dirs_of dir ∨ q ∈ dirs_of pd ∨ fs s !! q = Some Dir)).
  { intros s' -> ->. split; [exact Hfinal|]. simpl.
    split; [done|]. split; [done|]. split; [|split; [|split]].
    - intros q Hq. rewrite lookup_insert_ne; [by apply Hd2|].
      intros <-. by apply Hindex_out.
    - by rewrite lookup_insert_eq.
    - intros q c. destruct (decide (index = q)) as [<-|Hne]; [by left|].
      rewrite lookup_insert_ne by done. intros Hq. right.
      destruct (Hm2 q) as [E|[E _]]; congruence.
    - intros q. destruct (decide (index = q)) as [<-|Hne];
        [by rewrite lookup_insert_eq|].
      rewrite lookup_insert_ne by done. intros Hq.
      destruct (Hm2 q) as [E|[_ [?|?]]]; [right; right; congruence | by left |].
      right. by left. }
  destruct (fs s !! index) as [[|c]|] eqn:E; [done|..];
    eexists; (split; [reflexivity|]); by apply Hres.
Qed.

Lemma posts_dir_consistent s :
  con_consistent s →
  posts_dir s = mkPath (p_root (base_path (con s)))
                       (p_parts (base_path (con s)) ++ [py "content"; py "posts"]).
Proof.
  intros Hcon. unfold posts_dir.
  destruct (cached_posts_directory (con s)) as [d|] eqn:E.
  - rewrite (Hcon d E). apply posts_dir_path.
  - apply posts_dir_path.
Qed.

(** X3: a slug is read as a path.  When it is a relative one, its
    components are directories below the directory of the posts, one
    inside the other: [add_post] makes them all and writes [index.md] into
    the innermost; slashes nest, empty components and single dots are
    dropped.  For the empty slug the file is [index.md] in the directory
    of the posts itself.  The names along the path are names that the
    system takes as written (none is [..], none holds NUL, all can be
    encoded), and the content of the post can be encoded. *)
Theorem add_post_relative_slug post s :
  let base := base_path (con s) in
  let rel := parse_path (Post.slug post) in
  let dir := mkPath (p_root base)
                    (p_parts base ++ [py "content"; py "posts"] ++ p_parts rel) in
  let index := mkPath (p_root base) (p_parts dir ++ [py "index.md"]) in
  p_root rel = 0%nat → plain_path dir → text (Post.content post) →
  wf_fs (fs s) → con_consistent s →
  unobstructed (fs s) dir → fs s !! index ≠ Some Dir →
  ∃ s', Constructor.add_post post s = (Ok (), s')
        ∧ (∀ q, q ∈ dirs_of dir → fs s' !! q = Some Dir)
        ∧ fs s' !! index = Some (File (Post.md post))
        ∧ (Post.slug post = [] →
           index = mkPath (p_root base)
                          (p_parts base ++ [py "content"; py "posts"; py "index.md"])).
Proof.
  intros base rel dir index Hrel _ Htext Hwf Hcon Hfree Hidx.
  pose proof (posts_dir_consistent s Hcon) as Hpd. fold base in Hpd.
  assert (Hdir : truediv (posts_dir s) (Post.slug post) = dir).
  { unfold truediv. fold rel. rewrite Hrel, Hpd. unfold dir. simpl.
    by rewrite <- app_assoc. }
  destruct (add_post_at post s) as (s' & Hrun & _ & _ & _ & Hdirs & Hfile & _).
  - done.
  - done.
  - intros q Hq. apply Hfree. rewrite Hpd in Hq. unfold dir.
    rewrite app_assoc. by apply dirs_of_app.
  - rewrite Hdir. intros H%dirs_of_length. rewrite Hpd in H. simpl in H.
    rewrite !length_app in H. simpl in H. lia.
  - by rewrite Hdir.
  - by rewrite Hdir.
  - rewrite Hdir in Hdirs, Hfile. exists s'. repeat split; try done.
    intros E. unfold index, dir, rel. rewrite E. simpl.
    by rewrite <- app_assoc.
Qed.

(** X4: a slug that begins with a slash is a rooted path, and joining a
    rooted path to the directory of the posts gives the rooted path alone:
    [add_post] then makes the directories of the slug from the root and
    writes [index.md] there, outside the output tree; the base path does
    not occur in the name of the file.  Here too the names along the
    two paths are names that the system takes as written, and the
    content of the post can be encoded. *)
Theorem add_post_rooted_slug post s :
  let q := parse_path (Post.slug post) in
  let index := mkPath (p_root q) (p_parts q ++ [py "index.md"]) in
  p_root q ≠ 0%nat → plain_path q → plain_path (posts_dir s) →
  text (Post.content post) → wf_fs (fs s) →
  unobstructed (fs s) (posts_dir s) → index ∉ dirs_of (posts_dir s) →
  unobstructed (fs s) q → fs s !! index ≠ Some Dir →
  ∃ s', Constructor.add_post post s = (Ok (), s')
        ∧ (∀ d, d ∈ dirs_of q → fs s' !! d = Some Dir)
        ∧ fs s' !! index = Some (File (Post.md post)).
Proof.
  intros q index Hq _ _ Htext Hwf Hfree_pd Hidx_pd Hfree Hidx.
  assert (Hdir : truediv (posts_dir s) (Post.slug post) = q).
  { unfold truediv. fold q. by destruct (p_root q). }
  destruct (add_post_at post s) as (s' & Hrun & _ & _ & _ & Hdirs & Hfile & _);
    rewrite ?Hdir; try done.
  rewrite Hdir in Hdirs, Hfile. by exists s'.
Qed.

(** ** A sequence of posts *)

Lemma post_index_length base slug :
  length (p_parts (post_index base slug)) = (length (p_parts base) + 4)%nat.
Proof. unfold post_index. simpl. rewrite length_app. simpl. lia. Qed.

Lemma post_dir_dirs_length base slug q :
  q ∈ dirs_of (post_dir base slug) →
  (length (p_parts q) <= length (p_parts base) + 3)%nat.
Proof.
  intros H%dirs_of_length. unfold post_dir in H. simpl in H.
  rewrite length_app in H. simpl in H. lia.
Qed.

Lemma post_index_inj base slug1 slug2 :
  post_index base slug1 = post_index base slug2 → slug1 = slug2.
Proof.
  unfold post_index. intros [= H]. apply app_inv_head in H. congruence.
Qed.

(** [add_post] for a slug that is a path segment, with what it leaves
    alone. *)
Lemma add_post_segment post s :
  let base := base_path (con s) in
  let dir := post_dir base (Post.slug post) in
  let index := post_index base (Post.slug post) in
  wf_fs (fs s) → con_consistent s → valid_segment (Post.slug post) →
  text (Post.content post) →
  unobstructed (fs s) dir → fs s !! index ≠ Some Dir →
  ∃ s', Constructor.add_post post s = (Ok (), s')
        ∧ wf_fs (fs s') ∧ con_consistent s' ∧ base_path (con s') = base
        ∧ fs s' !! dir = Some Dir
        ∧ fs s' !! index = Some (File (Post.md post))
        ∧ (∀ q c, fs s' !! q = Some (File c) →
                  q = index ∨ fs s !! q = Some (File c))
        ∧ (∀ q, fs s' !! q = Some Dir →
                (length (p_parts q) <= length (p_parts base) + 3)%nat
                ∨ fs s !! q = Some Dir)
        ∧ (∀ q n, q ≠ index → fs s !! q = Some n → fs s' !! q = Some n).
Proof.
  intros base dir index Hwf Hcon Hslug Htext Hfree Hidx.
  pose proof (posts_dir_consistent s Hcon) as Hpd. fold base in Hpd.
  assert (Hdir : truediv (posts_dir s) (Post.slug post) = dir).
  { rewrite (truediv_segment _ _ Hslug), Hpd. unfold dir, post_dir. simpl.
    by rewrite <- app_assoc. }
  assert (Hindex : mkPath (p_root dir) (p_parts dir ++ [py "index.md"]) = index).
  { unfold dir, index, post_dir, post_index. simpl. by rewrite <- app_assoc. }
  assert (Hsub : ∀ q, q ∈ dirs_of (posts_dir s) → q ∈ dirs_of dir).
  { intros q Hq. rewrite Hpd in Hq. unfold dir, post_dir.
    change [py "content"; py "posts"; Post.slug post]
      with ([py "content"; py "posts"] ++ [Post.slug post]).
    rewrite app_assoc. by apply dirs_of_app. }
  destruct (add_post_at post s)
    as (s' & Hrun & Hwf' & Hc' & Hb' & Hdirs & Hfile & Hfiles & Hnew);
    rewrite ?Hdir, ?Hindex; try done.
  { intros q Hq. apply Hfree. by apply Hsub. }
  { intros H%dirs_of_length. unfold index in H.
    rewrite post_index_length, Hpd in H. simpl in H.
    rewrite length_app in H. simpl in H. lia. }
  rewrite Hdir in Hdirs, Hnew. rewrite Hdir, Hindex in Hfile, Hfiles.
  exists s'. split; [done|]. split; [done|]. split; [|split; [done|]].
  { intros d Hd. rewrite Hc' in Hd. injection Hd as <-.
    rewrite Hb'. fold base. by rewrite Hpd, posts_dir_path. }
  split.
  { apply Hdirs, dirs_of_self. unfold dir, post_dir. simpl.
    by destruct (p_parts base). }
  split; [done|]. split; [done|]. split.
  - intros q Hq. destruct (Hnew q Hq) as [H|[H|H]]; [left..|by right].
    + by apply (post_dir_dirs_length base (Post.slug post)).
    + by apply (post_dir_dirs_length base (Post.slug post)), Hsub.
  - intros q n Hq Hn.
    pose proof (add_post_frame post s q n) as Hframe.
    rewrite Hrun in Hframe. apply Hframe; [|done].
    unfold index_path.
    by rewrite Hdir, (truediv_segment _ _ (proj2 (proj2 literal_segments))), Hindex.
Qed.

(** A list of posts written one after the other. *)
Lemma add_posts_run ps s :
  let base := base_path (con s) in
  wf_fs (fs s) → con_consistent s →
  (∀ p, p ∈ ps →
        valid_segment (Post.slug p) ∧ text (Post.content p)
        ∧ unobstructed (fs s) (post_dir base (Post.slug p))
        ∧ fs s !! post_index base (Post.slug p) ≠ Some Dir) →
  ∃ s', add_posts ps s = (Ok (), s')
        ∧ (∀ before p after,
             ps = before ++ p :: after →
             (∀ q, q ∈ after → Post.slug q ≠ Post.slug p) →
             fs s' !! post_index base (Post.slug p) = Some (File (Post.md p)))
        ∧ (∀ p, p ∈ ps → fs s' !! post_dir base (Post.slug p) = Some Dir)
        ∧ (∀ q n, fs s !! q = Some n →
                  (∀ p, p ∈ ps → q ≠ post_index base (Post.slug p)) →
                  fs s' !! q = Some n).
Proof.
  revert s. induction ps as [|p0 ps IH]; intros s base Hwf Hcon Hall.
  { exists s. split; [done|]. split; [|split]; try done.
    - intros [|??] ???; discriminate.
    - by intros p ?%elem_of_nil. }
  destruct (Hall p0) as (Hslug0 & Htext0 & Hfree0 & Hidx0); [by left|].
  destruct (add_post_segment p0 s Hwf Hcon Hslug0 Htext0 Hfree0 Hidx0)
    as (s1 & Hrun & Hwf1 & Hcon1 & Hbase1 & Hdir1 & Hfile1 & Hfiles1 & Hnew1 & Hframe1).
  fold base in Hbase1, Hdir1, Hfile1, Hfiles1, Hnew1, Hframe1.
  destruct (IH s1) as (s' & Hrest & Hlast & Hdirs & Hkeep).
  { done. }
  { done. }
  { rewrite Hbase1. intros p Hp.
    destruct (Hall p) as (Hslug & Hdots & Hfree & Hidx); [by right|].
    split; [done|]. split; [done|]. split.
    - intros q Hq c Hc. destruct (Hfiles1 q c Hc) as [->|Hold].
      + apply post_dir_dirs_length in Hq. rewrite post_index_length in Hq. lia.
      + by apply (Hfree q Hq c).
    - intros Hd. destruct (Hnew1 _ Hd) as [Hlen|Hold]; [|done].
      rewrite post_index_length in Hlen. lia. }
  rewrite Hbase1 in Hlast, Hdirs, Hkeep.
  exists s'. split; [simpl; monad; by rewrite Hrun|]. split; [|split].
  - intros [|b before] p after E Hlater; simpl in E; injection E as E1 E2.
    + subst p0 ps. apply Hkeep; [done|]. intros q Hq Heq%post_index_inj.
      by apply (Hlater q).
    + by apply (Hlast before p after).
  - intros p [->|Hp]%elem_of_cons; [|by apply Hdirs].
    apply Hkeep; [done|]. intros q _ Heq.
    apply (f_equal (fun x => length (p_parts x))) in Heq.
    rewrite post_index_length in Heq. unfold post_dir in Heq. simpl in Heq.
    rewrite length_app in Heq. simpl in Heq. lia.
  - intros q n Hq Hne. apply Hkeep.
    + apply Hframe1; [|done]. apply Hne. by left.
    + intros p Hp. apply Hne. by right.
Qed.

(** X5: writing a list of posts whose slugs are path segments into a
    well-formed tree where nothing is in the way succeeds, provided that
    the names along the path of each post are names that the system
    takes as written (none is [..], none holds NUL, all can be encoded)
    and that the content of each post can be encoded; afterwards every
    post has its directory, the file of a slug holds the document of the
    last post of the list that has this slug, and an entry that is the
    file of none of the posts (and is named without [..], from the root
    of the base path) is what it was. *)
Theorem add_posts_last_wins ps s :
  let base := base_path (con s) in
  wf_fs (fs s) → con_consistent s →
  (∀ p, p ∈ ps →
        valid_segment (Post.slug p)
        ∧ plain_path (post_dir base (Post.slug p))
        ∧ text (Post.content p)
        ∧ unobstructed (fs s) (post_dir base (Post.slug p))
        ∧ fs s !! post_index base (Post.slug p) ≠ Some Dir) →
  ∃ s', add_posts ps s = (Ok (), s')
        ∧ (∀ before p after,
             ps = before ++ p :: after →
             (∀ q, q ∈ after → Post.slug q ≠ Post.slug p) →
             fs s' !! post_index base (Post.slug p) = Some (File (Post.md p)))
        ∧ (∀ p, p ∈ ps → fs s' !! post_dir base (Post.slug p) = Some Dir)
        ∧ (∀ q n, direct q → p_root q = p_root base →
                  fs s !! q = Some n →
                  (∀ p, p ∈ ps → q ≠ post_index base (Post.slug p)) →
                  fs s' !! q = Some n).
Proof.
  intros base Hwf Hcon Hall.
  destruct (add_posts_run ps s Hwf Hcon) as (s' & Hrun & Hlast & Hdirs & Hkeep).
  { intros p Hp. destruct (Hall p Hp) as (? & _ & ? & ? & ?). done. }
  exists s'. split; [done|]. split; [done|]. split; [done|].
  intros q n _ _. apply Hkeep.
Qed.

(** ** What stops [add_post] *)

Lemma mkdir_file_exists p s c :
  fs s !! p = Some (File c) → node_at (fs s) (parent p) = Some Dir →
  p_parts p ≠ [] →
  mkdir p s = (Raise (FileExistsError p), s).
Proof.
  intros Hp Hpar Hparts. unfold mkdir.
  destruct (rev (p_parts p)) as [|x rparts] eqn:E.
  { apply (f_equal (@rev _)) in E. rewrite rev_involutive in E. done. }
  rewrite mkdir_parents_cons. cbv zeta.
  rewrite <- E, path_rev_rev.
  assert (Hnode : node_at (fs s) p = Some (File c)).
  { unfold node_at. by destruct (p_parts p). }
  unfold os_mkdir. rewrite Hpar, Hnode. unfold is_dir. by rewrite Hnode.
Qed.

Lemma wf_unobstructed m p :
  wf_fs m → node_at m p = Some Dir → unobstructed m p.
Proof.
  intros Hwf Hp q Hq c. unfold dirs_of in Hq.
  rewrite <- (path_rev_rev p) in Hp.
  by rewrite (wf_ancestry_dirs m _ _ Hwf Hp q Hq).
Qed.

(** X6: a regular file that stands where the directory of a post (with a
    path segment other than [..] as its slug) should be stops [add_post]: [mkdir] fails with [FileExistsError] for this
    path, since the path exists and is no directory; the file is left as
    it is, nothing else changes in the tree and no [index.md] is
    written. *)
Theorem add_post_blocked_by_file post s c :
  let base := base_path (con s) in
  let dir := post_dir base (Post.slug post) in
  let index := post_index base (Post.slug post) in
  wf_fs (fs s) → con_consistent s →
  valid_segment (Post.slug post) → Post.slug post ≠ py ".." →
  fs s !! dir = Some (File c) →
  ∃ s', Constructor.add_post post s = (Raise (FileExistsError dir), s')
        ∧ fs s' = fs s
        ∧ fs s' !! index = None.
Proof.
  intros base dir index Hwf Hcon Hslug _ Hfile.
  pose proof (posts_dir_consistent s Hcon) as Hpd. fold base in Hpd.
  assert (Hdir : truediv (posts_dir s) (Post.slug post) = dir).
  { rewrite (truediv_segment _ _ Hslug), Hpd. unfold dir, post_dir. simpl.
    by rewrite <- app_assoc. }
  assert (Hparent : parent dir = posts_dir s).
  { rewrite Hpd. unfold dir, post_dir.
    change [py "content"; py "posts"; Post.slug post]
      with ([py "content"; py "posts"] ++ [Post.slug post]).
    by rewrite app_assoc, parent_app_one. }
  assert (Hpd_dir : node_at (fs s) (posts_dir s) = Some Dir).
  { rewrite <- Hparent. by apply (Hwf dir (File c)). }
  assert (Hparts : p_parts dir ≠ []).
  { unfold dir, post_dir. simpl. by destruct (p_parts base). }
  assert (Hno_index : fs s !! index = None).
  { destruct (fs s !! index) as [n|] eqn:E; [|done].
    apply Hwf in E. unfold index in E. rewrite post_index_parent in E.
    fold dir in E. unfold node_at in E.
    destruct (p_parts dir); [done | congruence]. }
  assert (Hstep1 : ∃ s1, Constructor.posts_directory s = (Ok (posts_dir s), s1)
                         ∧ fs s1 = fs s).
  { unfold Constructor.posts_directory, posts_dir in *.
    destruct (cached_posts_directory (con s)) as [d|] eqn:E; [by exists s|].
    monad. rewrite mkdir_noop.
    - eexists. split; [reflexivity | done].
    - unfold is_dir. by rewrite Hpd_dir.
    - rewrite posts_dir_path in *.
      assert (Hl : fs s !! mkPath (p_root (base_path (con s)))
                     (p_parts (base_path (con s)) ++ [py "content"; py "posts"])
                   = Some Dir).
      { unfold node_at in Hpd_dir. simpl in Hpd_dir.
        by destruct (p_parts (base_path (con s))). }
      by rewrite (Hwf _ _ Hl). }
  destruct Hstep1 as (s1 & Hrun1 & Hfs1).
  unfold Constructor.add_post. monad. rewrite Hrun1, Hdir.
  rewrite (mkdir_file_exists dir s1 c); rewrite ?Hfs1, ?Hparent; try done.
  exists s1. by rewrite Hfs1.
Qed.

(** X7: a directory that stands where the [index.md] of a post (with a
    path segment other than [..] as its slug) should be stops [add_post]
    at the write, with [IsADirectoryError] for this path; the
    directories of the post have been made by then, and nothing that was
    in the tree is lost. *)
Theorem add_post_index_is_directory post s :
  let base := base_path (con s) in
  let dir := post_dir base (Post.slug post) in
  let index := post_index base (Post.slug post) in
  wf_fs (fs s) → con_consistent s →
  valid_segment (Post.slug post) → Post.slug post ≠ py ".." →
  unobstructed (fs s) dir → fs s !! index = Some Dir →
  ∃ s', Constructor.add_post post s = (Raise (IsADirectoryError index), s')
        ∧ fs s' !! index = Some Dir
        ∧ (∀ q, q ∈ dirs_of dir → fs s' !! q = Some Dir)
        ∧ (∀ q n, fs s !! q = Some n → fs s' !! q = Some n).
Proof.
  intros base dir index Hwf Hcon Hslug _ Hfree Hidx.
  pose proof (posts_dir_consistent s Hcon) as Hpd. fold base in Hpd.
  assert (Hdir : truediv (posts_dir s) (Post.slug post) = dir).
  { rewrite (truediv_segment _ _ Hslug), Hpd. unfold dir, post_dir. simpl.
    by rewrite <- app_assoc. }
  assert (Hindex : mkPath (p_root dir) (p_parts dir ++ [py "index.md"]) = index).
  { unfold dir, index, post_dir, post_index. simpl. by rewrite <- app_assoc. }
  destruct (add_post_prepare post s) as (m2 & Hrun & Hwf2 & Hnode_dir & Hd2 & Hm2).
  - done.
  - intros q Hq. apply Hfree. rewrite Hpd in Hq. unfold dir, post_dir.
    change [py "content"; py "posts"; Post.slug post]
      with ([py "content"; py "posts"] ++ [Post.slug post]).
    rewrite app_assoc. by apply dirs_of_app.
  - by rewrite Hdir.
  - rewrite Hdir, ?Hindex in *.
    assert (Hidx2 : m2 !! index = Some Dir).
    { destruct (Hm2 index) as [E|[E _]]; congruence. }
    assert (Hnode_index : node_at m2 index = Some Dir).
    { unfold node_at. by destruct (p_parts index). }
    rewrite Hrun. unfold write_text. simpl.
    unfold index at 1. rewrite post_index_parent. fold dir index.
    rewrite Hnode_dir, Hnode_index.
    eexists. split; [reflexivity|]. simpl. split; [done|]. split; [done|].
    intros q n Hq. destruct (Hm2 q) as [E|[E Hin]]; [congruence|].
    rewrite E. f_equal. destruct n as [|c']; [done|].
    destruct Hin as [Hin|Hin].
    + by destruct (Hfree q Hin c').
    + destruct (Hfree q) with (c := c'); [|done].
      rewrite Hpd in Hin. unfold dir, post_dir.
      change [py "content"; py "posts"; Post.slug post]
        with ([py "content"; py "posts"] ++ [Post.slug post]).
      rewrite app_assoc. by apply dirs_of_app.
Qed.

Lemma md_not_encodable (p : Post.t) :
  Exists (fun c => surrogate c = true) (Post.content p) →
  existsb surrogate (Post.md p) = true.
Proof.
  intros (c & Hc & Hs)%Exists_exists. apply existsb_exists. exists c.
  split; [|done]. unfold Post.md. apply in_or_app. right.
  right. right. by apply list_elem_of_In.
Qed.

(** X21: a content that cannot be encoded stops [add_post] at the write.
    For a post whose content holds a surrogate (a JSON body can carry
    one on its own) and whose slug is a path segment, in a tree where
    nothing is in the way, [write_text] raises [UnicodeEncodeError]; by
    then the directories of the post have been made and [index.md] has
    been opened for writing, which leaves it empty, whatever it held
    before; every other entry (named without [..], from the root of the
    base path) is what it was. *)
Theorem add_post_content_not_encodable post s :
  let base := base_path (con s) in
  let dir := post_dir base (Post.slug post) in
  let index := post_index base (Post.slug post) in
  wf_fs (fs s) → con_consistent s →
  valid_segment (Post.slug post) → plain_path dir →
  Exists (fun c => surrogate c = true) (Post.content post) →
  unobstructed (fs s) dir → fs s !! index ≠ Some Dir →
  ∃ s', Constructor.add_post post s = (Raise UnicodeEncodeError, s')
        ∧ fs s' !! index = Some (File [])
        ∧ (∀ q, q ∈ dirs_of dir → fs s' !! q = Some Dir)
        ∧ (∀ q n, direct q → p_root q = p_root base → q ≠ index →
                  fs s !! q = Some n → fs s' !! q = Some n).
Proof.
  intros base dir index Hwf Hcon Hslug _ Henc%md_not_encodable Hfree Hidx.
  pose proof (posts_dir_consistent s Hcon) as Hpd. fold base in Hpd.
  assert (Hdir : truediv (posts_dir s) (Post.slug post) = dir).
  { rewrite (truediv_segment _ _ Hslug), Hpd. unfold dir, post_dir. simpl.
    by rewrite <- app_assoc. }
  assert (Hindex : mkPath (p_root dir) (p_parts dir ++ [py "index.md"]) = index).
  { unfold dir, index, post_dir, post_index. simpl. by rewrite <- app_assoc. }
  assert (Hindex_path : index_path s post = index).
  { unfold index_path.
    by rewrite Hdir, (truediv_segment _ _ (proj2 (proj2 literal_segments))), Hindex. }
  assert (Hframe : ∀ q n, q ≠ index → fs s !! q = Some n →
            fs (snd (Constructor.add_post post s)) !! q = Some n).
  { intros q n Hq Hn. apply add_post_frame; [by rewrite Hindex_path | done]. }
  destruct (add_post_prepare post s) as (m2 & Hrun & Hwf2 & Hnode_dir & Hd2 & Hm2).
  - done.
  - intros q Hq. apply Hfree. rewrite Hpd in Hq. unfold dir, post_dir.
    change [py "content"; py "posts"; Post.slug post]
      with ([py "content"; py "posts"] ++ [Post.slug post]).
    rewrite app_assoc. by apply dirs_of_app.
  - by rewrite Hdir.
  - rewrite Hdir, ?Hindex in *.
    assert (Hindex_out : index ∉ dirs_of dir).
    { intros H%dirs_of_length. unfold index, dir, post_index, post_dir in H.
      simpl in H. rewrite !length_app in H. simpl in H. lia. }
    assert (Hidx2 : m2 !! index ≠ Some Dir).
    { destruct (Hm2 index) as [E|[_ [?|Hin]]]; [congruence|done|].
      apply dirs_of_length in Hin. rewrite Hpd in Hin.
      unfold index, post_index in Hin. simpl in Hin.
      rewrite !length_app in Hin. simpl in Hin. lia. }
    assert (Hnode_index : node_at m2 index = m2 !! index).
    { unfold node_at, index, post_index. simpl.
      by destruct (p_parts base). }
    assert (Hres : ∃ s', Constructor.add_post post s
                         = (Raise UnicodeEncodeError, s')
                       ∧ fs s' = <[index := File []]> m2).
    { rewrite Hrun. unfold write_text. rewrite Henc. simpl.
      unfold index at 1. rewrite post_index_parent. fold dir index.
      rewrite Hnode_dir, Hnode_index.
      destruct (m2 !! index) as [[|c]|] eqn:E; [done|..]; by eexists. }
    destruct Hres as (s' & Hfail & Hfs).
    exists s'. split; [done|]. rewrite Hfs.
    split; [by rewrite lookup_insert_eq|]. split.
    + intros q Hq. rewrite lookup_insert_ne; [by apply Hd2|].
      intros <-. by apply Hindex_out.
    + intros q n _ _ Hq Hn. specialize (Hframe q n Hq Hn).
      rewrite Hfail in Hframe. simpl in Hframe. by rewrite Hfs in Hframe.
Qed.

(** ** The directory of the posts *)


(** ** Pagination that ends in a failure *)

Lemma while_test_fails g page s answer :
  http s (sent s) (page_request (Extractor.g_url g) page) = answer →
  answer = None ∨ answer = Some (mkResponse None) →
  Extractor.while_test g page s
  = (Raise (failure_of answer),
     set_sent (sent s ++ [page_request (Extractor.g_url g) page]) s).
Proof.
  intros H E. unfold Extractor.while_test. monad. rewrite get_spec.
  rewrite (left_id_L ∅ (∪)). fold (page_request (Extractor.g_url g) page).
  rewrite H. by destruct E as [->| ->].
Qed.

Section PaginationFailure.
Variable url : str.
Variable base_params : gmap str ParamValue.
Variable server : list Request → Request → option Response.
Variable pages : list (list JSON).
Variable answer : option Response.
Hypothesis pages_nonempty : ∀ pg, pg ∈ pages → pg ≠ [].
Hypothesis server_pages : ∀ h (i : nat) pg,
  pages !! i = Some pg →
  server h (page_request url (Z.of_nat (S i)))
  = Some (mkResponse (Some (JList pg))).
Hypothesis server_fails : ∀ h,
  server h (page_request url (Z.of_nat (S (length pages)))) = answer.
Hypothesis no_document : answer = None ∨ answer = Some (mkResponse None).

Lemma to_list_fails_in_page (n : nat) : ∀ (k : nat) rest s fuel,
  (k + n = length pages)%nat →
  http s = server →
  (length rest + length (concat (drop k pages)) < fuel)%nat →
  Extractor.to_list fuel
    (Extractor.mkGenerator url base_params (Extractor.InPage (Z.of_nat k) rest)) s
  = (Raise (failure_of answer),
     set_sent (sent s ++ page_requests url (Z.of_nat k + 1) (S n)) s).
Proof.
  induction n as [|n IHn]; intros k rest; induction rest as [|x rest IHrest];
    intros s fuel Hk Hs Hfuel.
  - destruct fuel as [|fuel]; [lia|]. simpl. monad.
    unfold Extractor.next. simpl.
    replace (Z.of_nat k + 1) with (Z.of_nat (S k)) by lia.
    erewrite while_test_fails; [| simpl; rewrite Hs;
      replace k with (length pages) by lia; apply server_fails | apply no_document].
    unfold page_requests. simpl.
    replace (Z.of_nat (S k) + 0) with (Z.of_nat (S k)) by lia. done.
  - destruct fuel as [|fuel]; [simpl in Hfuel; lia|]. simpl. monad.
    unfold Extractor.next. simpl.
    unfold Extractor.resume; simpl.
    rewrite (IHrest s fuel Hk Hs); [done|]. simpl in Hfuel. lia.
  - destruct fuel as [|fuel]; [lia|].
    destruct (lookup_lt_is_Some_2 pages k) as [pg Hpg]; [lia|].
    destruct pg as [|x pg];
      [by destruct (pages_nonempty [] (list_elem_of_lookup_2 _ _ _ Hpg))|].
    simpl. monad. unfold Extractor.next. simpl.
    replace (Z.of_nat k + 1) with (Z.of_nat (S k)) by lia.
    erewrite while_test_page; [| simpl; rewrite Hs; by apply server_pages].
    unfold Extractor.resume; simpl.
    rewrite (drop_S _ _ _ Hpg) in *. simpl in Hfuel. rewrite length_app in Hfuel.
    rewrite (IHn (S k) pg _ fuel); [| lia | done | lia].
    rewrite (page_requests_S url (Z.of_nat (S k)) (S n)).
    unfold set_sent; simpl. rewrite <- app_assoc. done.
  - destruct fuel as [|fuel]; [simpl in Hfuel; lia|]. simpl. monad.
    unfold Extractor.next. simpl.
    unfold Extractor.resume; simpl.
    rewrite (IHrest s fuel Hk Hs); [done|]. simpl in Hfuel. lia.
Qed.

(** X9: the fetcher handles no failure.  Against a server that answers the
    pages [1..N] with non-empty lists and fails on page [N+1] (the
    request raises, or the body is no JSON document), collecting the
    generator raises the exception of this failure, [RequestException] or
    [ValueError]; the requests sent are those for the pages [1], ...,
    [N+1], one each: the failed page is not requested again. *)
Theorem pageWhileList_failure_propagates s fuel :
  http s = server →
  (length (concat pages) < fuel)%nat →
  Extractor.to_list fuel (Extractor.pageWhileList url base_params) s
  = (Raise (failure_of answer),
     set_sent (sent s ++ page_requests url 1 (S (length pages))) s).
Proof.
  intros Hs Hfuel.
  pose proof (to_list_fails_in_page (length pages) 0 [] s fuel eq_refl Hs) as H.
  rewrite drop_0 in H. specialize (H Hfuel). change (Z.of_nat 0 + 1) with 1 in H.
  destruct fuel as [|fuel]; [lia|].
  simpl in *. exact H.
Qed.
End PaginationFailure.

(** X10: a generator that has signalled the end of the data is finished:
    every later [next], in whatever state, signals the end again and
    sends no request. *)
Theorem generator_exhausted_stays_silent g s g' s' :
  Extractor.next g s = (Ok (None, g'), s') →
  Extractor.g_frame g' = Extractor.Finished
  ∧ ∀ t, Extractor.next g' t = (Ok (None, g'), t).
Proof.
  intros Hnext.
  assert (Hfin : Extractor.g_frame g' = Extractor.Finished).
  { unfold Extractor.next in Hnext.
    destruct (Extractor.g_frame g) as [|page [|x rest]|] eqn:E.
    - destruct (while_test_run g 1 s) as (r & Hrun & Hr).
      rewrite Hrun in Hnext. injection Hnext as -> _. by subst g'.
    - destruct (while_test_run g (page + 1) s) as (r & Hrun & Hr).
      rewrite Hrun in Hnext. injection Hnext as -> _. by subst g'.
    - done.
    - by injection Hnext as <- _. }
  split; [done|]. intros t. unfold Extractor.next. by rewrite Hfin.
Qed.

(** ** Cached properties that fail *)

Lemma dict_by_id_same_ext fuel g acc s :
  ext (snd (Extractor.dict_by_id fuel g acc s)) = ext s.
Proof.
  pose proof (respects_dict_by_id (fun s s' => ext s' = ext s)
                (fun s s' => ext s' = ext s)) as H.
  specialize (H (fun _ => eq_refl)).
  specialize (H (fun s1 s2 s3 H1 H2 => eq_trans H2 H1)).
  specialize (H (fun s1 s2 s3 H1 H2 => eq_trans H2 H1)).
  specialize (H (fun _ => eq_refl)).
  assert (Hget : ∀ url params headers,
            respects (fun s s' => ext s' = ext s) (fun s s' => ext s' = ext s)
                     any (Extractor.get url params headers)).
  { intros url params headers s0. unfold Extractor.get.
    by destruct (http s0 _ _). }
  specialize (H Hget fuel g acc s).
  destruct (Extractor.dict_by_id fuel g acc s) as [[v| |] s']; simpl;
    [by destruct H | done..].
Qed.

Section FailedProperty.
Context `{!HtmlEntities}.

Lemma posts_to_list_same_slot fuel g s :
  cached_posts (ext (snd (Extractor.posts_to_list fuel g s)))
  = cached_posts (ext s).
Proof.
  set (R := fun s s' : State => cached_posts (ext s') = cached_posts (ext s)).
  assert (Hrefl : ∀ s, R s s) by done.
  assert (Htrans : ∀ s1 s2 s3, R s1 s2 → R s2 s3 → R s1 s3).
  { unfold R. intros s1 s2 s3 H1 H2. congruence. }
  assert (Hget : ∀ url params headers,
            respects R R any (Extractor.get url params headers)).
  { intros url params headers s0. unfold Extractor.get, R.
    by destruct (http s0 _ _). }
  assert (Hcat : ∀ fuel, respects R R any (Extractor.categories fuel)).
  { intros f s0. unfold Extractor.categories.
    destruct (cached_categories (ext s0)); [by split|]. monad.
    pose proof (dict_by_id_same_ext f
                  (Extractor.pageWhileList
                     (Extractor.categories_url (base_url (ext s0)))
                     Extractor.default_base_params) ∅ s0) as E.
    destruct (Extractor.dict_by_id _ _ _ s0) as [[v| |] s1]; simpl in *;
      unfold R; simpl; rewrite ?E; done. }
  assert (Htag : ∀ fuel, respects R R any (Extractor.tags fuel)).
  { intros f s0. unfold Extractor.tags.
    destruct (cached_tags (ext s0)); [by split|]. monad.
    pose proof (dict_by_id_same_ext f
                  (Extractor.pageWhileList
                     (Extractor.tags_url (base_url (ext s0)))
                     Extractor.default_base_params) ∅ s0) as E.
    destruct (Extractor.dict_by_id _ _ _ s0) as [[v| |] s1]; simpl in *;
      unfold R; simpl; rewrite ?E; done. }
  assert (Hinv : respects R R any (Extractor.posts_to_list fuel g)).
  { apply (respects_posts_to_list R R any); try done.
    intros g0 _. eapply respects_weaken; [|by apply respects_next_any]. done. }
  specialize (Hinv s).
  destruct (Extractor.posts_to_list fuel g s) as [[v| |] s']; simpl;
    [by destruct Hinv | done..].
Qed.

Lemma mkdir_same_con p s : con (snd (mkdir p s)) = con s.
Proof.
  set (R := fun s s' : State => con s' = con s).
  assert (Hrefl : ∀ s, R s s) by done.
  assert (Htrans : ∀ s1 s2 s3, R s1 s2 → R s2 s3 → R s1 s3).
  { unfold R. intros s1 s2 s3 H1 H2. congruence. }
  assert (Hos : ∀ p, respects R R any (os_mkdir p)).
  { intros q s0. unfold os_mkdir, R.
    destruct (node_at (fs s0) (parent q)) as [[|?]|]; [|done..].
    by destruct (node_at (fs s0) q). }
  pose proof (respects_mkdir R R Hrefl Htrans Htrans Hos p s) as Hinv.
  destruct (mkdir p s) as [[v| |] s']; simpl; [by destruct Hinv | done..].
Qed.

(** X11: a cached property stores a value only when its computation has
    returned one.  When the first access to [categories], [tags],
    [posts] or [posts_directory] ends in an exception, the slot of the
    property is as empty as before (for the two caches the extractor is
    unchanged altogether, for [posts_directory] the file writer), so
    nothing partial is kept and the next access computes again. *)
Theorem failed_property_is_not_cached :
  (∀ fuel s r s',
     Extractor.categories fuel s = (r, s') → (∀ v, r ≠ Ok v) → ext s' = ext s)
  ∧ (∀ fuel s r s',
       Extractor.tags fuel s = (r, s') → (∀ v, r ≠ Ok v) → ext s' = ext s)
  ∧ (∀ fuel s r s',
       Extractor.posts fuel s = (r, s') → (∀ v, r ≠ Ok v) →
       cached_posts (ext s') = cached_posts (ext s))
  ∧ (∀ s r s',
       Constructor.posts_directory s = (r, s') → (∀ v, r ≠ Ok v) →
       con s' = con s).
Proof.
  split; [|split; [|split]].
  - intros fuel s r s'. unfold Extractor.categories.
    destruct (cached_categories (ext s)) as [c|].
    { intros [= <- <-] Hr. by destruct (Hr c). }
    monad.
    pose proof (dict_by_id_same_ext fuel
                  (Extractor.pageWhileList
                     (Extractor.categories_url (base_url (ext s)))
                     Extractor.default_base_params) ∅ s) as E.
    destruct (Extractor.dict_by_id _ _ _ s) as [[v| |] s1]; simpl in *;
      intros [= <- <-] Hr; [by destruct (Hr v) | done..].
  - intros fuel s r s'. unfold Extractor.tags.
    destruct (cached_tags (ext s)) as [c|].
    { intros [= <- <-] Hr. by destruct (Hr c). }
    monad.
    pose proof (dict_by_id_same_ext fuel
                  (Extractor.pageWhileList
                     (Extractor.tags_url (base_url (ext s)))
                     Extractor.default_base_params) ∅ s) as E.
    destruct (Extractor.dict_by_id _ _ _ s) as [[v| |] s1]; simpl in *;
      intros [= <- <-] Hr; [by destruct (Hr v) | done..].
  - intros fuel s r s'. unfold Extractor.posts.
    destruct (cached_posts (ext s)) as [c|] eqn:Ec.
    { intros [= <- <-] Hr. by destruct (Hr c). }
    unfold Extractor.get_posts. monad.
    pose proof (posts_to_list_same_slot fuel
                  (Extractor.pageWhileList
                     (Extractor.posts_url (base_url (ext s)))
                     Extractor.default_base_params) s) as E.
    destruct (Extractor.posts_to_list _ _ s) as [[v| |] s1]; simpl in *;
      intros [= <- <-] Hr; [by destruct (Hr v) | congruence..].
  - intros s r s'. unfold Constructor.posts_directory.
    destruct (cached_posts_directory (con s)) as [c|].
    { intros [= <- <-] Hr. by destruct (Hr c). }
    monad.
    pose proof (mkdir_same_con
      (truediv (truediv (base_path (con s)) (py "content")) (py "posts")) s) as E.
    destruct (mkdir _ s) as [[v| |] s1]; simpl in *;
      intros [= <- <-] Hr; [by edestruct Hr | done..].
Qed.
End FailedProperty.

(** ** The dictionary comprehension of the reference caches *)

Lemma id_key_some x k :
  id_key x = Some k → ∃ i, getitem x (py "id") = Ok i ∧ key_of i = Ok k.
Proof.
  unfold id_key. destruct (getitem x (py "id")) as [i| |]; [|done..].
  destruct (key_of i) as [k'| |] eqn:E; [|done..]. intros [= ->]. by exists i.
Qed.

Lemma id_key_none x :
  id_key x = None →
  getitem x (py "id") = Raise (id_error x)
  ∨ ∃ i, getitem x (py "id") = Ok i ∧ key_of i = Raise (id_error x).
Proof.
  unfold id_key, id_error.
  destruct (getitem x (py "id")) as [i|e|] eqn:E; [|by left|].
  - destruct (key_of i) as [k'|e|] eqn:Ek; [done| |by destruct i].
    intros _. right. exists i. split; [done|]. by destruct i.
  - by destruct x as [| | | | |kvs]; simpl in E; [..|destruct (assoc _ kvs)].
Qed.

Lemma dict_by_id_of_list fuel : ∀ g acc s xs s1,
  Extractor.to_list fuel g s = (Ok xs, s1) →
  Forall (fun x => is_Some (id_key x)) xs →
  Extractor.dict_by_id fuel g acc s = (Ok (index_by_id xs acc), s1).
Proof.
  induction fuel as [|fuel IH]; intros g acc s xs s1; simpl; [done|]. monad.
  destruct (Extractor.next g s) as [[[[x|] g']| |] sa]; try done.
  - destruct (Extractor.to_list fuel g' sa) as [[xs'| |] sb] eqn:E; try done.
    intros [= <- <-] Hall. inversion Hall as [|? ? [k Hk] Hrest]; subst.
    destruct (id_key_some x k Hk) as (i & -> & ->). simpl.
    rewrite (IH g' _ sa xs' sb E Hrest).
    unfold index_by_id. simpl. by rewrite Hk.
  - by intros [= <- <-] _.
Qed.

(** A record without a usable [id] ends the comprehension where it is
    met. *)
Lemma dict_by_id_bad_record fuel : ∀ g acc s before x after s1,
  Extractor.to_list fuel g s = (Ok (before ++ x :: after), s1) →
  Forall (fun x => is_Some (id_key x)) before →
  id_key x = None →
  fst (Extractor.dict_by_id fuel g acc s) = Raise (id_error x).
Proof.
  induction fuel as [|fuel IH]; intros g acc s before x after s1; simpl; [done|].
  monad.
  destruct (Extractor.next g s) as [[[[y|] g']| |] sa]; try done.
  - destruct (Extractor.to_list fuel g' sa) as [[xs'| |] sb] eqn:E; try done.
    intros [= Hxs <-] Hall Hbad.
    destruct before as [|b before]; simpl in Hxs; injection Hxs as -> ->.
    + destruct (id_key_none x Hbad) as [->|(i & -> & ->)]; done.
    + inversion Hall as [|? ? [k Hk] Hrest]; subst.
      destruct (id_key_some b k Hk) as (i & -> & ->). simpl.
      by apply (IH g' _ sa before x after sb).
  - intros [= Hxs _]. by destruct before.
Qed.

Lemma index_by_id_app xs ys acc :
  index_by_id (xs ++ ys) acc = index_by_id ys (index_by_id xs acc).
Proof. apply fold_left_app. Qed.

Lemma index_by_id_keeps xs : ∀ acc k x,
  acc !! k = Some x → (∀ y, y ∈ xs → id_key y ≠ Some k) →
  index_by_id xs acc !! k = Some x.
Proof.
  induction xs as [|y xs IH]; intros acc k x Hk Hno; [done|].
  unfold index_by_id. simpl. apply IH.
  - destruct (id_key y) as [k'|] eqn:E; [|done].
    rewrite lookup_insert_ne; [done|]. intros ->. apply (Hno y); [by left | done].
  - intros z Hz. apply Hno. by right.
Qed.

Lemma index_by_id_last before x after acc k :
  id_key x = Some k → (∀ y, y ∈ after → id_key y ≠ Some k) →
  index_by_id (before ++ x :: after) acc !! k = Some x.
Proof.
  intros Hk Hno. rewrite index_by_id_app.
  change (x :: after) with ([x] ++ after). rewrite index_by_id_app.
  apply index_by_id_keeps; [|done].
  unfold index_by_id. simpl. rewrite Hk. by rewrite lookup_insert_eq.
Qed.

Lemma index_by_id_from xs : ∀ acc k x,
  index_by_id xs acc !! k = Some x →
  acc !! k = Some x ∨ (x ∈ xs ∧ id_key x = Some k).
Proof.
  induction xs as [|y xs IH]; intros acc k x; [by left|].
  unfold index_by_id. simpl. intros Hx.
  apply IH in Hx as [Hx|[Hx Hk]]; [|right; split; [by right | done]].
  destruct (id_key y) as [k'|] eqn:E; [|by left].
  destruct (decide (k' = k)) as [->|Hne].
  - rewrite lookup_insert_eq in Hx. injection Hx as <-. right.
    split; [by left | done].
  - rewrite lookup_insert_ne in Hx by done. by left.
Qed.

Section ReferenceCache.
Variable b : str.
Variable url : str.
Variable server : list Request → Request → option Response.
Variable pages : list (list JSON).
Variable last : JSON.
Hypothesis pages_nonempty : ∀ pg, pg ∈ pages → pg ≠ [].
Hypothesis server_pages : ∀ h (i : nat) pg,
  pages !! i = Some pg →
  server h (page_request url (Z.of_nat (S i)))
  = Some (mkResponse (Some (JList pg))).
Hypothesis server_last : ∀ h,
  server h (page_request url (Z.of_nat (S (length pages))))
  = Some (mkResponse (Some last)).
Hypothesis last_ends : end_of_data last.

Lemma to_list_all_pages base_params s fuel :
  http s = server →
  (length (concat pages) < fuel)%nat →
  Extractor.to_list fuel (Extractor.pageWhileList url base_params) s
  = (Ok (concat pages),
     set_sent (sent s ++ page_requests url 1 (S (length pages))) s).
Proof.
  intros Hs Hfuel.
  pose proof (to_list_in_page url base_params server pages last pages_nonempty
                server_pages server_last last_ends
                (length pages) 0 [] s fuel eq_refl Hs) as Hrun.
  rewrite drop_0 in Hrun. specialize (Hrun Hfuel).
  change (Z.of_nat 0 + 1) with 1 in Hrun.
  destruct fuel as [|fuel]; [lia|].
  simpl in *. exact Hrun.
Qed.

Lemma dict_by_id_all_pages base_params s fuel :
  http s = server →
  (length (concat pages) < fuel)%nat →
  Forall (fun x => is_Some (id_key x)) (concat pages) →
  Extractor.dict_by_id fuel (Extractor.pageWhileList url base_params) ∅ s
  = (Ok (index_by_id (concat pages) ∅),
     set_sent (sent s ++ page_requests url 1 (S (length pages))) s).
Proof.
  intros Hs Hfuel Hall.
  by apply dict_by_id_of_list; [apply to_list_all_pages|].
Qed.

(** X12: the dictionary comprehension that builds a reference cache files
    every record under its [id].  Against a server that answers the
    pages of the endpoint with records that all have an [id] which can
    be a key, the first access to the property returns the dictionary of
    all records of all pages and stores it; the record found under a key
    is the last one of the listing with this [id], and every entry of
    the dictionary is a record of the listing under its own [id].  So a
    lookup by [id] gives back the record that was filed, unless a later
    record has the same [id]. *)
Theorem cache_files_records_by_id s fuel :
  http s = server → base_url (ext s) = b →
  (length (concat pages) < fuel)%nat →
  Forall (fun x => is_Some (id_key x)) (concat pages) →
  let cache := index_by_id (concat pages) ∅ in
  let s' := set_sent (sent s ++ page_requests url 1 (S (length pages))) s in
  ((∀ before x after k,
      concat pages = before ++ x :: after → id_key x = Some k →
      (∀ y, y ∈ after → id_key y ≠ Some k) →
      cache !! k = Some x)
   ∧ (∀ k x, cache !! k = Some x → x ∈ concat pages ∧ id_key x = Some k))
  ∧ (url = Extractor.categories_url b → cached_categories (ext s) = None →
     Extractor.categories fuel s
     = (Ok cache, snd (Extractor.store_categories cache s')))
  ∧ (url = Extractor.tags_url b → cached_tags (ext s) = None →
     Extractor.tags fuel s = (Ok cache, snd (Extractor.store_tags cache s'))).
Proof.
  intros Hs Hb Hfuel Hall cache s'. split; [split|split].
  - intros before x after k Hp Hk Hno. unfold cache. rewrite Hp.
    by apply index_by_id_last.
  - intros k x Hx. apply index_by_id_from in Hx as [Hx|Hx]; [|done].
    by rewrite lookup_empty in Hx.
  - intros Hurl Hnone. unfold Extractor.categories.
    rewrite Hnone, Hb, <- Hurl. monad.
    by rewrite (dict_by_id_all_pages _ s fuel Hs Hfuel Hall).
  - intros Hurl Hnone. unfold Extractor.tags.
    rewrite Hnone, Hb, <- Hurl. monad.
    by rewrite (dict_by_id_all_pages _ s fuel Hs Hfuel Hall).
Qed.

(** X13: a record without an [id], or with one that cannot be a dictionary
    key, makes the first access to the property fail: with [KeyError]
    when the record is a dictionary that lacks the key, with [TypeError]
    when the record is no dictionary or its [id] is a list or a
    dictionary.  The records filed before it are dropped with the
    computation: the extractor is what it was, its cache still empty. *)
Theorem record_without_id_fails_cache s fuel before x after :
  http s = server → base_url (ext s) = b →
  (length (concat pages) < fuel)%nat →
  concat pages = before ++ x :: after →
  Forall (fun x => is_Some (id_key x)) before →
  id_key x = None →
  (url = Extractor.categories_url b → cached_categories (ext s) = None →
   fst (Extractor.categories fuel s) = Raise (id_error x)
   ∧ ext (snd (Extractor.categories fuel s)) = ext s)
  ∧ (url = Extractor.tags_url b → cached_tags (ext s) = None →
     fst (Extractor.tags fuel s) = Raise (id_error x)
     ∧ ext (snd (Extractor.tags fuel s)) = ext s).
Proof.
  intros Hs Hb Hfuel Hpages Hbefore Hbad.
  assert (Hrun : ∀ base_params,
            fst (Extractor.dict_by_id fuel
                   (Extractor.pageWhileList url base_params) ∅ s)
            = Raise (id_error x)).
  { intros bp. eapply dict_by_id_bad_record; [|done..].
    rewrite <- Hpages. by apply to_list_all_pages. }
  specialize (Hrun Extractor.default_base_params).
  pose proof (dict_by_id_same_ext fuel
                (Extractor.pageWhileList url Extractor.default_base_params)
                ∅ s) as E.
  split; intros Hurl Hnone.
  - unfold Extractor.categories. rewrite Hnone, Hb, <- Hurl. monad.
    destruct (Extractor.dict_by_id _ _ _ s) as [[v| |] s1]; simpl in *; done.
  - unfold Extractor.tags. rewrite Hnone, Hb, <- Hurl. monad.
    destruct (Extractor.dict_by_id _ _ _ s) as [[v| |] s1]; simpl in *; done.
Qed.
End ReferenceCache.

(** ** The requests of a run *)

Lemma page_requests_script b url first k :
  1 <= first →
  url = Extractor.posts_url b ∨ url = Extractor.categories_url b
  ∨ url = Extractor.tags_url b →
  Forall (script_request b) (page_requests url first k).
Proof.
  intros Hfirst Hurl. unfold page_requests. apply Forall_forall.
  intros r (i & <- & _)%list_elem_of_In%in_map_iff.
  exists (first + Z.of_nat i). split; [lia|].
  destruct Hurl as [->|[->| ->]]; auto.
Qed.

Lemma sends_for_refl b s : sends_for b s s.
Proof. intros Hb. split; [done|]. exists []. by rewrite app_nil_r. Qed.

Lemma sends_for_trans b s1 s2 s3 :
  sends_for b s1 s2 → sends_for b s2 s3 → sends_for b s1 s3.
Proof.
  intros H1 H2 Hb. destruct (H1 Hb) as (Hb2 & l1 & E1 & F1).
  destruct (H2 Hb2) as (Hb3 & l2 & E2 & F2). split; [done|].
  exists (l1 ++ l2). split; [by rewrite E2, E1, app_assoc|].
  by apply Forall_app.
Qed.

Lemma file_op_sends_for {A} b (m : M A) :
  file_op m → respects (sends_for b) (sends_for b) any m.
Proof.
  intros Hm s. pose proof (file_op_same_net m s Hm) as E.
  assert (G : sends_for b s (snd (m s))).
  { rewrite <- E. intros Hb. split; [done|]. exists []. simpl.
    by rewrite app_nil_r. }
  destruct (m s) as [[a| |] s']; simpl in *; [split|..]; done.
Qed.

Lemma dict_by_id_sends_for b url fuel bp s :
  base_url (ext s) = b →
  url = Extractor.posts_url b ∨ url = Extractor.categories_url b
  ∨ url = Extractor.tags_url b →
  ∃ l, sent (snd (Extractor.dict_by_id fuel (Extractor.pageWhileList url bp) ∅ s))
       = sent s ++ l
       ∧ Forall (script_request b) l.
Proof.
  intros Hb Hurl.
  destruct (dict_by_id_run fuel (Extractor.pageWhileList url bp) ∅ s)
    as (r & k & -> & _).
  simpl. eexists. split; [done|]. by apply page_requests_script.
Qed.

Lemma categories_sends_for b fuel :
  respects (sends_for b) (sends_for b) any (Extractor.categories fuel).
Proof.
  intros s. unfold Extractor.categories.
  destruct (cached_categories (ext s)); [split; [apply sends_for_refl | done]|].
  monad.
  pose proof (dict_by_id_same_ext fuel
                (Extractor.pageWhileList
                   (Extractor.categories_url (base_url (ext s)))
                   Extractor.default_base_params) ∅ s) as E.
  assert (G : sends_for b s
                (snd (Extractor.dict_by_id fuel
                        (Extractor.pageWhileList
                           (Extractor.categories_url (base_url (ext s)))
                           Extractor.default_base_params) ∅ s))).
  { intros Hb. rewrite E. split; [done|].
    apply dict_by_id_sends_for; [done|]. rewrite Hb. auto. }
  destruct (Extractor.dict_by_id _ _ _ s) as [[v| |] s1]; simpl in *;
    [split; [|done]|done..].
  intros Hb. destruct (G Hb) as (Hb1 & l & El & Fl). simpl.
  split; [done|]. by exists l.
Qed.

Lemma tags_sends_for b fuel :
  respects (sends_for b) (sends_for b) any (Extractor.tags fuel).
Proof.
  intros s. unfold Extractor.tags.
  destruct (cached_tags (ext s)); [split; [apply sends_for_refl | done]|].
  monad.
  pose proof (dict_by_id_same_ext fuel
                (Extractor.pageWhileList
                   (Extractor.tags_url (base_url (ext s)))
                   Extractor.default_base_params) ∅ s) as E.
  assert (G : sends_for b s
                (snd (Extractor.dict_by_id fuel
                        (Extractor.pageWhileList
                           (Extractor.tags_url (base_url (ext s)))
                           Extractor.default_base_params) ∅ s))).
  { intros Hb. rewrite E. split; [done|].
    apply dict_by_id_sends_for; [done|]. rewrite Hb. auto. }
  destruct (Extractor.dict_by_id _ _ _ s) as [[v| |] s1]; simpl in *;
    [split; [|done]|done..].
  intros Hb. destruct (G Hb) as (Hb1 & l & El & Fl). simpl.
  split; [done|]. by exists l.
Qed.

Lemma next_sends_for b g :
  Extractor.g_url g = Extractor.posts_url b
  ∧ (Extractor.g_frame g = Extractor.Finished
     ∨ 1 <= next_page (Extractor.g_frame g)) →
  respects (sends_for b) (sends_for b)
    (fun r => Extractor.g_url (snd r) = Extractor.posts_url b
              ∧ (Extractor.g_frame (snd r) = Extractor.Finished
                 ∨ 1 <= next_page (Extractor.g_frame (snd r))))
    (Extractor.next g).
Proof.
  intros [Hurl Hpage] s.
  destruct (next_run g s) as (r & k & -> & Hfin & Hr).
  assert (G : sends_for b s
                (set_sent (sent s ++ page_requests (Extractor.g_url g)
                             (next_page (Extractor.g_frame g)) k) s)).
  { intros Hb. split; [done|]. eexists. split; [done|].
    destruct Hpage as [Hf|Hpage].
    - destruct (Hfin Hf) as [-> _]. constructor.
    - apply page_requests_script; [done|]. auto. }
  destruct r as [[o g']| |]; [|done..]. split; [done|]. simpl.
  destruct Hr as [Hurl' Hframe]. split; [congruence|].
  destruct Hframe as [?|Hnext]; [by left|].
  destruct Hpage as [Hf|Hpage].
  - destruct (Hfin Hf) as [_ [= _ <-]]. by left.
  - right. lia.
Qed.

Lemma posts_untouched_refl b s : posts_untouched b s s.
Proof. done. Qed.

Lemma posts_untouched_trans b s1 s2 s3 :
  posts_untouched b s1 s2 → posts_untouched b s2 s3 → posts_untouched b s1 s3.
Proof.
  intros H1 H2 Hb. destruct (H1 Hb) as [Hb2 E1].
  destruct (H2 Hb2) as [Hb3 E2]. split; [done | congruence].
Qed.

Lemma categories_posts_untouched b fuel :
  respects (posts_untouched b) (posts_untouched b) any (Extractor.categories fuel).
Proof.
  intros s. unfold Extractor.categories.
  destruct (cached_categories (ext s)); [by split|].
  monad.
  pose proof (dict_by_id_same_ext fuel
                (Extractor.pageWhileList
                   (Extractor.categories_url (base_url (ext s)))
                   Extractor.default_base_params) ∅ s) as E.
  destruct (dict_by_id_run fuel
              (Extractor.pageWhileList
                 (Extractor.categories_url (base_url (ext s)))
                 Extractor.default_base_params) ∅ s) as (r & k & Hrun & _).
  rewrite Hrun in *. simpl in E.
  assert (G : ∀ e, base_url e = base_url (ext s) →
            posts_untouched b s
              (set_ext e (set_sent (sent s ++ page_requests
                            (Extractor.categories_url (base_url (ext s))) 1 k) s))).
  { intros e He Hb. simpl. split; [congruence|].
    rewrite requests_to_app, requests_to_other, app_nil_r; [done|].
    apply endpoints_distinct. }
  destruct r as [v| |]; simpl.
  - split; [|done]. by apply G.
  - specialize (G (ext s) eq_refl). by destruct s.
  - specialize (G (ext s) eq_refl). by destruct s.
Qed.

Lemma tags_posts_untouched b fuel :
  respects (posts_untouched b) (posts_untouched b) any (Extractor.tags fuel).
Proof.
  intros s. unfold Extractor.tags.
  destruct (cached_tags (ext s)); [by split|].
  monad.
  destruct (dict_by_id_run fuel
              (Extractor.pageWhileList
                 (Extractor.tags_url (base_url (ext s)))
                 Extractor.default_base_params) ∅ s) as (r & k & Hrun & _).
  rewrite Hrun in *.
  assert (G : ∀ e, base_url e = base_url (ext s) →
            posts_untouched b s
              (set_ext e (set_sent (sent s ++ page_requests
                            (Extractor.tags_url (base_url (ext s))) 1 k) s))).
  { intros e He Hb. simpl. split; [congruence|].
    rewrite requests_to_app, requests_to_other, app_nil_r; [done|].
    apply endpoints_distinct. }
  destruct r as [v| |]; simpl.
  - split; [|done]. by apply G.
  - specialize (G (ext s) eq_refl). by destruct s.
  - specialize (G (ext s) eq_refl). by destruct s.
Qed.

Section RunRequests.
Context `{!HtmlEntities}.

Lemma enhance_post_posts_untouched b fuel data :
  respects (posts_untouched b) (posts_untouched b) any
           (Extractor.enhance_post fuel data).
Proof.
  apply respects_enhance_post;
    [ apply posts_untouched_refl | apply posts_untouched_trans
    | apply posts_untouched_trans | apply posts_untouched_refl
    | apply categories_posts_untouched | apply tags_posts_untouched ].
Qed.

Lemma main_loop_posts_once b fuel : ∀ g s,
  posts_fetch_inv b g s →
  fetched_once (Extractor.posts_url b) (sent (snd (main_loop fuel g s))).
Proof.
  induction fuel as [|fuel IH]; intros g s (Hb & Hurl & k & Hlog & Hframe).
  { simpl. by exists k. }
  simpl. unfold Extractor.next_post. monad.
  destruct (next_run g s) as (r & k' & -> & Hfin & Hr).
  set (s1 := set_sent (sent s ++ page_requests (Extractor.g_url g)
                                  (next_page (Extractor.g_frame g)) k') s).
  assert (Hlog1 : ∃ k1 : nat,
            requests_to (Extractor.posts_url b) (sent s1)
            = page_requests (Extractor.posts_url b) 1 k1
            ∧ ∀ o g', r = Ok (o, g') →
                Extractor.g_frame g' = Extractor.Finished
                ∨ next_page (Extractor.g_frame g') = 1 + Z.of_nat k1).
  { simpl. rewrite requests_to_app, Hlog, Hurl.
    destruct Hframe as [Hf|Hk].
    - destruct (Hfin Hf) as [-> ->]. exists k. simpl. rewrite app_nil_r.
      split; [done|]. intros o g' [= _ <-]. by left.
    - exists (k + k')%nat. rewrite Hk, requests_to_same.
      split; [apply page_requests_app|].
      intros o g' ->. destruct Hr as [_ [?|Hnext]]; [by left|]. right. lia. }
  destruct Hlog1 as (k1 & Hlog1 & Hframe1).
  destruct r as [[[data|] g']| |]; simpl; try (by eexists).
  specialize (Hframe1 _ _ eq_refl). destruct Hr as [Hurl' _].
  pose proof (enhance_post_posts_untouched b fuel data s1) as Henh.
  destruct (Extractor.enhance_post fuel data s1) as [[post| |] s2]; simpl.
  - destruct Henh as [Henh _]. destruct (Henh Hb) as [Hb2 Hlog2].
    monad.
    pose proof (file_op_same_net (Constructor.add_post post) s2
                  (file_op_add_post post)) as Hadd.
    destruct (Constructor.add_post post s2) as [[[]| |] s3]; simpl in *.
    + apply IH. rewrite <- Hadd. split; [done|]. split; [congruence|].
      simpl. rewrite Hlog2, Hlog1. by exists k1.
    + rewrite <- Hadd. exists k1. simpl. by rewrite Hlog2, Hlog1.
    + rewrite <- Hadd. exists k1. simpl. by rewrite Hlog2, Hlog1.
  - destruct (Henh Hb) as [_ Hlog2]. exists k1. by rewrite Hlog2, Hlog1.
  - destruct (Henh Hb) as [_ Hlog2]. exists k1. by rewrite Hlog2, Hlog1.
Qed.

(** X14: the requests of a run.  Whatever the server answers and however
    the run ends, every request that the script has sent is a request
    for a page, numbered from 1, of the posts, the categories or the
    tags of the site, with the headers of [BASE_HEADERS] and the page
    number as its only parameter; and the posts endpoint has received the
    requests of one paginated fetch: pages [1], [2], ... in order, each
    once. *)
Theorem main_requests_pages_of_three_listings fuel server disk url target :
  let s' := snd (main fuel (initial server disk url target)) in
  Forall (script_request url) (sent s')
  ∧ fetched_once (Extractor.posts_url url) (sent s')
  ∧ ∀ r, script_request url r →
         req_headers r = Extractor.BASE_HEADERS
         ∧ ∃ page, req_params r = {[ py "page" := PInt page ]}.
Proof.
  intros s'. subst s'. split; [|split].
  - unfold main. monad. unfold Extractor.get_posts.
    set (s := initial server disk url target).
    set (g := Extractor.pageWhileList (Extractor.posts_url (base_url (ext s)))
                Extractor.default_base_params).
    assert (Hinv : respects (sends_for url) (sends_for url) any (main_loop fuel g)).
    { apply (respects_main_loop (sends_for url) (sends_for url)
               (fun g => Extractor.g_url g = Extractor.posts_url url
                         ∧ (Extractor.g_frame g = Extractor.Finished
                            ∨ 1 <= next_page (Extractor.g_frame g)))).
      - apply sends_for_refl.
      - apply sends_for_trans.
      - apply sends_for_trans.
      - apply sends_for_refl.
      - apply next_sends_for.
      - apply categories_sends_for.
      - apply tags_sends_for.
      - intros post. apply file_op_sends_for, file_op_add_post.
      - split; [done|]. by right. }
    specialize (Hinv s).
    assert (G : sends_for url s (snd (main_loop fuel g s))).
    { by destruct (main_loop fuel g s) as [[[]| |] s']; [destruct Hinv|..]. }
    destruct (G eq_refl) as (_ & l & -> & Hl). done.
  - unfold main. monad. unfold Extractor.get_posts.
    apply main_loop_posts_once. split; [done|]. split; [done|].
    exists 0%nat. split; [done|]. by right.
  - intros r (page & _ & [->|[->| ->]]); split; try done; by exists page.
Qed.
End RunRequests.

(** ** What the normalizer rejects *)


Section Rejected.
Context `{!HtmlEntities}.



(** X16: the normalizer subscripts the record with all of its eight keys,
    and the title, the content and the excerpt with [rendered] as well;
    none of them is optional.  So when it returns a post, the record has
    these keys, its two timestamps are strings that read as timestamps
    without offset, and the post carries them tagged UTC. *)
Theorem enhance_post_needs_every_field fuel data s post s' :
  Extractor.enhance_post fuel data s = (Ok post, s') →
  (∀ field,
     field ∈ List.map py ["date_gmt"; "modified_gmt"; "title"; "slug";
                          "categories"; "tags"; "content"; "excerpt"]%string →
     ∃ v, getitem data field = Ok v)
  ∧ (∀ field,
       field ∈ List.map py ["title"; "content"; "excerpt"]%string →
       ∃ v r, getitem data field = Ok v ∧ getitem v (py "rendered") = Ok r)
  ∧ (∃ t1 d1 t2 d2,
       getitem data (py "date_gmt") = Ok (JStr t1) ∧ naive_iso t1 d1
       ∧ Post.published post = as_utc d1
       ∧ getitem data (py "modified_gmt") = Ok (JStr t2) ∧ naive_iso t2 d2
       ∧ Post.modified post = as_utc d2).
Proof.
  unfold Extractor.enhance_post. monad. unfold lift.
  assert (Hutc : ∀ field dt,
            Extractor.utc_field data field = Ok dt →
            ∃ t d, getitem data field = Ok (JStr t) ∧ naive_iso t d
                   ∧ dt = as_utc d).
  { intros field dt. unfold Extractor.utc_field.
    destruct (getitem data field) as [v| |]; [|done..].
    destruct v as [| | |t| |]; try done. simpl.
    destruct (fromisoformat t) as [d| |] eqn:E; [|done..].
    unfold localize. destruct (tzinfo d) eqn:Etz; [done|].
    intros [= <-]. by exists t, d. }
  assert (Hren : ∀ field text,
            Extractor.rendered_field data field = Ok text →
            ∃ v r, getitem data field = Ok v ∧ getitem v (py "rendered") = Ok r).
  { intros field text. unfold Extractor.rendered_field.
    destruct (getitem data field) as [v| |]; [|done..].
    destruct (getitem v (py "rendered")) as [r| |] eqn:Er; [|done..].
    intros _. by exists v, r. }
  assert (Hids : ∀ field ids,
            Extractor.id_list data field = Ok ids →
            ∃ v, getitem data field = Ok v).
  { intros field ids. unfold Extractor.id_list.
    destruct (getitem data field) as [v| |]; [|done..]. intros _. by exists v. }
  destruct (Extractor.utc_field data (py "date_gmt")) as [p| |] eqn:E1; [|done..].
  destruct (Extractor.utc_field data (py "modified_gmt")) as [m| |] eqn:E2;
    [|done..].
  destruct (Extractor.rendered_field data (py "title")) as [ti| |] eqn:E3;
    [|done..].
  destruct (getitem data (py "slug")) as [sl| |] eqn:E4; [|done..].
  destruct (as_str sl) as [slug| |]; [|done..].
  destruct (Extractor.id_list data (py "categories")) as [cs| |] eqn:E5;
    [|done..].
  destruct (Extractor.resolve_names _ cs s) as [[cn| |] s1]; [|done..].
  destruct (Extractor.id_list data (py "tags")) as [ts| |] eqn:E6; [|done..].
  destruct (Extractor.resolve_names _ ts s1) as [[tn| |] s2]; [|done..].
  destruct (Extractor.rendered_field data (py "content")) as [co| |] eqn:E7;
    [|done..].
  destruct (Extractor.rendered_field data (py "excerpt")) as [ex| |] eqn:E8;
    [|done..].
  intros [= <- <-].
  destruct (Hutc _ _ E1) as (t1 & d1 & G1 & N1 & ->).
  destruct (Hutc _ _ E2) as (t2 & d2 & G2 & N2 & ->).
  split; [|split].
  - intros field Hin. simpl in Hin.
    repeat (apply elem_of_cons in Hin as [->|Hin]); eauto.
    + destruct (Hren _ _ E3) as (v & _ & ? & _). eauto.
    + destruct (Hren _ _ E7) as (v & _ & ? & _). eauto.
    + destruct (Hren _ _ E8) as (v & _ & ? & _). eauto.
    + by apply elem_of_nil in Hin.
  - intros field Hin. simpl in Hin.
    repeat (apply elem_of_cons in Hin as [->|Hin]); eauto.
    by apply elem_of_nil in Hin.
  - by exists t1, d1, t2, d2.
Qed.

(** X17: a timestamp in the form that [isoformat] itself writes passes
    through the pipeline as it is.  For a record whose [date_gmt] and
    [modified_gmt] are the renderings [YYYY-MM-DDTHH:MM:SS[.ffffff]] of
    valid timestamps, the [date] and [lastmod] of the front matter are
    these very strings followed by [+00:00]: reading the string and
    rendering the result gives the string back. *)
Theorem canonical_timestamp_kept fuel data r d1 d2 cnames tnames s s1 s2 :
  has_fields data r →
  valid_datetime d1 = true → tzinfo d1 = None → raw_date_gmt r = isoformat d1 →
  valid_datetime d2 = true → tzinfo d2 = None → raw_modified_gmt r = isoformat d2 →
  resolves_through (Extractor.categories fuel) (raw_categories r) cnames s s1 →
  resolves_through (Extractor.tags fuel) (raw_tags r) tnames s1 s2 →
  ∃ post kvs,
    Extractor.enhance_post fuel data s = (Ok post, s2)
    ∧ Post.metadata post = JObj kvs
    ∧ assoc (py "date") kvs = Some (JStr (raw_date_gmt r ++ py "+00:00"))
    ∧ assoc (py "lastmod") kvs = Some (JStr (raw_modified_gmt r ++ py "+00:00")).
Proof.
  intros Hf Hv1 Hz1 E1 Hv2 Hz2 E2 Hc Ht.
  pose proof (naive_iso_isoformat d1 Hv1 Hz1) as N1.
  pose proof (naive_iso_isoformat d2 Hv2 Hz2) as N2.
  rewrite <- E1 in N1. rewrite <- E2 in N2.
  pose proof (enhance_post_ok fuel data r d1 d2 cnames tnames s s1 s2
                Hf N1 N2 Hc Ht) as Hrun.
  destruct (metadata_dates
              (Post.mk (as_utc d1) (as_utc d2) (unescape (raw_title r))
                       (raw_slug r) (unescape (raw_content r))
                       (unescape (raw_excerpt r)) [] cnames tnames []))
    as (kvs & Hkvs & Hdate & Hlastmod).
  cbn [Post.published Post.modified] in Hdate, Hlastmod.
  rewrite isoformat_as_utc in Hdate by done.
  rewrite isoformat_as_utc in Hlastmod by done.
  eexists _, kvs. split; [exact Hrun|]. split; [done|].
  by rewrite E1, E2.
Qed.
End Rejected.

(** ** Reading the document back *)

Lemma line_split_inj (a a' b b' : str) :
  10%N ∉ a → 10%N ∉ a' → a ++ 10%N :: b = a' ++ 10%N :: b' → a = a' ∧ b = b'.
Proof.
  revert a'. induction a as [|x a IH]; intros [|x' a'] Ha Ha'; simpl.
  - by intros [= ->].
  - intros [= <- _]. destruct Ha'. by left.
  - intros [= -> _]. destruct Ha. by left.
  - intros [= <- E]. apply not_elem_of_cons in Ha as [_ Ha].
    apply not_elem_of_cons in Ha' as [_ Ha'].
    destruct (IH a' Ha Ha' E) as [-> ->]. done.
Qed.

Lemma front_matter_no_newline p : 10%N ∉ Post.front_matter p.
Proof.
  intros Hin. pose proof (front_matter_printable p) as Hp.
  rewrite Forall_forall in Hp. apply Hp in Hin. unfold printable in Hin. lia.
Qed.

(** X18: the document can be taken apart again.  Since the front matter
    has no line feed, the first line feed of the document marks its end:
    two posts with the same document have the same front matter and the
    same content. *)
Theorem md_splits_back p q :
  Post.md p = Post.md q →
  Post.front_matter p = Post.front_matter q ∧ Post.content p = Post.content q.
Proof.
  unfold Post.md. intros E.
  apply line_split_inj in E as [Hfm E];
    [|apply front_matter_no_newline..].
  split; [done|]. by injection E.
Qed.

(** *** Hexadecimal digits *)

Lemma of_hex_uint_acc_value u : ∀ p,
  Npos (Pos.of_hex_uint_acc u p) = hex_uint_value (Npos p) u.
Proof.
  induction u; intros p; simpl; [done|..]; rewrite IHu; f_equal; lia.
Qed.

Lemma of_hex_uint_value u : N.of_hex_uint u = hex_uint_value 0 u.
Proof.
  unfold N.of_hex_uint.
  induction u; simpl; try done; by rewrite of_hex_uint_acc_value.
Qed.

Lemma to_hex_uint_value n : hex_uint_value 0 (N.to_hex_uint n) = n.
Proof. rewrite <- of_hex_uint_value. apply HexadecimalN.Unsigned.of_to. Qed.

Lemma hex_nzhead_no_zero u :
  match Hexadecimal.nzhead u with Hexadecimal.D0 _ => False | _ => True end.
Proof. induction u; simpl; done. Qed.

Lemma hex_uint_value_lower u : ∀ acc,
  (acc * 16 ^ N.of_nat (length (hex_chars u)) <= hex_uint_value acc u)%N.
Proof.
  induction u; intros acc; simpl length; simpl hex_uint_value;
    [simpl; lia|..];
    rewrite Nat2N.inj_succ, N.pow_succ_r';
    (etransitivity; [|apply IHu]); nia.
Qed.

Lemma to_hex_uint_length n w :
  (n < 16 ^ N.of_nat w)%N → (1 <= w)%nat →
  (length (hex_chars (N.to_hex_uint n)) <= w)%nat.
Proof.
  intros Hn Hw.
  pose proof (to_hex_uint_value n) as Hv.
  assert (Hnorm : Hexadecimal.unorm (N.to_hex_uint n) = N.to_hex_uint n).
  { rewrite <- (HexadecimalN.Unsigned.to_of (N.to_hex_uint n)).
    by rewrite HexadecimalN.Unsigned.of_to. }
  assert (Hbig : ∀ (k : N) l, (1 <= k)%N → hex_uint_value k l = n →
            (length (hex_chars l) < w)%nat).
  { intros k l Hk Hl. pose proof (hex_uint_value_lower l k) as Hlow.
    rewrite Hl in Hlow.
    destruct (Nat.lt_ge_cases (length (hex_chars l)) w) as [|Hge]; [done|].
    assert (16 ^ N.of_nat w <= 16 ^ N.of_nat (length (hex_chars l)))%N
      by (apply N.pow_le_mono_r; lia).
    nia. }
  destruct (N.to_hex_uint n) as [|u|u|u|u|u|u|u|u|u|u|u|u|u|u|u|u];
    simpl in Hv |- *; try (apply (Hbig _ u) in Hv; lia).
  - lia.
  - unfold Hexadecimal.unorm in Hnorm. simpl in Hnorm.
    pose proof (hex_nzhead_no_zero u) as Hz.
    destruct (Hexadecimal.nzhead u); try done. injection Hnorm as <-. simpl. lia.
Qed.

Lemma int_of_hex_chars u : ∀ acc,
  fold_left (fun a c => (16 * a + hex_value c)%N) (hex_chars u) acc
  = hex_uint_value acc u.
Proof.
  induction u; intros acc; cbn [hex_chars fold_left hex_uint_value]; [done|..];
    rewrite IHu; f_equal;
    match goal with
    | |- context [hex_value ?c] =>
        let v := eval vm_compute in (hex_value c) in
        change (hex_value c) with v
    end; lia.
Qed.

Lemma int_of_zeros k :
  fold_left (fun a c => (16 * a + hex_value c)%N) (repeat 48%N k) 0%N = 0%N.
Proof. induction k as [|k IH]; simpl; [done | exact IH]. Qed.

(** Four hexadecimal digits and the number they denote. *)
Lemma fmt_04x_value n :
  (n < 0x10000)%N →
  length (fmt_04x n) = 4%nat ∧ int_of_digits 16 (fmt_04x n) = n.
Proof.
  intros Hn. unfold fmt_04x, zfill, int_of_digits.
  pose proof (to_hex_uint_length n 4 Hn) as Hlen.
  split.
  - rewrite length_app, repeat_length. lia.
  - by rewrite fold_left_app, int_of_zeros, int_of_hex_chars, to_hex_uint_value.
Qed.

Lemma u_escape_read n rest :
  (n < 0x10000)%N →
  ∃ digits, u_escape n ++ rest = 92%N :: 117%N :: digits ++ rest
            ∧ length digits = 4%nat ∧ int_of_digits 16 digits = n.
Proof.
  intros Hn. destruct (fmt_04x_value n Hn) as [Hlen Hval].
  exists (fmt_04x n). by repeat split.
Qed.

(** *** One character *)

Lemma surrogate_pair c :
  (0x10000 <= c < 0x110000)%N →
  let n := (c - 0x10000)%N in
  N.lor 0xd800 (N.land (N.shiftr n 10) 0x3ff) = (0xD800 + n / 0x400)%N
  ∧ N.lor 0xdc00 (N.land n 0x3ff) = (0xDC00 + n mod 0x400)%N.
Proof.
  intros Hc n.
  assert (Hn : (n < 0x100000)%N) by (unfold n; lia).
  assert (Hlor : ∀ a x, N.land a 0x3ff = 0%N → (x < 0x400)%N → N.lor a x = (a + x)%N).
  { intros a x Ha Hx.
    assert (Hd : N.land a x = 0%N).
    { rewrite <- (N.mod_small x 0x400) by done.
      change 0x400%N with (2 ^ 10)%N. rewrite <- N.land_ones.
      change (N.ones 10) with 0x3ff%N.
      rewrite (N.land_comm x), N.land_assoc, Ha. apply N.land_0_l. }
    by rewrite <- (N.lxor_lor _ _ Hd), (N.add_nocarry_lxor _ _ Hd). }
  change 0x3ff%N with (N.ones 10). rewrite !N.land_ones, N.shiftr_div_pow2.
  change (2 ^ 10)%N with 0x400%N.
  assert (Hq : (n / 0x400 < 0x400)%N).
  { apply N.Div0.div_lt_upper_bound. lia. }
  rewrite (N.mod_small (n / 0x400)) by done.
  split; apply Hlor; try done. by apply N.mod_lt.
Qed.

Lemma decode_encode_char c rest :
  scalar c → decode_char (encode_char c ++ rest) = Some (c, rest).
Proof.
  intros [Hsur Hmax]. unfold encode_char.
  destruct (N.eqb_spec c 34) as [->|H34]; [done|].
  destruct (N.eqb_spec c 92) as [->|H92]; [done|].
  destruct ((32 <=? c) && (c <=? 126))%N eqn:E.
  { simpl. destruct (N.eqb_spec c 34); [done|].
    by destruct (N.eqb_spec c 92). }
  destruct (N.eqb_spec c 8) as [->|H8]; [done|].
  destruct (N.eqb_spec c 12) as [->|H12]; [done|].
  destruct (N.eqb_spec c 10) as [->|H10]; [done|].
  destruct (N.eqb_spec c 13) as [->|H13]; [done|].
  destruct (N.eqb_spec c 9) as [->|H9]; [done|].
  destruct (N.ltb_spec c 0x10000) as [Hlow|Hhigh].
  - destruct (u_escape_read c rest Hlow) as (ds & -> & Hlen & Hval).
    unfold decode_char.
    change (92 =? 34)%N with false. change (92 =? 92)%N with true.
    change (117 =? 117)%N with true. cbv iota zeta.
    rewrite take_app_length', drop_app_length' by done. rewrite Hval.
    destruct (N.leb_spec 0xD800 c); [|done].
    destruct (N.leb_spec c 0xDBFF); [lia | done].
  - destruct (surrogate_pair c) as [E1 E2]; [lia|].
    cbv zeta in E1, E2. rewrite E1, E2.
    set (n := (c - 0x10000)%N) in *.
    assert (Hn : (n < 0x100000)%N) by (unfold n; lia).
    assert (Hc : c = (n + 0x10000)%N) by (unfold n; lia).
    pose proof (N.Div0.div_mod n 0x400) as Hdm.
    assert (Hq : (n / 0x400 < 0x400)%N).
    { apply N.Div0.div_lt_upper_bound. lia. }
    assert (Hr : (n mod 0x400 < 0x400)%N) by (by apply N.mod_lt).
    set (q := (n / 0x400)%N) in *. set (r := (n mod 0x400)%N) in *.
    clearbody q r n.
    rewrite <- app_assoc.
    destruct (u_escape_read (0xD800 + q) (u_escape (0xDC00 + r) ++ rest))
      as (ds1 & -> & Hlen1 & Hval1); [lia|].
    destruct (u_escape_read (0xDC00 + r) rest)
      as (ds2 & -> & Hlen2 & Hval2); [lia|].
    unfold decode_char.
    change (92 =? 34)%N with false. change (92 =? 92)%N with true.
    change (117 =? 117)%N with true. cbv iota zeta.
    rewrite take_app_length', drop_app_length' by done. rewrite Hval1.
    destruct (N.leb_spec 0xD800 (0xD800 + q)); [|lia].
    destruct (N.leb_spec (0xD800 + q) 0xDBFF); [|lia].
    simpl andb. cbv iota.
    change (drop 2 (92%N :: 117%N :: ds2 ++ rest)) with (ds2 ++ rest).
    change (drop 6 (92%N :: 117%N :: ds2 ++ rest)) with (drop 4 (ds2 ++ rest)).
    rewrite take_app_length', drop_app_length' by done. rewrite Hval2.
    do 2 f_equal. lia.
Qed.

(** *** Strings, lists and the front matter *)

Lemma encode_chars_inj s : ∀ s' r r',
  text s → text s' →
  flat_map encode_char s ++ 34%N :: r = flat_map encode_char s' ++ 34%N :: r' →
  s = s' ∧ r = r'.
Proof.
  induction s as [|c s IH]; intros [|c' s'] r r' Hs Hs'; simpl.
  - by intros [= ->].
  - intros E. apply (f_equal decode_char) in E.
    inversion Hs' as [|? ? Hc' _]; subst.
    rewrite <- app_assoc, (decode_encode_char _ _ Hc') in E. done.
  - intros E. apply (f_equal decode_char) in E.
    inversion Hs as [|? ? Hc _]; subst.
    rewrite <- app_assoc, (decode_encode_char _ _ Hc) in E. done.
  - intros E. apply (f_equal decode_char) in E.
    inversion Hs as [|? ? Hc Hs0]; subst.
    inversion Hs' as [|? ? Hc' Hs0']; subst.
    rewrite <- !app_assoc in E.
    rewrite (decode_encode_char _ _ Hc), (decode_encode_char _ _ Hc') in E.
    injection E as -> E. by destruct (IH s' r r' Hs0 Hs0' E) as [-> ->].
Qed.

Lemma encode_string_inj s s' r r' :
  text s → text s' →
  encode_basestring_ascii s ++ r = encode_basestring_ascii s' ++ r' →
  s = s' ∧ r = r'.
Proof.
  intros Hs Hs'. unfold encode_basestring_ascii. simpl.
  rewrite <- !app_assoc. simpl. intros [= E].
  by apply encode_chars_inj.
Qed.

Lemma join_cons_app sep (x : str) l z :
  join sep (x :: l) ++ z
  = x ++ match l with [] => z | _ => sep ++ join sep l ++ z end.
Proof. destruct l; simpl; [done|]. by rewrite <- !app_assoc. Qed.

Lemma join_strings_inj l : ∀ l' r r',
  Forall text l → Forall text l' →
  join (py ", ") (List.map encode_basestring_ascii l) ++ 93%N :: r
  = join (py ", ") (List.map encode_basestring_ascii l') ++ 93%N :: r' →
  l = l' ∧ r = r'.
Proof.
  induction l as [|x l IH]; intros [|x' l'] r r' Hl Hl'.
  - simpl. by intros [= ->].
  - cbn [List.map]. rewrite join_cons_app. discriminate.
  - cbn [List.map]. rewrite join_cons_app. discriminate.
  - cbn [List.map]. rewrite !join_cons_app.
    inversion Hl as [|? ? Hx Hl0]; subst.
    inversion Hl' as [|? ? Hx' Hl0']; subst.
    intros E. apply encode_string_inj in E as [-> E]; [|done..].
    destruct l as [|y l], l' as [|y' l']; cbn [List.map] in E.
    + by injection E as ->.
    + discriminate.
    + discriminate.
    + apply app_inv_head in E.
      by destruct (IH (y' :: l') r r' Hl0 Hl0' E) as [-> ->].
Qed.

Lemma entry_app key (v r : str) :
  entry key v ++ r = 34%N :: py key ++ 34%N :: py ": " ++ v ++ r.
Proof.
  unfold entry. cbn [app]. rewrite <- app_assoc. cbn [app].
  by rewrite <- app_assoc.
Qed.

Lemma entry_inj key (v v' r r' : str) :
  entry key v ++ r = entry key v' ++ r' → v ++ r = v' ++ r'.
Proof.
  rewrite !entry_app. intros [= E]. apply app_inv_head in E.
  change (py ": ") with [58; 32]%N in E. by injection E.
Qed.

Lemma entry_string_inj key s s' r r' :
  text s → text s' →
  entry key (dumps (JStr s)) ++ r = entry key (dumps (JStr s')) ++ r' →
  s = s' ∧ r = r'.
Proof.
  intros Hs Hs' E%entry_inj. cbn [dumps] in E. by apply encode_string_inj.
Qed.

Lemma entry_list_inj key l l' r r' :
  Forall text l → Forall text l' →
  entry key (dumps (JList (List.map JStr l))) ++ r
  = entry key (dumps (JList (List.map JStr l'))) ++ r' →
  l = l' ∧ r = r'.
Proof.
  intros Hl Hl' E%entry_inj. cbn [dumps] in E. rewrite !List.map_map in E.
  cbn [dumps app] in E. injection E as E.
  rewrite <- !app_assoc in E. by apply join_strings_inj.
Qed.

(** X19: the front matter loses nothing.  For posts whose strings consist
    of Unicode scalar values, the serialized front matter determines
    every field that it carries: two posts with the same front matter
    have the same title, categories, tags, aliases, author, slug and
    summary, and their two timestamps have the same rendering.  Together
    with the content, which follows the blank line, the document
    determines the post up to the rendering of its timestamps. *)
Theorem front_matter_determines_fields p q :
  post_text p → post_text q →
  Post.front_matter p = Post.front_matter q →
  Post.title p = Post.title q
  ∧ Post.categories p = Post.categories q
  ∧ Post.tags p = Post.tags q
  ∧ Post.aliases p = Post.aliases q
  ∧ Post.author p = Post.author q
  ∧ isoformat (Post.published p) = isoformat (Post.published q)
  ∧ isoformat (Post.modified p) = isoformat (Post.modified q)
  ∧ Post.slug p = Post.slug q
  ∧ Post.summary p = Post.summary q.
Proof.
  intros (Pt & Pc & Pg & Pa & Pu & Ps & Pm) (Qt & Qc & Qg & Qa & Qu & Qs & Qm).
  assert (Hiso : ∀ d, text (isoformat d)).
  { intros d. eapply Forall_impl; [apply isoformat_printable|].
    unfold printable, scalar. intros c. simpl. lia. }
  rewrite !front_matter_entries. intros E.
  apply (app_inv_head [123%N]) in E.
  apply entry_string_inj in E as [Et E]; [|done..]. apply app_inv_head in E.
  apply entry_list_inj in E as [Ec E]; [|done..]. apply app_inv_head in E.
  apply entry_list_inj in E as [Eg E]; [|done..]. apply app_inv_head in E.
  apply entry_list_inj in E as [Ea E]; [|done..]. apply app_inv_head in E.
  apply entry_string_inj in E as [Eu E]; [|done..]. apply app_inv_head in E.
  apply entry_string_inj in E as [Ed E]; [|done..]. apply app_inv_head in E.
  apply entry_string_inj in E as [El E]; [|done..]. apply app_inv_head in E.
  apply entry_string_inj in E as [Es E]; [|done..]. apply app_inv_head in E.
  apply entry_string_inj in E as [Em E]; [|done..].
  by repeat split.
Qed.

(** ** A whole run against a well-behaved server *)

Section EndToEnd.
Context `{!HtmlEntities}.
Variable b : str.
Variable server : list Request → Request → option Response.
Variables post_pages cat_pages tag_pages : list (list JSON).
Variable last : JSON.
Hypothesis serves_posts : serves server (Extractor.posts_url b) post_pages last.
Hypothesis serves_categories :
  serves server (Extractor.categories_url b) cat_pages last.
Hypothesis serves_tags : serves server (Extractor.tags_url b) tag_pages last.
Hypothesis last_ends : end_of_data last.
Hypothesis categories_have_ids :
  Forall (fun x => is_Some (id_key x)) (concat cat_pages).
Hypothesis tags_have_ids :
  Forall (fun x => is_Some (id_key x)) (concat tag_pages).

Local Abbreviation ccache := (index_by_id (concat cat_pages) ∅).
Local Abbreviation tcache := (index_by_id (concat tag_pages) ∅).
Local Abbreviation Inv := (serving server b ccache tcache).

Lemma categories_serving fuel s :
  Inv s → (length (concat cat_pages) < fuel)%nat →
  ∃ s', Extractor.categories fuel s = (Ok ccache, s') ∧ Inv s'.
Proof.
  intros (Hs & Hb & [Hc|Hc] & Ht) Hfuel.
  - destruct serves_categories as (Hne & Hpages & Hlast).
    unfold Extractor.categories. rewrite Hc, Hb. monad.
    rewrite (dict_by_id_all_pages _ server cat_pages last Hne Hpages Hlast
               last_ends _ s fuel Hs Hfuel categories_have_ids).
    simpl. eexists. split; [reflexivity|]. repeat split; simpl; auto.
  - exists s. split; [by apply categories_memoized | by repeat split; auto].
Qed.

Lemma tags_serving fuel s :
  Inv s → (length (concat tag_pages) < fuel)%nat →
  ∃ s', Extractor.tags fuel s = (Ok tcache, s') ∧ Inv s'.
Proof.
  intros (Hs & Hb & Hc & [Ht|Ht]) Hfuel.
  - destruct serves_tags as (Hne & Hpages & Hlast).
    unfold Extractor.tags. rewrite Ht, Hb. monad.
    rewrite (dict_by_id_all_pages _ server tag_pages last Hne Hpages Hlast
               last_ends _ s fuel Hs Hfuel tags_have_ids).
    simpl. eexists. split; [reflexivity|]. repeat split; simpl; auto.
  - exists s. split; [by apply tags_memoized | by repeat split; auto].
Qed.

Lemma enhance_post_serving fuel s data post :
  Inv s →
  (length (concat cat_pages) < fuel)%nat →
  (length (concat tag_pages) < fuel)%nat →
  normalizes ccache tcache data post →
  ∃ s', Extractor.enhance_post fuel data s = (Ok post, s') ∧ Inv s'.
Proof.
  intros Hinv Hfc Hft (r & d1 & d2 & cnames & tnames
                       & Hf & Hd1 & Hd2 & Hcn & Htn & ->).
  assert (Hc : ∃ s1, resolves_through (Extractor.categories fuel)
                       (raw_categories r) cnames s s1 ∧ Inv s1).
  { destruct Hcn as [|i name ids names Hi Hrest].
    - by exists s.
    - destruct (categories_serving fuel s Hinv Hfc) as (s1 & Hrun & Hinv1).
      exists s1. split; [|done]. exists ccache. split; [done | by constructor]. }
  destruct Hc as (s1 & Hc & Hinv1).
  assert (Ht : ∃ s2, resolves_through (Extractor.tags fuel)
                       (raw_tags r) tnames s1 s2 ∧ Inv s2).
  { destruct Htn as [|i name ids names Hi Hrest].
    - by exists s1.
    - destruct (tags_serving fuel s1 Hinv1 Hft) as (s2 & Hrun & Hinv2).
      exists s2. split; [|done]. exists tcache. split; [done | by constructor]. }
  destruct Ht as (s2 & Ht & Hinv2).
  exists s2. split; [by eapply enhance_post_ok | done].
Qed.

Lemma stream_in_page base_params (n : nat) : ∀ (k : nat) rest ps s fuel,
  (k + n = length post_pages)%nat →
  Inv s →
  Forall2 (normalizes ccache tcache) (rest ++ concat (drop k post_pages)) ps →
  (length rest + length (concat (drop k post_pages))
   + length (concat cat_pages) + length (concat tag_pages) + 1 < fuel)%nat →
  ∃ s', Extractor.posts_to_list fuel
          (Extractor.mkGenerator (Extractor.posts_url b) base_params
             (Extractor.InPage (Z.of_nat k) rest)) s
        = (Ok ps, s')
        ∧ Inv s'.
Proof.
  destruct serves_posts as (Hne & Hpages & Hlast).
  induction n as [|n IHn]; intros k rest; induction rest as [|x rest IHrest];
    intros ps s fuel Hk Hinv Hall Hfuel.
  - (* the last page is exhausted: the next request ends the data *)
    destruct fuel as [|fuel]; [lia|]. simpl.
    unfold Extractor.next_post, Extractor.next. simpl. monad.
    replace (Z.of_nat k + 1) with (Z.of_nat (S k)) by lia.
    erewrite while_test_end; [| simpl; destruct Hinv as [-> _];
      replace k with (length post_pages) by lia; apply Hlast | apply last_ends].
    rewrite drop_ge in Hall by lia. simpl in Hall. inversion Hall; subst.
    eexists. split; [reflexivity|].
    destruct Hinv as (? & ? & ? & ?). by repeat split.
  - destruct fuel as [|fuel]; [simpl in Hfuel; lia|]. simpl.
    unfold Extractor.next_post, Extractor.next. simpl. monad.
    simpl in Hall. inversion Hall as [|? post ? ps' Hx Hrest]; subst.
    destruct (enhance_post_serving fuel s x post Hinv) as (s1 & Hrun & Hinv1);
      [simpl in Hfuel; lia..|done|].
    rewrite Hrun.
    destruct (IHrest ps' s1 fuel Hk Hinv1 Hrest) as (s' & Hrun' & Hinv');
      [simpl in Hfuel; lia|].
    unfold Extractor.resume; simpl. rewrite Hrun'.
    by exists s'.
  - (* a further page follows *)
    destruct fuel as [|fuel]; [lia|].
    destruct (lookup_lt_is_Some_2 post_pages k) as [pg Hpg]; [lia|].
    destruct pg as [|x pg];
      [by destruct (Hne [] (list_elem_of_lookup_2 _ _ _ Hpg))|].
    simpl. unfold Extractor.next_post, Extractor.next. simpl. monad.
    replace (Z.of_nat k + 1) with (Z.of_nat (S k)) by lia.
    erewrite while_test_page;
      [| simpl; destruct Hinv as [-> _]; by apply Hpages].
    rewrite (drop_S _ _ _ Hpg) in *. simpl in Hall, Hfuel.
    rewrite length_app in Hfuel.
    inversion Hall as [|? post ? ps' Hx Hrest]; subst.
    assert (Hinv0 : Inv (set_sent (sent s ++ [page_request (Extractor.posts_url b)
                                                (Z.of_nat (S k))]) s)).
    { destruct Hinv as (? & ? & ? & ?). by repeat split. }
    destruct (enhance_post_serving fuel _ x post Hinv0) as (s1 & Hrun & Hinv1);
      [lia..|done|].
    simpl Extractor.g_url. rewrite Hrun.
    destruct (IHn (S k) pg ps' s1 fuel) as (s' & Hrun' & Hinv');
      [lia | done | done | lia |].
    unfold Extractor.resume; simpl. rewrite Hrun'.
    by exists s'.
  - destruct fuel as [|fuel]; [simpl in Hfuel; lia|]. simpl.
    unfold Extractor.next_post, Extractor.next. simpl. monad.
    simpl in Hall. inversion Hall as [|? post ? ps' Hx Hrest]; subst.
    destruct (enhance_post_serving fuel s x post Hinv) as (s1 & Hrun & Hinv1);
      [simpl in Hfuel; lia..|done|].
    rewrite Hrun.
    destruct (IHrest ps' s1 fuel Hk Hinv1 Hrest) as (s' & Hrun' & Hinv');
      [simpl in Hfuel; lia|].
    unfold Extractor.resume; simpl. rewrite Hrun'.
    by exists s'.
Qed.

Lemma stream_all_pages base_params ps s fuel :
  Inv s →
  Forall2 (normalizes ccache tcache) (concat post_pages) ps →
  (length (concat post_pages) + length (concat cat_pages)
   + length (concat tag_pages) + 1 < fuel)%nat →
  ∃ s', Extractor.posts_to_list fuel
          (Extractor.pageWhileList (Extractor.posts_url b) base_params) s
        = (Ok ps, s').
Proof.
  intros Hinv Hall Hfuel.
  destruct (stream_in_page base_params (length post_pages) 0 [] ps s fuel)
    as (s' & Hrun & _); [done | done | by rewrite drop_0 | rewrite drop_0; simpl; lia|].
  exists s'. destruct fuel as [|fuel]; [lia|]. exact Hrun.
Qed.

(** X20: the whole script against a server that behaves.  Let the server
    answer the pages of the posts, the categories and the tags with
    non-empty lists and the page after the last one with an empty list
    or an error body; let every reference record have an [id], and let
    the normalizer make the posts [ps] of the records of the posts
    listing, in order, every ID of a record having its name in the
    listing of the categories or the tags.  If the slugs are path
    segments, the names along the path of each post are names that the
    system takes as written (none is [..], none holds NUL, all can be
    encoded), the content of each post can be encoded and nothing stands
    in the way in the output tree, the run
    returns normally; afterwards every post has its directory below
    [<target>/content/posts], the [index.md] of a slug holds the
    document of the last post with this slug, and every entry of the
    tree that is the file of none of the posts (and is named without
    [..], from the root of the target path) is what it was. *)
Theorem main_writes_every_post fuel disk target ps :
  let base := parse_path target in
  Forall2 (normalizes ccache tcache) (concat post_pages) ps →
  wf_fs disk →
  (∀ p, p ∈ ps →
        valid_segment (Post.slug p)
        ∧ plain_path (post_dir base (Post.slug p))
        ∧ text (Post.content p)
        ∧ unobstructed disk (post_dir base (Post.slug p))
        ∧ disk !! post_index base (Post.slug p) ≠ Some Dir) →
  (length (concat post_pages) + length (concat cat_pages)
   + length (concat tag_pages) + 1 < fuel)%nat →
  ∃ s', main fuel (initial server disk b target) = (Ok (), s')
        ∧ (∀ before p after,
             ps = before ++ p :: after →
             (∀ q, q ∈ after → Post.slug q ≠ Post.slug p) →
             fs s' !! post_index base (Post.slug p) = Some (File (Post.md p)))
        ∧ (∀ p, p ∈ ps → fs s' !! post_dir base (Post.slug p) = Some Dir)
        ∧ (∀ q n, direct q → p_root q = p_root base →
                  disk !! q = Some n →
                  (∀ p, p ∈ ps → q ≠ post_index base (Post.slug p)) →
                  fs s' !! q = Some n).
Proof.
  intros base Hall Hwf Hfree Hfuel.
  set (s := initial server disk b target).
  assert (Hinv : Inv s) by (repeat split; auto).
  destruct (stream_all_pages Extractor.default_base_params ps s fuel Hinv Hall Hfuel)
    as (s1 & Hstream).
  destruct (add_posts_run ps s) as (s2 & Hadd & Hlast & Hdirs & Hkeep);
    [done | by intros d Hd | |].
  { intros p Hp. destruct (Hfree p Hp) as (? & _ & ? & ? & ?). done. }
  exists (with_files s2 s1).
  split; [|split; [done|split; [done|intros q n _ _; apply Hkeep]]].
  unfold main, Extractor.get_posts. monad.
  pose proof (main_loop_stream fuel
                (Extractor.pageWhileList (Extractor.posts_url b)
                   Extractor.default_base_params) s s2) as Hloop.
  rewrite (yielded_ok _ _ _ _ _ Hstream), Hstream in Hloop.
  by apply Hloop.
Qed.
End EndToEnd.

(** ** The worked example *)

Lemma pageWhileList_yields_all_pages_witness :
  Extractor.to_list 3
    (Extractor.pageWhileList (Extractor.posts_url blog_url)
                             Extractor.default_base_params) blog_start
  = (Ok [raw_hello; raw_broken],
     set_sent (sent blog_start
                 ++ page_requests (Extractor.posts_url blog_url) 1 2) blog_start).
Proof.
  apply (pageWhileList_yields_all_pages (Extractor.posts_url blog_url)
           Extractor.default_base_params blog_server blog_pages error_body).
  - intros pg [->|Hpg]%elem_of_cons; [done | by apply elem_of_nil in Hpg].
  - intros h [|i] pg Hpg; [|done]. injection Hpg as <-. reflexivity.
  - intros h. reflexivity.
  - right. intros l. discriminate.
  - reflexivity.
  - simpl. lia.
Defined.

Lemma run_result {A} (m : M A) s r : fst (m s) = r → m s = (r, snd (m s)).
Proof. intros <-. by destruct (m s). Defined.

Lemma has_fields_hello : has_fields raw_hello fields_hello.
Proof.
  unfold has_fields, has_rendered.
  repeat split; try (vm_compute; reflexivity);
    eexists; split; vm_compute; reflexivity.
Defined.

Lemma has_fields_broken : has_fields raw_broken fields_broken.
Proof.
  unfold has_fields, has_rendered.
  repeat split; try (vm_compute; reflexivity);
    eexists; split; vm_compute; reflexivity.
Defined.

Lemma blog_categories_fetched :
  Extractor.categories 5 blog_start = (Ok blog_categories, blog_with_categories).
Proof.
  refine (run_result (Extractor.categories 5) blog_start (Ok blog_categories) _).
  vm_compute. reflexivity.
Defined.

Lemma blog_names :
  Forall2 (name_in blog_categories) [JNum 3; JNum 7] [py "News"; py "Events"].
Proof.
  constructor; [|constructor; [|constructor]];
    eexists _, _; (split; [reflexivity|]); split; vm_compute; reflexivity.
Defined.

Lemma enhance_post_fields_witness :
  (∃ post,
     @Extractor.enhance_post entities_excerpt 5 raw_hello blog_start
     = (Ok post, blog_with_categories)
     ∧ Post.categories post = [py "News"; py "Events"]
     ∧ Post.tags post = []
     ∧ Post.title post = py "A & B"
     ∧ Post.content post = py "<p>Fish & chips</p>"
     ∧ Post.summary post = py "Fish"
     ∧ Post.slug post = py "hello-world"
     ∧ Post.aliases post = []
     ∧ Post.author post = [])
  ∧ (@html5 entities_excerpt (py "amp;") = Some (py "&") →
     @unescape entities_excerpt (py "A &amp; B") = py "A & B").
Proof.
  apply (@enhance_post_fields entities_excerpt 5 raw_hello fields_hello
           (mkDatetime 2020 1 2 3 4 5 0 None) (mkDatetime 2020 2 3 4 5 6 0 None)
           [py "News"; py "Events"] [] blog_start blog_with_categories
           blog_with_categories).
  - apply has_fields_hello.
  - split; vm_compute; reflexivity.
  - split; vm_compute; reflexivity.
  - exists blog_categories. split; [apply blog_categories_fetched | apply blog_names].
  - split; reflexivity.
Defined.

Lemma enhance_post_timestamps_utc_witness :
  ∃ post kvs,
    @Extractor.enhance_post entities_excerpt 5 raw_hello blog_start
    = (Ok post, blog_with_categories)
    ∧ Post.published post = mkDatetime 2020 1 2 3 4 5 0 UTC
    ∧ Post.modified post = mkDatetime 2020 2 3 4 5 6 0 UTC
    ∧ tzinfo (Post.published post) = UTC
    ∧ tzinfo (Post.modified post) = UTC
    ∧ isoformat (Post.published post) = py "2020-01-02T03:04:05" ++ py "+00:00"
    ∧ isoformat (Post.modified post) = py "2020-02-03T04:05:06" ++ py "+00:00"
    ∧ Post.metadata post = JObj kvs
    ∧ assoc (py "date") kvs
      = Some (JStr (py "2020-01-02T03:04:05" ++ py "+00:00"))
    ∧ assoc (py "lastmod") kvs
      = Some (JStr (py "2020-02-03T04:05:06" ++ py "+00:00")).
Proof.
  apply (@enhance_post_timestamps_utc entities_excerpt 5 raw_hello fields_hello
           (mkDatetime 2020 1 2 3 4 5 0 None) (mkDatetime 2020 2 3 4 5 6 0 None)
           [py "News"; py "Events"] [] blog_start blog_with_categories
           blog_with_categories).
  - apply has_fields_hello.
  - split; vm_compute; reflexivity.
  - split; vm_compute; reflexivity.
  - exists blog_categories. split; [apply blog_categories_fetched | apply blog_names].
  - split; reflexivity.
Defined.

Lemma blog_after_first_cached :
  cached_categories (ext blog_after_first) = Some blog_categories.
Proof. vm_compute. reflexivity. Defined.

Lemma missing_reference_aborts_run_witness :
  @Extractor.enhance_post entities_excerpt 5 raw_broken blog_after_first
  = (Raise (KeyError (JNum 9)), blog_after_first)
  ∧ @main_loop entities_excerpt 6 blog_posts_1 blog_after_first
    = (Raise (KeyError (JNum 9)), blog_after_first)
  ∧ fs blog_after_first = fs blog_after_first.
Proof.
  apply (@missing_reference_aborts_run entities_excerpt 5 blog_posts_1
           blog_after_first raw_broken blog_posts_2 blog_after_first
           fields_broken
           (mkDatetime 2020 3 4 5 6 7 0 None) (mkDatetime 2020 3 4 5 6 7 0 None)
           (JNum 9) blog_after_first).
  - reflexivity.
  - apply has_fields_broken.
  - split; vm_compute; reflexivity.
  - split; vm_compute; reflexivity.
  - left. exists blog_categories, [JNum 3], [], [py "News"].
    split; [reflexivity|]. split.
    + apply categories_memoized, blog_after_first_cached.
    + split.
      * constructor; [|constructor].
        eexists _, _. split; [reflexivity|]. split; vm_compute; reflexivity.
      * exists (KInt 9). split; vm_compute; reflexivity.
Defined.

(** The whole run on the example: the first post is written, the second
    aborts the run, and there is no file for it. *)
Example blog_run :
  fst (@main entities_excerpt 10 blog_start) = Raise (KeyError (JNum 9))
  ∧ fs (snd (@main entities_excerpt 10 blog_start))
      !! post_index (parse_path (py "out")) (py "hello-world")
    = Some (File (Post.md post_hello))
  ∧ fs (snd (@main entities_excerpt 10 blog_start))
      !! post_index (parse_path (py "out")) (py "second")
    = None.
Proof. repeat split; vm_compute; reflexivity. Qed.

Lemma wf_fs_empty : wf_fs ∅.
Proof. intros p n Hp. rewrite lookup_empty in Hp. discriminate. Defined.

Lemma blog_start_consistent : con_consistent blog_start.
Proof. intros d Hd. discriminate. Defined.

Lemma hello_slug_valid : valid_segment (Post.slug post_hello).
Proof. apply valid_segment_dec. vm_compute. reflexivity. Defined.



Lemma md_is_front_matter_then_content_witness :
  json_string (py "hello-world")
  = [34%N] ++ py "hello-world" ++ [34%N]
  ∧ Post.front_matter post_hello
    = json_object
        [ entry "title" (json_string (py "A & B"));
          entry "categories" (json_array [json_string (py "News");
                                          json_string (py "Events")]);
          entry "tags" (json_array []);
          entry "aliases" (json_array []);
          entry "author" (json_string []);
          entry "date" (json_string (py "2020-01-02T03:04:05+00:00"));
          entry "lastmod" (json_string (py "2020-02-03T04:05:06+00:00"));
          entry "slug" (json_string (py "hello-world"));
          entry "summary" (json_string (py "Fish")) ].
Proof.
  split.
  - apply (proj1 (proj2 md_is_front_matter_then_content)).
    refine (bool_decide_eq_true_1 _ _). vm_compute. reflexivity.
  - exact (proj1 (proj2 (proj1 md_is_front_matter_then_content post_hello))).
Defined.

Lemma text_check (s : str) :
  forallb (fun c => ((c <? 0xD800) || (0xDFFF <? c)) && (c <? 0x110000))%N s
  = true →
  text s.
Proof.
  intros Hs. apply Forall_forall. intros c Hc%list_elem_of_In.
  rewrite forallb_forall in Hs. apply Hs in Hc.
  apply andb_prop in Hc as [[H1|H2]%orb_prop H3%N.ltb_lt].
  - apply N.ltb_lt in H1. split; [by left | done].
  - apply N.ltb_lt in H2. split; [by right | done].
Defined.

Lemma plain_path_check (p : Path) :
  forallb (fun x =>
             negb (bool_decide (x = py "..")) && negb (existsb (N.eqb 0) x)
             && forallb (fun c => ((c <? 0xD800) || (0xDFFF <? c))
                                  && (c <? 0x110000))%N x)
          (p_parts p) = true →
  plain_path p.
Proof.
  intros Hp. apply Forall_forall. intros x Hx%list_elem_of_In.
  rewrite forallb_forall in Hp. apply Hp in Hx.
  apply andb_prop in Hx as [[Hdots Hnul]%andb_prop Htext].
  split; [|split].
  - intros E. apply negb_true_iff, bool_decide_eq_false in Hdots. by apply Hdots.
  - intros Hin%list_elem_of_In. apply negb_true_iff in Hnul.
    assert (existsb (N.eqb 0) x = true); [|congruence].
    apply existsb_exists. exists 0%N. split; [done | reflexivity].
  - by apply text_check.
Defined.




Lemma blog_hello_written_run :
  Constructor.add_post post_hello blog_start = (Ok (), blog_hello_written).
Proof.
  refine (run_result (Constructor.add_post post_hello) blog_start (Ok ()) _).
  vm_compute. reflexivity.
Defined.

Lemma add_post_idempotent_nothing_removed_witness :
  fs blog_hello_written !! index_path blog_start post_hello
  = Some (File (Post.md post_hello))
  ∧ Constructor.add_post post_hello blog_hello_written
    = (Ok (), blog_hello_written).
Proof.
  exact (proj1 (@add_post_idempotent_nothing_removed entities_excerpt)
           post_hello blog_start blog_hello_written blog_hello_written_run).
Defined.

Lemma caches_fetched_once_then_read_only_witness :
  Extractor.categories 0 blog_with_categories
  = (Ok blog_categories, blog_with_categories).
Proof.
  apply (proj1 (@caches_fetched_once_then_read_only entities_excerpt)
           5%nat 0%nat blog_start blog_categories blog_with_categories).
  apply blog_categories_fetched.
Defined.

(** *** Further runs of the example *)

Lemma wf_fs_check m :
  bool_decide (map_Forall (fun p (_ : Node) => is_dir m (parent p) = true) m)
  = true →
  wf_fs m.
Proof.
  intros Hm%bool_decide_eq_true_1 p n Hp. specialize (Hm p n Hp).
  unfold is_dir in Hm. by destruct (node_at m (parent p)) as [[|?]|].
Defined.

Lemma unobstructed_check m p :
  forallb (fun q => match m !! q with Some (File _) => false | _ => true end)
          (dirs_of p) = true →
  unobstructed m p.
Proof.
  intros Hm q Hq c Hc. rewrite forallb_forall in Hm.
  apply list_elem_of_In, Hm in Hq. by rewrite Hc in Hq.
Defined.

Lemma main_loop_streams_witness :
  @main_loop entities_excerpt 5 blog_posts blog_start
  = (loop_outcome
       (fst (@Extractor.posts_to_list entities_excerpt 5 blog_posts blog_start)),
     with_files
       (snd (add_posts (@yielded entities_excerpt 5 blog_posts blog_start)
               blog_start))
       (snd (@Extractor.posts_to_list entities_excerpt 5 blog_posts blog_start)))
  ∧ @yielded entities_excerpt 5 blog_posts blog_start = [post_hello].
Proof.
  split; [|vm_compute; reflexivity].
  apply (@main_loop_streams entities_excerpt 5 blog_posts blog_start).
  refine (run_result _ blog_start (Ok ()) _). vm_compute. reflexivity.
Defined.

Lemma blog_ok_posts :
  @Extractor.posts entities_excerpt 5 blog_ok_start
  = (Ok [post_hello], snd (@Extractor.posts entities_excerpt 5 blog_ok_start)).
Proof.
  refine (run_result _ blog_ok_start (Ok [post_hello]) _).
  vm_compute. reflexivity.
Defined.

Lemma blog_ok_written :
  add_posts [post_hello] blog_ok_start
  = (Ok (), snd (add_posts [post_hello] blog_ok_start)).
Proof.
  refine (run_result _ blog_ok_start (Ok ()) _). vm_compute. reflexivity.
Defined.

Lemma main_writes_what_posts_lists_witness :
  ∃ s', @main entities_excerpt 5 blog_ok_start = (Ok (), s')
        ∧ fs s' = fs (snd (add_posts [post_hello] blog_ok_start)).
Proof.
  destruct (@main_writes_what_posts_lists entities_excerpt 5 blog_ok_start
              [post_hello] _ _ eq_refl blog_ok_posts blog_ok_written)
    as [(s' & Hrun & Hfs & _) _].
  exists s'. split; [exact Hrun | exact Hfs].
Defined.

Lemma blog_start_free p : unobstructed (fs blog_start) p.
Proof.
  intros q _ c. change (fs blog_start) with (∅ : gmap Path Node).
  rewrite lookup_empty. discriminate.
Defined.

Lemma blog_start_vacant p : fs blog_start !! p ≠ Some Dir.
Proof.
  change (fs blog_start) with (∅ : gmap Path Node).
  rewrite lookup_empty. discriminate.
Defined.

Lemma add_post_relative_slug_witness :
  ∃ s', Constructor.add_post post_dated blog_start = (Ok (), s')
        ∧ fs s' !! mkPath 0 [py "out"; py "content"; py "posts"; py "2020"]
          = Some Dir
        ∧ fs s' !! mkPath 0 [py "out"; py "content"; py "posts"; py "2020";
                             py "hello-world"; py "index.md"]
          = Some (File (Post.md post_dated)).
Proof.
  destruct (add_post_relative_slug post_dated blog_start)
    as (s' & Hrun & Hdirs & Hfile & _).
  - vm_compute. reflexivity.
  - apply plain_path_check. vm_compute. reflexivity.
  - apply text_check. vm_compute. reflexivity.
  - exact wf_fs_empty.
  - exact blog_start_consistent.
  - apply blog_start_free.
  - apply blog_start_vacant.
  - exists s'. split; [exact Hrun|]. split; [|exact Hfile].
    apply Hdirs. refine (bool_decide_eq_true_1 _ _). vm_compute. reflexivity.
Defined.

Lemma add_post_rooted_slug_witness :
  ∃ s', Constructor.add_post post_rooted blog_start = (Ok (), s')
        ∧ fs s' !! mkPath 1 [py "srv"; py "www"; py "index.md"]
          = Some (File (Post.md post_rooted)).
Proof.
  destruct (add_post_rooted_slug post_rooted blog_start)
    as (s' & Hrun & _ & Hfile).
  - vm_compute. discriminate.
  - apply plain_path_check. vm_compute. reflexivity.
  - apply plain_path_check. vm_compute. reflexivity.
  - apply text_check. vm_compute. reflexivity.
  - exact wf_fs_empty.
  - apply blog_start_free.
  - refine (bool_decide_eq_true_1 _ _). vm_compute. reflexivity.
  - apply blog_start_free.
  - apply blog_start_vacant.
  - exists s'. split; [exact Hrun | exact Hfile].
Defined.

Lemma add_posts_last_wins_witness :
  ∃ s', add_posts [post_hello; post_hello_revised] blog_start = (Ok (), s')
        ∧ fs s' !! post_index (parse_path (py "out")) (py "hello-world")
          = Some (File (Post.md post_hello_revised)).
Proof.
  destruct (add_posts_last_wins [post_hello; post_hello_revised] blog_start)
    as (s' & Hrun & Hlast & _).
  - exact wf_fs_empty.
  - exact blog_start_consistent.
  - intros p Hp.
    assert (Hp' : p = post_hello ∨ p = post_hello_revised).
    { apply elem_of_cons in Hp as [->|Hp]; [by left|].
      apply elem_of_cons in Hp as [->|Hp]; [by right|].
      by apply elem_of_nil in Hp. }
    split; [|split; [|split; [|split]]].
    + destruct Hp' as [-> | ->]; apply valid_segment_dec; vm_compute; reflexivity.
    + destruct Hp' as [-> | ->]; apply plain_path_check; vm_compute; reflexivity.
    + destruct Hp' as [-> | ->]; apply text_check; vm_compute; reflexivity.
    + apply blog_start_free.
    + apply blog_start_vacant.
  - exists s'. split; [exact Hrun|].
    apply (Hlast [post_hello] post_hello_revised []); [reflexivity|].
    intros q Hq. by apply elem_of_nil in Hq.
Defined.

Lemma blog_blocked_consistent : con_consistent blog_blocked.
Proof. intros d Hd. discriminate. Defined.

Lemma add_post_blocked_by_file_witness :
  ∃ s', Constructor.add_post post_hello blog_blocked
        = (Raise (FileExistsError
                    (post_dir (parse_path (py "out")) (py "hello-world"))), s')
        ∧ fs s' = fs blog_blocked.
Proof.
  destruct (add_post_blocked_by_file post_hello blog_blocked (py "kept"))
    as (s' & Hrun & Hfs & _).
  - apply wf_fs_check. vm_compute. reflexivity.
  - exact blog_blocked_consistent.
  - exact hello_slug_valid.
  - discriminate.
  - vm_compute. reflexivity.
  - exists s'. split; [exact Hrun | exact Hfs].
Defined.

Lemma blog_index_taken_consistent : con_consistent blog_index_taken.
Proof. intros d Hd. discriminate. Defined.

Lemma add_post_index_is_directory_witness :
  ∃ s', Constructor.add_post post_hello blog_index_taken
        = (Raise (IsADirectoryError
                    (post_index (parse_path (py "out")) (py "hello-world"))), s').
Proof.
  destruct (add_post_index_is_directory post_hello blog_index_taken)
    as (s' & Hrun & _).
  - apply wf_fs_check. vm_compute. reflexivity.
  - exact blog_index_taken_consistent.
  - exact hello_slug_valid.
  - discriminate.
  - apply unobstructed_check. vm_compute. reflexivity.
  - vm_compute. reflexivity.
  - exists s'. exact Hrun.
Defined.

Lemma add_post_content_not_encodable_witness :
  ∃ s', Constructor.add_post post_surrogate blog_start
        = (Raise UnicodeEncodeError, s')
        ∧ fs s' !! post_index (parse_path (py "out")) (py "hello-world")
          = Some (File []).
Proof.
  destruct (add_post_content_not_encodable post_surrogate blog_start)
    as (s' & Hrun & Hfile & _).
  - exact wf_fs_empty.
  - exact blog_start_consistent.
  - apply valid_segment_dec. vm_compute. reflexivity.
  - apply plain_path_check. vm_compute. reflexivity.
  - apply Exists_exists. exists 0xD83D%N. split; [|reflexivity].
    refine (bool_decide_eq_true_1 _ _). vm_compute. reflexivity.
  - apply blog_start_free.
  - apply blog_start_vacant.
  - exists s'. split; [exact Hrun | exact Hfile].
Defined.


Lemma pageWhileList_failure_propagates_witness :
  Extractor.to_list 3
    (Extractor.pageWhileList (Extractor.posts_url blog_url)
                             Extractor.default_base_params) flaky_start
  = (Raise RequestException,
     set_sent (sent flaky_start
                 ++ page_requests (Extractor.posts_url blog_url) 1 2) flaky_start).
Proof.
  apply (pageWhileList_failure_propagates (Extractor.posts_url blog_url)
           Extractor.default_base_params flaky_server [[raw_hello]] None).
  - intros pg [->|Hpg]%elem_of_cons; [done | by apply elem_of_nil in Hpg].
  - intros h [|i] pg Hpg; [|done]. injection Hpg as <-. reflexivity.
  - intros h. reflexivity.
  - left. reflexivity.
  - reflexivity.
  - simpl. lia.
Defined.

Lemma blog_posts_2_ends :
  Extractor.next blog_posts_2 blog_start
  = (Ok (None, Extractor.resume blog_posts Extractor.Finished),
     snd (Extractor.next blog_posts_2 blog_start)).
Proof.
  refine (run_result _ blog_start
            (Ok (None, Extractor.resume blog_posts Extractor.Finished)) _).
  vm_compute. reflexivity.
Defined.

Lemma generator_exhausted_stays_silent_witness :
  Extractor.next (Extractor.resume blog_posts Extractor.Finished) blog_start
  = (Ok (None, Extractor.resume blog_posts Extractor.Finished), blog_start).
Proof.
  exact (proj2 (generator_exhausted_stays_silent blog_posts_2 blog_start _ _
                  blog_posts_2_ends) blog_start).
Defined.

Lemma anonymous_categories_fail :
  Extractor.categories 5 anonymous_start
  = (Raise (KeyError (JStr (py "id"))),
     snd (Extractor.categories 5 anonymous_start)).
Proof.
  refine (run_result _ anonymous_start (Raise (KeyError (JStr (py "id")))) _).
  vm_compute. reflexivity.
Defined.

Lemma failed_property_is_not_cached_witness :
  ext (snd (Extractor.categories 5 anonymous_start)) = ext anonymous_start.
Proof.
  apply (proj1 (@failed_property_is_not_cached entities_excerpt)
           5%nat anonymous_start (Raise (KeyError (JStr (py "id"))))).
  - exact anonymous_categories_fail.
  - intros v. discriminate.
Defined.

Lemma cache_files_records_by_id_witness :
  index_by_id [category_news; category_events] ∅ !! KInt 7 = Some category_events
  ∧ fst (Extractor.categories 5 blog_start)
    = Ok (index_by_id [category_news; category_events] ∅).
Proof.
  destruct (cache_files_records_by_id blog_url (Extractor.categories_url blog_url)
              blog_server [[category_news; category_events]] error_body)
    with (s := blog_start) (fuel := 5%nat) as [[Hlast _] [Hcat _]].
  - intros pg [->|Hpg]%elem_of_cons; [done | by apply elem_of_nil in Hpg].
  - intros h [|i] pg Hpg; [|done]. injection Hpg as <-. reflexivity.
  - intros h. reflexivity.
  - right. intros l. discriminate.
  - reflexivity.
  - reflexivity.
  - simpl. lia.
  - repeat constructor; by eexists.
  - split.
    + apply (Hlast [category_news] category_events []); [reflexivity..|].
      intros y Hy. by apply elem_of_nil in Hy.
    + by rewrite (Hcat eq_refl eq_refl).
Defined.

Lemma record_without_id_fails_cache_witness :
  fst (Extractor.categories 5 anonymous_start) = Raise (KeyError (JStr (py "id")))
  ∧ ext (snd (Extractor.categories 5 anonymous_start)) = ext anonymous_start.
Proof.
  apply (record_without_id_fails_cache blog_url (Extractor.categories_url blog_url)
           anonymous_server [[category_news; category_anonymous]] error_body)
    with (before := [category_news]) (x := category_anonymous) (after := []).
  - intros pg [->|Hpg]%elem_of_cons; [done | by apply elem_of_nil in Hpg].
  - intros h [|i] pg Hpg; [|done]. injection Hpg as <-. reflexivity.
  - intros h. reflexivity.
  - right. intros l. discriminate.
  - reflexivity.
  - reflexivity.
  - simpl. lia.
  - reflexivity.
  - repeat constructor; by eexists.
  - reflexivity.
  - reflexivity.
  - reflexivity.
Defined.


Lemma blog_hello_enhanced :
  @Extractor.enhance_post entities_excerpt 5 raw_hello blog_start
  = (Ok post_hello,
     snd (@Extractor.enhance_post entities_excerpt 5 raw_hello blog_start)).
Proof.
  refine (run_result _ blog_start (Ok post_hello) _). vm_compute. reflexivity.
Defined.

Lemma enhance_post_needs_every_field_witness :
  ∃ v, getitem raw_hello (py "excerpt") = Ok v.
Proof.
  apply (proj1 (@enhance_post_needs_every_field entities_excerpt 5 raw_hello
                  blog_start post_hello _ blog_hello_enhanced)).
  refine (bool_decide_eq_true_1 _ _). vm_compute. reflexivity.
Defined.

Lemma canonical_timestamp_kept_witness :
  ∃ post kvs,
    @Extractor.enhance_post entities_excerpt 5 raw_hello blog_start
    = (Ok post, blog_with_categories)
    ∧ Post.metadata post = JObj kvs
    ∧ assoc (py "date") kvs
      = Some (JStr (py "2020-01-02T03:04:05" ++ py "+00:00"))
    ∧ assoc (py "lastmod") kvs
      = Some (JStr (py "2020-02-03T04:05:06" ++ py "+00:00")).
Proof.
  apply (@canonical_timestamp_kept entities_excerpt 5 raw_hello fields_hello
           (mkDatetime 2020 1 2 3 4 5 0 None) (mkDatetime 2020 2 3 4 5 6 0 None)
           [py "News"; py "Events"] [] blog_start blog_with_categories
           blog_with_categories).
  - apply has_fields_hello.
  - vm_compute. reflexivity.
  - reflexivity.
  - vm_compute. reflexivity.
  - vm_compute. reflexivity.
  - reflexivity.
  - vm_compute. reflexivity.
  - exists blog_categories. split; [apply blog_categories_fetched | apply blog_names].
  - split; reflexivity.
Defined.

Lemma md_splits_back_witness :
  Post.front_matter post_hello = Post.front_matter post_hello
  ∧ Post.content post_hello = Post.content post_hello.
Proof. apply (md_splits_back post_hello post_hello). reflexivity. Defined.


Lemma post_hello_text : post_text post_hello.
Proof.
  unfold post_text.
  repeat split; try (apply text_check; vm_compute; reflexivity);
    repeat constructor; apply text_check; vm_compute; reflexivity.
Defined.

Lemma front_matter_determines_fields_witness :
  Post.title post_hello = Post.title post_hello
  ∧ Post.categories post_hello = Post.categories post_hello
  ∧ Post.tags post_hello = Post.tags post_hello
  ∧ Post.aliases post_hello = Post.aliases post_hello
  ∧ Post.author post_hello = Post.author post_hello
  ∧ isoformat (Post.published post_hello) = isoformat (Post.published post_hello)
  ∧ isoformat (Post.modified post_hello) = isoformat (Post.modified post_hello)
  ∧ Post.slug post_hello = Post.slug post_hello
  ∧ Post.summary post_hello = Post.summary post_hello.
Proof.
  exact (front_matter_determines_fields post_hello post_hello post_hello_text
           post_hello_text eq_refl).
Defined.

Lemma blog_ok_serves_posts :
  serves blog_ok_server (Extractor.posts_url blog_url) [[raw_hello]] error_body.
Proof.
  split; [|split].
  - intros pg [->|Hpg]%elem_of_cons; [done | by apply elem_of_nil in Hpg].
  - intros h [|i] pg Hpg; [|done]. injection Hpg as <-. reflexivity.
  - intros h. reflexivity.
Defined.

Lemma blog_ok_serves_categories :
  serves blog_ok_server (Extractor.categories_url blog_url)
         [[category_news; category_events]] error_body.
Proof.
  split; [|split].
  - intros pg [->|Hpg]%elem_of_cons; [done | by apply elem_of_nil in Hpg].
  - intros h [|i] pg Hpg; [|done]. injection Hpg as <-. reflexivity.
  - intros h. reflexivity.
Defined.

Lemma blog_ok_serves_tags :
  serves blog_ok_server (Extractor.tags_url blog_url) [] error_body.
Proof.
  split; [|split].
  - intros pg Hpg. by apply elem_of_nil in Hpg.
  - intros h i pg Hpg. done.
  - intros h. reflexivity.
Defined.

Lemma blog_hello_normalizes :
  @normalizes entities_excerpt
    (index_by_id (concat [[category_news; category_events]]) ∅)
    (index_by_id (concat []) ∅) raw_hello post_hello.
Proof.
  exists fields_hello, (mkDatetime 2020 1 2 3 4 5 0 None),
         (mkDatetime 2020 2 3 4 5 6 0 None), [py "News"; py "Events"], [].
  split; [apply has_fields_hello|].
  split; [split; vm_compute; reflexivity|].
  split; [split; vm_compute; reflexivity|].
  split.
  { constructor; [|constructor; [|constructor]];
      eexists _, _; (split; [reflexivity|]); split; vm_compute; reflexivity. }
  split; [constructor|]. vm_compute. reflexivity.
Defined.

Lemma main_writes_every_post_witness :
  ∃ s', @main entities_excerpt 5 (initial blog_ok_server ∅ blog_url (py "out"))
        = (Ok (), s')
        ∧ fs s' !! post_index (parse_path (py "out")) (py "hello-world")
          = Some (File (Post.md post_hello)).
Proof.
  destruct (@main_writes_every_post entities_excerpt blog_url blog_ok_server
              [[raw_hello]] [[category_news; category_events]] [] error_body
              blog_ok_serves_posts blog_ok_serves_categories blog_ok_serves_tags)
    with (fuel := 5%nat) (disk := (∅ : gmap Path Node)) (target := py "out")
         (ps := [post_hello])
    as (s' & Hrun & Hlast & _).
  - right. intros l. discriminate.
  - repeat constructor; by eexists.
  - constructor.
  - constructor; [apply blog_hello_normalizes | constructor].
  - exact wf_fs_empty.
  - intros p Hp.
    assert (Hp' : p = post_hello).
    { apply elem_of_cons in Hp as [->|Hp]; [reflexivity|].
      by apply elem_of_nil in Hp. }
    rewrite Hp'. split; [|split; [|split; [|split]]].
    + apply valid_segment_dec. vm_compute. reflexivity.
    + apply plain_path_check. vm_compute. reflexivity.
    + apply text_check. vm_compute. reflexivity.
    + intros q _ c. rewrite lookup_empty. discriminate.
    + rewrite lookup_empty. discriminate.
  - simpl. lia.
  - exists s'. split; [exact Hrun|].
    apply (Hlast [] post_hello []); [reflexivity|].
    intros q Hq. by apply elem_of_nil in Hq.
Defined.
